(** * Shankh.ai RAG service: chunking, ingestion and retrieval

    A shallow embedding of [packages/rag_service/ingest.py],
    [packages/rag_service/server.py] and
    [packages/rag_service/stock_service.py], and the properties of the
    chunker, the ingestion pipeline, the endpoints of the server and the
    cache of the stock price service.

    Conventions.
    - A Python [str] is a list of Unicode code points ([list N]); Python
      [int]s are [Z]; Python [float]s are idealised as rationals ([Q]).
    - Python's slice and [rfind] index adjustment (negative indices count
      from the end, out-of-range indices are clamped) is written out.
    - The [while] loop of [chunk_text] runs on fuel; the loop function
      returns the chunks accumulated so far together with a flag telling
      whether the loop has finished.
    - FAISS, the sentence-transformer models and the file system lie
      outside the sources. The index follows the vector index of the
      specification; the search of the index is a parameter of the
      service, since the order in which the library returns rows of
      equal score is not fixed by the sources. The models, the
      normalisation of a vector and the language detection are
      parameters, and so is the disk: whether a directory can be made,
      and whether a write is done in full, refused, or broken off after
      the file was opened and emptied.
    - So are the Whisper model, what happens to an upload on its way
      into a temporary file, the market data of yfinance, the clock
      (each reading is a value of its own), the case mappings of [str]
      and the rounding of a float. Times are counted in microseconds. *)

From stdpp Require Import gmap strings.
From Stdlib Require Import ZArith List Lia QArith Lqa Bool Sorted.
Import ListNotations.

#[local] Open Scope Z_scope.

(** ** Outcomes of Python code *)

(** The exceptions the modelled code raises or lets through. *)
Inductive exn :=
  | FileNotFoundError | ValueError | RuntimeError | AssertionError
  | IndexError | AttributeError | TypeError | OSError.

(** A call returns, raises, or is still running when the fuel given to
    its loops is spent. *)
Inductive outcome (A : Type) :=
  | Ok (a : A)
  | Raise (e : exn)
  | Diverge.

Arguments Ok {A} a.
Arguments Raise {A} e.
Arguments Diverge {A}.

(** Sequencing: a raise or a divergence ends the computation. It is
    written [x ← m; k]. *)
#[global] Instance outcome_bind : MBind outcome := fun A B f m =>
  match m with
  | Ok a => f a
  | Raise e => Raise e
  | Diverge => Diverge
  end.

#[global] Instance outcome_ret : MRet outcome := fun A a => Ok a.

(** ** Python strings *)

Module Py.

(** A [str] as the sequence of its code points. *)
Definition str := list N.

Definition len {A} (s : list A) : Z := Z.of_nat (length s).

(** The code points of an ASCII literal. *)
Fixpoint of_string (s : string) : str :=
  match s with
  | EmptyString => []
  | String c s' => Ascii.N_of_ascii c :: of_string s'
  end.

(** [PySlice_AdjustIndices] for one bound of [s[lo:hi]] (step 1). *)
Definition adjust (L i : Z) : Z :=
  if i <? 0 then Z.max (i + L) 0 else Z.min i L.

(** [s[lo:hi]] *)
Definition slice {A} (s : list A) (lo hi : Z) : list A :=
  let a := adjust (len s) lo in
  let b := adjust (len s) hi in
  take (Z.to_nat (b - a)) (drop (Z.to_nat a) s).

(** [ADJUST_INDICES] of [str.find]/[str.rfind]: like a slice, except that
    a start beyond the end is left as it is. *)
Definition adjust_start (L i : Z) : Z :=
  if i <? 0 then Z.max (i + L) 0 else i.

Definition adjust_end (L i : Z) : Z :=
  if L <? i then L else if i <? 0 then Z.max (i + L) 0 else i.

(** [s[i:i+len(sub)] == sub] for [0 <= i]. *)
Definition matches_at (sub s : str) (i : Z) : bool :=
  bool_decide (take (length sub) (drop (Z.to_nat i) s) = sub).

(** The largest [i] among [a, a+1, ..., a+n-1] at which [sub] occurs, or -1. *)
Fixpoint rfind_from (sub s : str) (a : Z) (n : nat) : Z :=
  match n with
  | O => -1
  | S n' =>
      if matches_at sub s (a + Z.of_nat n') then a + Z.of_nat n'
      else rfind_from sub s a n'
  end.

(** [s.rfind(sub, lo, hi)] *)
Definition rfind (s sub : str) (lo hi : Z) : Z :=
  let a := adjust_start (len s) lo in
  let b := adjust_end (len s) hi in
  rfind_from sub s a (Z.to_nat (b - len sub - a + 1)).

(** [str.isspace] on one code point (the characters [str.strip] removes). *)
Definition is_space (c : N) : bool :=
  ((9 <=? c) && (c <=? 13) || (28 <=? c) && (c <=? 32)
   || (c =? 133) || (c =? 160) || (c =? 5760)
   || (8192 <=? c) && (c <=? 8202)
   || (c =? 8232) || (c =? 8233) || (c =? 8239) || (c =? 8287)
   || (c =? 12288))%N.

Fixpoint lstrip (s : str) : str :=
  match s with
  | [] => []
  | c :: s' => if is_space c then lstrip s' else s
  end.

Definition rstrip (s : str) : str := rev (lstrip (rev s)).

(** [s.strip()] *)
Definition strip (s : str) : str := rstrip (lstrip s).

(** [max(xs)] on a non-empty list given as head and tail. *)
Definition max_of (x : Z) (xs : list Z) : Z := fold_left Z.max xs x.

End Py.

(** ** The vector index *)

Module Faiss.

Import Py.

(** Modelled from the spec: the vector index of section 3, which is a
    [faiss.IndexFlatIP] whose code is not part of the sources: its fixed
    dimension and its rows, in the order in which they were added. *)
Record Index := { d : Z; rows : list (list Q) }.

(** [index.ntotal] *)
Definition ntotal (idx : Index) : Z := len (rows idx).

(** [faiss.IndexFlatIP(dim)] *)
Definition IndexFlatIP (dim : Z) : Index := {| d := dim; rows := [] |}.

(** Modelled from the spec: [index.add(xs)] appends the rows, and fails
    when a row has not the dimension of the index (section 3). *)
Definition add (idx : Index) (xs : list (list Q)) : outcome Index :=
  if forallb (fun x => len x =? d idx) xs
  then Ok {| d := d idx; rows := rows idx ++ xs |}
  else Raise AssertionError.

(** The inner product, the score of section 4.3. *)
Definition inner_product (x y : list Q) : Q :=
  fold_right Qplus 0%Q (zip_with Qmult x y).

(** A search hit: the distance (inner product) and the label (row
    number), as in the two arrays [index.search] returns. *)
Definition hit := (Q * Z)%type.

(** Modelled from the spec: the ranking of section 4.3. [h1] is ranked
    no later than [h2]: higher score first, and on an exact tie the
    smaller row number first. *)
Definition hit_leb (h1 h2 : hit) : bool :=
  match (h2.1 ?= h1.1)%Q with
  | Lt => true
  | Eq => h1.2 <=? h2.2
  | Gt => false
  end.


(** Sorting by insertion, in the order [leb]. *)
Fixpoint insert_hit (leb : hit -> hit -> bool) (h : hit) (hs : list hit)
    : list hit :=
  match hs with
  | [] => [h]
  | h' :: hs' => if leb h h' then h :: hs else h' :: insert_hit leb h hs'
  end.

Definition sort_hits (leb : hit -> hit -> bool) (hs : list hit) : list hit :=
  fold_right (insert_hit leb) [] hs.

(** The score of every row against the query, with the row numbers. *)
Fixpoint score_rows (q : list Q) (n : Z) (rs : list (list Q)) : list hit :=
  match rs with
  | [] => []
  | r :: rs' => (inner_product q r, n) :: score_rows q (n + 1) rs'
  end.

(** The slot FAISS leaves when fewer than [k] rows exist: label -1. *)
Definition missing : hit := (0%Q, -1).

(** Modelled from the spec: the exact search of section 4.3, with the
    order of the hits as a parameter [leb]. The body of
    [faiss.IndexFlatIP.search] is not part of the sources, and the order
    in which it returns rows of equal score is not fixed by anything in
    them; so the service is stated over any search (a variable of
    [Server.retrieve]). The scores are the inner products with the query
    and the hits are the [min(k, N)] first rows in the order [leb]; a
    query of another dimension fails. As the FAISS wrapper does, the
    result has exactly [k] slots, the unused ones labelled -1, and [k]
    must be positive. *)
Definition search_by (leb : hit -> hit -> bool) (idx : Index) (q : list Q)
    (k : Z) : outcome (list hit) :=
  if negb (len q =? d idx) then Raise AssertionError
  else if k <=? 0 then Raise AssertionError
  else
    let best := take (Z.to_nat k) (sort_hits leb (score_rows q 0 (rows idx))) in
    Ok (best ++ replicate (Z.to_nat k - length best) missing).

(** Modelled from the spec: [VectorIndex.search] (section 4.3), the exact
    search with the hits descending by score and, on exact ties,
    ascending by row number. *)
Definition search : Index -> list Q -> Z -> outcome (list hit) :=
  search_by hit_leb.


End Faiss.

(** ** ingest.py *)

Module Ingest.

Import Py.

(** [class DocumentChunk] *)
Record DocumentChunk := {
  text : str;
  filename : string;
  page_num : Z;
  chunk_id : Z;
  char_start : Z;
  char_end : Z;
  excerpt : str
}.

(** [DocumentChunk.__init__] *)
Definition new_chunk (txt : str) (fname : string) (page id cs ce : Z) : DocumentChunk :=
  let t := strip txt in
  {| text := t; filename := fname; page_num := page; chunk_id := id;
     char_start := cs; char_end := ce;
     excerpt := if 100 <? len t then slice t 0 100 ++ of_string "..." else t |}.

(** The two chunking knobs of [PDFIngestionPipeline.__init__]. *)
Record Config := { chunk_size : Z; chunk_overlap : Z }.

(** The sentence terminators looked for, in the order of the source. *)
Definition terminators : list str :=
  [ of_string ". "; [2404%N; 32%N]; of_string "? "; of_string "! "; [10%N; 10%N] ].

(** [max(sentence_ends)] *)
Definition sentence_end (t : str) (search_start e : Z) : Z :=
  max_of (rfind t (of_string ". ") search_start e)
    [ rfind t [2404%N; 32%N] search_start e;
      rfind t (of_string "? ") search_start e;
      rfind t (of_string "! ") search_start e;
      rfind t [10%N; 10%N] search_start e ].

(** The value of [end] when the slice is taken, for a window that starts
    at [start]. *)
Definition window_end (cfg : Config) (t : str) (start : Z) : Z :=
  let e := start + chunk_size cfg in
  if e <? len t then
    let search_start := Z.max start (e - 100) in
    let se := sentence_end t search_start e in
    if start <? se then se + 1 else e
  else e.

(** The state of the [while] loop. *)
Record LoopState := {
  ls_start : Z;
  ls_chunk_id : Z;
  ls_chunks : list DocumentChunk
}.

(** The body of the loop, up to the [break] test: the window at [start]
    is cut, its chunk is appended when it has enough content, and [start]
    moves on. *)
Definition body (cfg : Config) (t : str) (fname : string) (page : Z)
    (st : LoopState) : LoopState :=
  let e := window_end cfg t (ls_start st) in
  let chunk_text := strip (slice t (ls_start st) e) in
  if 50 <? len chunk_text then
    {| ls_start := e - chunk_overlap cfg;
       ls_chunk_id := ls_chunk_id st + 1;
       ls_chunks := ls_chunks st ++
         [new_chunk chunk_text fname page (ls_chunk_id st) (ls_start st) e] |}
  else
    {| ls_start := e - chunk_overlap cfg;
       ls_chunk_id := ls_chunk_id st;
       ls_chunks := ls_chunks st |}.

(** The [while] loop. The result is [(true, st)] when the loop has been
    left (by its condition or by [break]) and [(false, st)] when the fuel
    ran out first; [st] is the loop state reached. *)
Fixpoint chunk_loop (fuel : nat) (cfg : Config) (t : str) (fname : string)
    (page : Z) (st : LoopState) : bool * LoopState :=
  match fuel with
  | O => (false, st)
  | S fuel' =>
      if ls_start st <? len t then
        let st' := body cfg t fname page st in
        if len t - chunk_overlap cfg <=? ls_start st' then (true, st')
        else chunk_loop fuel' cfg t fname page st'
      else (true, st)
  end.

Definition init_state (chunk_offset : Z) : LoopState :=
  {| ls_start := 0; ls_chunk_id := chunk_offset; ls_chunks := [] |}.

(** [PDFIngestionPipeline.chunk_text]: [None] when the fuel does not
    suffice for the loop to finish. *)
Definition chunk_text (fuel : nat) (cfg : Config) (t : str) (fname : string)
    (page : Z) (chunk_offset : Z) : option (list DocumentChunk) :=
  match chunk_loop fuel cfg t fname page (init_state chunk_offset) with
  | (true, st) => Some (ls_chunks st)
  | (false, _) => None
  end.

(** *** Text extraction and the chunking of a corpus *)

(** What a PDF library finds in a file: nothing readable, or the text of
    each page (an empty text where a page has none). *)
Inductive PdfContent :=
  | Unreadable
  | Pages (texts : list str).

(** [enumerate(xs, start=n)] *)
Fixpoint enumerate {A} (n : Z) (xs : list A) : list (Z * A) :=
  match xs with
  | [] => []
  | x :: xs' => (n, x) :: enumerate (n + 1) xs'
  end.

(** [PDFIngestionPipeline.extract_text_from_pdf]: pages without text are
    left out, and a file that cannot be read yields no page. *)
Definition extract_text_from_pdf (c : PdfContent) : list (Z * str) :=
  match c with
  | Unreadable => []
  | Pages texts =>
      filter (fun p => negb (bool_decide (p.2 = []))) (enumerate 1 texts)
  end.

(** The inner [for page_num, page_text in pages] loop of [process_pdfs],
    on the running [all_chunks] and [chunk_id_offset]. *)
Fixpoint process_pages (fuel : nat) (cfg : Config) (fname : string)
    (pages : list (Z * str)) (all_chunks : list DocumentChunk)
    (chunk_id_offset : Z) : outcome (list DocumentChunk * Z) :=
  match pages with
  | [] => Ok (all_chunks, chunk_id_offset)
  | (page, page_text) :: rest =>
      match chunk_text fuel cfg page_text fname page chunk_id_offset with
      | None => Diverge
      | Some chunks =>
          process_pages fuel cfg fname rest
            (all_chunks ++ chunks) (chunk_id_offset + len chunks)
      end
  end.

(** The outer [for pdf_path in pdf_files] loop. *)
Fixpoint process_files (fuel : nat) (cfg : Config)
    (pdf_files : list (string * PdfContent)) (all_chunks : list DocumentChunk)
    (chunk_id_offset : Z) : outcome (list DocumentChunk * Z) :=
  match pdf_files with
  | [] => Ok (all_chunks, chunk_id_offset)
  | (name, content) :: rest =>
      r ← process_pages fuel cfg name (extract_text_from_pdf content)
            all_chunks chunk_id_offset;
      process_files fuel cfg rest r.1 r.2
  end.

(** [PDFIngestionPipeline.process_pdfs]. [data_dir] is [None] when the
    directory does not exist, and else lists its [*.pdf] files. *)
Definition process_pdfs (fuel : nat) (cfg : Config)
    (data_dir : option (list (string * PdfContent)))
    : outcome (list DocumentChunk) :=
  match data_dir with
  | None => Raise FileNotFoundError
  | Some [] => Raise ValueError
  | Some pdf_files =>
      r ← process_files fuel cfg pdf_files [] 0;
      Ok r.1
  end.

(** *** Embeddings and the index *)

(** A sentence-transformer model: its name, its output dimension and the
    vector it gives a text. *)
Record Model := {
  model_name : string;
  embedding_dim : Z;
  encode : str -> list Q
}.

(** [PDFIngestionPipeline.create_embeddings]: one row per chunk, in the
    order of the chunks. *)
Definition create_embeddings (m : Model) (chunks : list DocumentChunk)
    : list (list Q) :=
  let texts := map text chunks in
  map (encode m) texts.

(** [DocumentChunk.to_dict]: the dictionary has the fields of the chunk. *)
Definition to_dict (c : DocumentChunk) : DocumentChunk := c.

(** The dictionary pickled to [metadata.pkl]. *)
Record Metadata := {
  md_chunks : list DocumentChunk;
  md_embedding_model : string;
  md_embedding_dim : Z;
  md_chunk_size : Z;
  md_chunk_overlap : Z;
  md_created_at : string;
  md_num_chunks : Z
}.

(** The dictionary written to [index_summary.json]; [sm_documents] maps
    a file name to its number of chunks and its set of pages. *)
Record Summary := {
  sm_embedding_model : string;
  sm_num_chunks : Z;
  sm_num_documents : Z;
  sm_created_at : string;
  sm_documents : gmap string (Z * gset Z)
}.

(** The loop [for chunk in chunks] that groups the chunks by document. *)
Definition group_by_document (chunks : list DocumentChunk)
    : gmap string (Z * gset Z) :=
  fold_left
    (fun docs c =>
       let entry := default (0, ∅) (docs !! filename c) in
       <[filename c := (entry.1 + 1, {[page_num c]} ∪ entry.2)]> docs)
    chunks ∅.

(** The content of a file of the index directory; [Truncated] is what a
    write leaves that opened the file and did not finish. *)
Inductive File :=
  | IndexFile (idx : Faiss.Index)
  | MetadataFile (md : Metadata)
  | SummaryFile (sm : Summary)
  | Truncated.

(** The part of the file system the service touches: the directories
    that exist and the files, by path. *)
Record FileSystem := {
  dirs : gset string;
  files : gmap string File
}.

(** [Path(dir) / name] *)
Definition path_join (dir name : string) : string := dir +:+ "/" +:+ name.

(** How a write to a path ends: the content is written in full; the
    path cannot be opened for writing, and the file stays as it was; or
    the file is opened, which empties it, and the write raises before
    the content is there in full. *)
Inductive WriteEnd :=
  | Written
  | Refused
  | Torn.

(** The file system as [save_index] meets it: whether
    [mkdir(parents=True, exist_ok=True)] on a path goes through, the
    missing parents it creates on the way, and how a write to a path
    ends. *)
Record Disk := {
  mkdir_ok : string -> bool;
  mkdir_parents : string -> gset string;
  write_end : string -> WriteEnd
}.

(** *** The pipeline against its environment *)

Section Pipeline.

(** [faiss.normalize_L2] on one row. *)
Variable normalize_L2 : list Q -> list Q.

(** [SentenceTransformer(name)]: the model of that name, when it can be
    loaded. *)
Variable hub : string -> option Model.

(** [os.getenv("EMBEDDING_MODEL")] *)
Variable env_embedding_model : option string.

(** The readings of [datetime.now().isoformat()], in the order in which
    the run takes them. *)
Variable now : nat -> string.

Variable disk : Disk.

(** [PDFIngestionPipeline]: the fields set by [__init__]. *)
Record Pipeline := {
  embedding_model_name : string;
  config : Config;
  model : Model
}.

(** [PDFIngestionPipeline.__init__] *)
Definition new_pipeline (embedding_model : option string) (cfg : Config)
    : outcome Pipeline :=
  let name :=
    match embedding_model with
    | Some n => n
    | None => default "paraphrase-multilingual-mpnet-base-v2"
                env_embedding_model
    end in
  match hub name with
  | Some m => Ok {| embedding_model_name := name; config := cfg; model := m |}
  | None => Raise OSError
  end.

(** [PDFIngestionPipeline.build_faiss_index] *)
Definition build_faiss_index (p : Pipeline) (embeddings : list (list Q))
    : outcome Faiss.Index :=
  let embeddings := map normalize_L2 embeddings in
  Faiss.add (Faiss.IndexFlatIP (embedding_dim (model p))) embeddings.

(** [faiss.write_index] to a path, and [open] for writing followed by
    [pickle.dump] or [json.dump]. *)
Definition write_file (fs : FileSystem) (path : string) (f : File)
    : FileSystem * outcome unit :=
  match write_end disk path with
  | Written =>
      ({| dirs := dirs fs; files := <[path := f]> (files fs) |}, Ok ())
  | Refused => (fs, Raise OSError)
  | Torn =>
      ({| dirs := dirs fs; files := <[path := Truncated]> (files fs) |},
       Raise OSError)
  end.

Definition make_metadata (p : Pipeline) (chunks : list DocumentChunk)
    : Metadata :=
  {| md_chunks := map to_dict chunks;
     md_embedding_model := embedding_model_name p;
     md_embedding_dim := embedding_dim (model p);
     md_chunk_size := chunk_size (config p);
     md_chunk_overlap := chunk_overlap (config p);
     md_created_at := now 0%nat;
     md_num_chunks := len chunks |}.

Definition make_summary (p : Pipeline) (chunks : list DocumentChunk)
    : Summary :=
  let documents := group_by_document chunks in
  {| sm_embedding_model := embedding_model_name p;
     sm_num_chunks := len chunks;
     sm_num_documents := Z.of_nat (size documents);
     sm_created_at := now 1%nat;
     sm_documents := documents |}.

(** [PDFIngestionPipeline.save_index]: the file system it leaves, and
    whether it returned or raised. The directory is made first; the
    index, the metadata and the summary are then written in this order,
    the metadata with the first reading of the clock and the summary
    with the second. *)
Definition save_index (p : Pipeline) (fs : FileSystem) (index : Faiss.Index)
    (chunks : list DocumentChunk) (output_dir : string)
    : FileSystem * outcome unit :=
  let made := mkdir_parents disk output_dir ∪ dirs fs in
  if negb (mkdir_ok disk output_dir)
  then ({| dirs := made; files := files fs |}, Raise OSError)
  else
    let fs0 := {| dirs := {[output_dir]} ∪ made; files := files fs |} in
    match write_file fs0 (path_join output_dir "faiss_index.bin")
            (IndexFile index) with
    | (fs1, Ok _) =>
        match write_file fs1 (path_join output_dir "metadata.pkl")
                (MetadataFile (make_metadata p chunks)) with
        | (fs2, Ok _) =>
            write_file fs2 (path_join output_dir "index_summary.json")
              (SummaryFile (make_summary p chunks))
        | (fs2, r) => (fs2, r)
        end
    | (fs1, r) => (fs1, r)
    end.

(** The command-line arguments of [main]. *)
Record Args := {
  arg_data_dir : option (list (string * PdfContent));
  arg_output_dir : string;
  arg_embedding_model : option string;
  arg_chunk_size : Z;
  arg_chunk_overlap : Z
}.

(** The stages of [main] that come before [save_index]: the pipeline,
    the chunks and the index, or [Ok None] where [main] returns 1 because
    there are no chunks. *)
Definition prepare (fuel : nat) (args : Args)
    : outcome (option (Pipeline * list DocumentChunk * Faiss.Index)) :=
  p ← new_pipeline (arg_embedding_model args)
        {| chunk_size := arg_chunk_size args;
           chunk_overlap := arg_chunk_overlap args |};
  chunks ← process_pdfs fuel (config p) (arg_data_dir args);
  match chunks with
  | [] => Ok None
  | _ =>
      let embeddings := create_embeddings (model p) chunks in
      index ← build_faiss_index p embeddings;
      Ok (Some (p, chunks, index))
  end.

(** [main]: the exit status and the file system left behind; [None] when
    the fuel does not suffice. Every exception is caught and turned into
    status 1. *)
Definition main (fuel : nat) (args : Args) (fs : FileSystem)
    : option (Z * FileSystem) :=
  match prepare fuel args with
  | Diverge => None
  | Raise _ => Some (1, fs)
  | Ok None => Some (1, fs)
  | Ok (Some (p, chunks, index)) =>
      match save_index p fs index chunks (arg_output_dir args) with
      | (fs', Ok _) => Some (0, fs')
      | (fs', _) => Some (1, fs')
      end
  end.

End Pipeline.

End Ingest.

(** ** server.py *)

Module Server.

Import Py Ingest.

(** The two settings the retrieval path reads. *)
Record Settings := {
  embedding_model : string;
  index_path : string
}.

(** [class RetrievalRequest] *)
Record RetrievalRequest := {
  query : str;
  k : Z;
  lang_hint : option string;
  threshold : option Q
}.

(** The fields of a JSON request body, [None] where a field is absent. *)
Record RequestBody := {
  body_query : option str;
  body_k : option Z;
  body_lang_hint : option string;
  body_threshold : option Q
}.

(** The constraints of the [Field]s of [RetrievalRequest]: [query] is
    required with [min_length=1], [k] defaults to 5 with [ge=1, le=50],
    [threshold] is optional with [ge=0.0, le=1.0]. *)
Definition validate (b : RequestBody) : option RetrievalRequest :=
  match body_query b with
  | None => None
  | Some q =>
      let k := default 5 (body_k b) in
      let threshold_ok :=
        match body_threshold b with
        | None => true
        | Some t => Qle_bool 0 t && Qle_bool t 1
        end in
      if (1 <=? len q) && (1 <=? k) && (k <=? 50) && threshold_ok
      then Some {| query := q; k := k; lang_hint := body_lang_hint b;
                   threshold := body_threshold b |}
      else None
  end.

(** [class DocumentResult] *)
Record DocumentResult := {
  r_chunk_id : Z;
  r_filename : string;
  r_page_num : Z;
  r_text : str;
  r_excerpt : str;
  r_score : Q;
  r_char_start : Z;
  r_char_end : Z
}.

(** [class RetrievalResponse], without the processing time. *)
Record RetrievalResponse := {
  rs_query : str;
  rs_results : list DocumentResult;
  rs_num_results : Z;
  rs_detected_language : option string
}.

(** [class ServerState], without the Whisper model and the start time. *)
Record ServerState := {
  st_index : option Faiss.Index;
  st_metadata : option Metadata;
  st_model : option Model;
  st_ready : bool
}.

(** [ServerState.__init__] *)
Definition initial_state : ServerState :=
  {| st_index := None; st_metadata := None; st_model := None;
     st_ready := false |}.

(** What a client gets: a result, a validation error, the 503 of a
    service that is not ready, the 500 of an exception in the handler,
    or nothing when the handler does not return. *)
Inductive Response :=
  | Http200 (r : RetrievalResponse)
  | Http422
  | Http503
  | Http500 (e : exn)
  | NoResponse.

(** The calls a request makes to the model and to the index. *)
Inductive Call :=
  | CallEncode (q : str)
  | CallSearch (k : Z).

(** [xs[i]] on a Python list. *)
Definition py_index {A} (xs : list A) (i : Z) : option A :=
  let j := if i <? 0 then i + len xs else i in
  if (0 <=? j) && (j <? len xs) then xs !! Z.to_nat j else None.

(** [score < threshold] when a threshold is given. *)
Definition below (score : Q) (threshold : option Q) : bool :=
  match threshold with
  | None => false
  | Some t => match (score ?= t)%Q with Lt => true | _ => false end
  end.

Definition make_result (chunk_data : DocumentChunk) (score : Q)
    : DocumentResult :=
  {| r_chunk_id := chunk_id chunk_data;
     r_filename := filename chunk_data;
     r_page_num := page_num chunk_data;
     r_text := text chunk_data;
     r_excerpt := excerpt chunk_data;
     r_score := score;
     r_char_start := char_start chunk_data;
     r_char_end := char_end chunk_data |}.

(** [state.metadata['chunks'][chunk_idx]] *)
Definition chunk_at (metadata : option Metadata) (chunk_idx : Z)
    : outcome DocumentChunk :=
  match metadata with
  | None => Raise TypeError
  | Some md =>
      match py_index (md_chunks md) chunk_idx with
      | Some chunk_data => Ok chunk_data
      | None => Raise IndexError
      end
  end.

(** The loop [for idx, (distance, chunk_idx) in enumerate(zip(...))] of
    [retrieve], on the running [results]. *)
Fixpoint build_results (metadata : option Metadata) (threshold : option Q)
    (hits : list Faiss.hit) (results : list DocumentResult)
    : outcome (list DocumentResult) :=
  match hits with
  | [] => Ok results
  | (distance, chunk_idx) :: rest =>
      if chunk_idx =? -1 then build_results metadata threshold rest results
      else
        match chunk_at metadata chunk_idx with
        | Raise e => Raise e
        | Diverge => Diverge
        | Ok chunk_data =>
            let score := distance in
            if below score threshold
            then build_results metadata threshold rest results
            else build_results metadata threshold rest
                   (results ++ [make_result chunk_data score])
        end
  end.

Section Service.

(** [faiss.normalize_L2] on one row. *)
Variable normalize_L2 : list Q -> list Q.

(** [SentenceTransformer(name)] *)
Variable hub : string -> option Model.

(** [langdetect.detect], [None] where it is not installed or fails. *)
Variable detect : str -> option string.

(** [state.index.search] *)
Variable search : Faiss.Index -> list Q -> Z -> outcome (list Faiss.hit).

Variable settings : Settings.

(** [load_embedding_model] *)
Definition load_embedding_model (st : ServerState)
    : ServerState * outcome unit :=
  match hub (embedding_model settings) with
  | Some m =>
      ({| st_index := st_index st; st_metadata := st_metadata st;
          st_model := Some m; st_ready := st_ready st |}, Ok ())
  | None => (st, Raise OSError)
  end.

(** [load_index_and_metadata]. The value returned tells whether the
    warning about the embedding model was printed. A file that does not
    hold what its name promises makes the reader raise. *)
Definition load_index_and_metadata (fs : FileSystem) (st : ServerState)
    : ServerState * outcome bool :=
  let index_dir := index_path settings in
  if negb (bool_decide (index_dir ∈ dirs fs)) then (st, Raise RuntimeError)
  else
    match files fs !! path_join index_dir "faiss_index.bin" with
    | None => (st, Raise RuntimeError)
    | Some (IndexFile idx) =>
        let st1 :=
          {| st_index := Some idx; st_metadata := st_metadata st;
             st_model := st_model st; st_ready := st_ready st |} in
        match files fs !! path_join index_dir "metadata.pkl" with
        | None => (st1, Raise RuntimeError)
        | Some (MetadataFile md) =>
            let st2 :=
              {| st_index := st_index st1; st_metadata := Some md;
                 st_model := st_model st1; st_ready := st_ready st1 |} in
            let stored_model := md_embedding_model md in
            (st2, Ok (negb (bool_decide (stored_model = ""))
                      && negb (bool_decide
                                 (stored_model = embedding_model settings))))
        | Some _ => (st1, Raise RuntimeError)
        end
    | Some _ => (st, Raise RuntimeError)
    end.

(** [startup_event]: the state it leaves and whether it returned.
    [load_whisper_model] catches its own failures and touches none of
    the fields kept here. *)
Definition startup_event (fs : FileSystem) (st : ServerState)
    : ServerState * outcome unit :=
  match load_embedding_model st with
  | (st1, Ok _) =>
      match load_index_and_metadata fs st1 with
      | (st2, Ok _) =>
          ({| st_index := st_index st2; st_metadata := st_metadata st2;
              st_model := st_model st2; st_ready := true |}, Ok ())
      | (st2, Raise e) => (st2, Raise e)
      | (st2, Diverge) => (st2, Diverge)
      end
  | (st1, r) => (st1, r)
  end.

(** The handler [retrieve], after validation: the calls made to the
    model and to the index, and the response. *)
Definition retrieve (st : ServerState) (request : RetrievalRequest)
    : list Call * Response :=
  if negb (st_ready st) then ([], Http503)
  else
    let detected_lang := detect (query request) in
    match st_model st with
    | None => ([], Http500 AttributeError)
    | Some m =>
        let query_embedding := normalize_L2 (encode m (query request)) in
        match st_index st with
        | None => ([CallEncode (query request)], Http500 AttributeError)
        | Some index =>
            let calls :=
              [CallEncode (query request); CallSearch (k request)] in
            match search index query_embedding (k request) with
            | Raise e => (calls, Http500 e)
            | Diverge => (calls, NoResponse)
            | Ok hits =>
                match build_results (st_metadata st) (threshold request)
                        hits [] with
                | Ok results =>
                    (calls,
                     Http200 {| rs_query := query request;
                                rs_results := results;
                                rs_num_results := len results;
                                rs_detected_language := detected_lang |})
                | Raise e => (calls, Http500 e)
                | Diverge => (calls, NoResponse)
                end
            end
        end
    end.

(** [POST /retrieve]: the body is validated against [RetrievalRequest]
    before the handler runs. *)
Definition post_retrieve (st : ServerState) (b : RequestBody)
    : list Call * Response :=
  match validate b with
  | None => ([], Http422)
  | Some request => retrieve st request
  end.

End Service.

End Server.

(** ** server.py: the status endpoints *)

Module Status.

Import Py Ingest Server.

(** [class StatusResponse], without the uptime. *)
Record StatusResponse := {
  s_status : string;
  s_service : string;
  s_version : string;
  s_embedding_model : string;
  s_index_loaded : bool;
  s_num_chunks : Z;
  s_whisper_available : bool;
  s_langdetect_available : bool
}.

Section Endpoints.

Variable settings : Settings.

(** The flags the optional imports set. *)
Variables WHISPER_AVAILABLE LANGDETECT_AVAILABLE : bool.

(** [root] *)
Definition root (st : ServerState) : list (string * string) :=
  [ ("service", "Shankh.ai RAG Service");
    ("status", if st_ready st then "running" else "initializing");
    ("docs", "/docs") ].

(** [get_status]; [whisper_loaded] tells whether [state.whisper_model]
    is not [None]. *)
Definition get_status (st : ServerState) (whisper_loaded : bool)
    : StatusResponse :=
  {| s_status := if st_ready st then "ready" else "initializing";
     s_service := "RAG Retrieval Service";
     s_version := "1.0.0";
     s_embedding_model := embedding_model settings;
     s_index_loaded := bool_decide (is_Some (st_index st));
     s_num_chunks := match st_metadata st with
                     | Some md => len (md_chunks md)
                     | None => 0
                     end;
     s_whisper_available := WHISPER_AVAILABLE && whisper_loaded;
     s_langdetect_available := LANGDETECT_AVAILABLE |}.

(** [health] *)
Definition health (st : ServerState) : string * bool :=
  ("healthy", st_ready st).

End Endpoints.

End Status.

(** ** server.py: the transcription endpoint *)

Module Speech.

Import Py.

(** A segment of a Whisper result; a field is [None] where the key is
    absent. *)
Record Segment := {
  seg_start : option Q;
  seg_end : option Q;
  seg_text : option str;
  seg_no_speech_prob : option Q
}.

(** The dictionary [transcribe] returns; a field is [None] where the key
    is absent. The values are of the types Whisper gives them. *)
Record WhisperResult := {
  res_text : option str;
  res_language : option string;
  res_segments : option (list Segment)
}.

(** A loaded Whisper model: what [transcribe] makes of an audio file with
    these bytes, [None] where it raises. *)
Definition Whisper := list Byte.byte -> option WhisperResult.

(** [class TranscriptionResponse]; a segment is given with its start,
    its end and its text. *)
Record TranscriptionResponse := {
  tr_text : str;
  tr_language : string;
  tr_confidence : option Q;
  tr_segments : list (Q * Q * str)
}.

(** What a client of [/transcribe] gets. *)
Inductive Response :=
  | Http200 (r : TranscriptionResponse)
  | Http501
  | Http500.

(** [sum(xs)] *)
Definition sum (xs : list Q) : Q := fold_left Qplus xs 0%Q.

(** The paths of the files of the temporary directory. *)
Definition TempDir := gset string.

(** What happens to one upload outside the code of the endpoint:
    [temp_path] is the name [NamedTemporaryFile] picks, [None] where it
    raises and makes no file; [content] is what [audio.read()] returns,
    [None] where it raises; [stored] says that the write and the close
    of the file succeed, [unlinked] that [os.unlink] does. *)
Record Upload := {
  temp_path : option string;
  content : option (list Byte.byte);
  stored : bool;
  unlinked : bool
}.

(** The dictionary of a segment in the response: [seg['start']],
    [seg['end']] and [seg['text'].strip()], [None] where a key is absent
    and the subscript raises [KeyError]. *)
Definition segment_entry (seg : Segment) : option (Q * Q * str) :=
  match seg_start seg, seg_end seg, seg_text seg with
  | Some s, Some e, Some t => Some (s, e, strip t)
  | _, _, _ => None
  end.

(** The lines from [segments = result.get('segments', [])] to the
    construction of the [TranscriptionResponse]; [None] where a
    subscript raises. *)
Definition response_of (result : WhisperResult)
    : option TranscriptionResponse :=
  let segments := default [] (res_segments result) in
  let avg_confidence :=
    match segments with
    | [] => None
    | _ =>
        let confidences :=
          map (fun seg => default 0%Q (seg_no_speech_prob seg)) segments in
        Some (1 - sum confidences / inject_Z (len confidences))%Q
    end in
  match res_text result, mapM segment_entry segments with
  | Some text, Some entries =>
      Some {| tr_text := strip text;
              tr_language := default "unknown" (res_language result);
              tr_confidence := avg_confidence;
              tr_segments := entries |}
  | _, _ => None
  end.

Section Transcribe.

Variable WHISPER_AVAILABLE : bool.

(** [transcribe_audio]: the temporary directory it leaves and the
    response. The check for the model stands before the [try]; every
    exception inside the [try] is answered with 500. The temporary file
    is made with [delete=False], so it stays when the [with] block is
    left by an exception, and it is removed by [os.unlink] only. *)
Definition transcribe_audio (whisper_model : option Whisper) (up : Upload)
    (tmp : TempDir) : TempDir * Response :=
  match WHISPER_AVAILABLE, whisper_model with
  | true, Some model =>
      match temp_path up with
      | None => (tmp, Http500)
      | Some path =>
          let tmp := {[path]} ∪ tmp in
          match content up with
          | None => (tmp, Http500)
          | Some bytes =>
              if negb (stored up) then (tmp, Http500)
              else
                match model bytes with
                | None => (tmp, Http500)
                | Some result =>
                    if negb (unlinked up) then (tmp, Http500)
                    else
                      let tmp := tmp ∖ {[path]} in
                      match response_of result with
                      | None => (tmp, Http500)
                      | Some r => (tmp, Http200 r)
                      end
                end
          end
      end
  | _, _ => (tmp, Http501)
  end.

End Transcribe.

End Speech.

(** ** stock_service.py *)

Module Stock.

Import Py.

(** A value of the [info] dictionary of a ticker: [None], a number or a
    string. *)
Inductive Value :=
  | VNone
  | VNum (q : Q)
  | VStr (s : str).

(** The truth value of a value. *)
Definition truthy (v : Value) : bool :=
  match v with
  | VNone => false
  | VNum q => negb (Qeq_bool q 0)
  | VStr s => negb (bool_decide (s = []))
  end.

(** [a or b] *)
Definition py_or (a b : Value) : Value := if truthy a then a else b.

Definition Info := gmap string Value.

(** [info.get(key)] and [info.get(key, default)] *)
Definition get (info : Info) (key : string) : Value :=
  default VNone (info !! key).

Definition get_default (info : Info) (key : string) (d : Value) : Value :=
  default d (info !! key).

(** [StockPriceService.INDIAN_INDICES] *)
Definition INDIAN_INDICES : list (str * str) :=
  [ (of_string "nifty", of_string "^NSEI");
    (of_string "sensex", of_string "^BSESN");
    (of_string "banknifty", of_string "^NSEBANK") ].

(** [d[key]] for [key in d], on a dictionary given by its items. *)
Fixpoint lookup_item (key : str) (items : list (str * str)) : option str :=
  match items with
  | [] => None
  | (k, v) :: rest =>
      if bool_decide (k = key) then Some v else lookup_item key rest
  end.

(** [s.endswith(suffix)] *)
Definition endswith (s suffix : str) : bool :=
  bool_decide (drop (length s - length suffix) s = suffix)
  && (length suffix <=? length s)%nat.

(** The dictionary [get_stock_price] returns. *)
Record StockData := {
  sd_symbol : str;
  sd_normalized_symbol : str;
  sd_current_price : Q;
  sd_currency : Value;
  sd_company_name : Value;
  sd_previous_close : Value;
  sd_open : Value;
  sd_day_high : Value;
  sd_day_low : Value;
  sd_volume : Value;
  sd_market_cap : Value;
  sd_pe_ratio : Value;
  sd_change : option Q;
  sd_change_percent : option Q;
  sd_timestamp : string
}.

(** [self.cache]: the data and the time of its entry, by normalised
    symbol. Times are in microseconds. *)
Definition Cache := gmap str (StockData * Z).

(** [self.cache_duration], five minutes. *)
Definition cache_duration : Z := 5 * 60 * 1000000.

(** What a call of [get_stock_price] meets outside: the three readings
    of [datetime.now()], in the order of the source, and the [info] of
    the ticker of a symbol, [None] where the access raises. *)
Record World := {
  at_check : Z;
  at_stamp : Z;
  at_store : Z;
  ticker_info : str -> option Info
}.

Section Service.

(** [str.upper] and [str.lower] *)
Variables upper lower : str -> str.

(** [round(x, 2)] *)
Variable round2 : Q -> Q.

(** [datetime.isoformat] *)
Variable isoformat : Z -> string.

(** [StockPriceService.normalize_symbol] *)
Definition normalize_symbol (symbol : str) : str :=
  let symbol := strip (upper symbol) in
  match lookup_item (lower symbol) INDIAN_INDICES with
  | Some ticker => ticker
  | None =>
      if endswith symbol (of_string ".NS") || endswith symbol (of_string ".BO")
      then symbol
      else symbol ++ of_string ".NS"
  end.

(** The lines that compute [change] and [change_percent]: [None] where
    the subtraction raises. *)
Definition with_change (data : StockData) : option StockData :=
  if truthy (sd_previous_close data)
     && negb (Qeq_bool (sd_current_price data) 0)
  then
    match sd_previous_close data with
    | VNum previous_close =>
        let change := (sd_current_price data - previous_close)%Q in
        let change_percent := ((change / previous_close) * 100)%Q in
        Some {| sd_symbol := sd_symbol data;
                sd_normalized_symbol := sd_normalized_symbol data;
                sd_current_price := sd_current_price data;
                sd_currency := sd_currency data;
                sd_company_name := sd_company_name data;
                sd_previous_close := sd_previous_close data;
                sd_open := sd_open data;
                sd_day_high := sd_day_high data;
                sd_day_low := sd_day_low data;
                sd_volume := sd_volume data;
                sd_market_cap := sd_market_cap data;
                sd_pe_ratio := sd_pe_ratio data;
                sd_change := Some (round2 change);
                sd_change_percent := Some (round2 change_percent);
                sd_timestamp := sd_timestamp data |}
    | _ => None
    end
  else Some data.

(** [StockPriceService.get_stock_price]: the cache it leaves, the value
    returned and the symbols whose ticker was asked for its [info].
    Every exception ends the call with [None]. *)
Definition get_stock_price (cache : Cache) (w : World) (symbol : str)
    : Cache * option StockData * list str :=
  let normalized_symbol := normalize_symbol symbol in
  let cache_key := normalized_symbol in
  let cached :=
    match cache !! cache_key with
    | Some (cached_data, cached_time) =>
        if at_check w - cached_time <? cache_duration
        then Some cached_data else None
    | None => None
    end in
  match cached with
  | Some cached_data => (cache, Some cached_data, [])
  | None =>
      match ticker_info w normalized_symbol with
      | None => (cache, None, [normalized_symbol])
      | Some info =>
          let current_price :=
            py_or (py_or (get info "currentPrice")
                         (get info "regularMarketPrice"))
                  (get info "previousClose") in
          if negb (truthy current_price)
          then (cache, None, [normalized_symbol])
          else
            match current_price with
            | VNum price =>
                let data :=
                  {| sd_symbol := symbol;
                     sd_normalized_symbol := normalized_symbol;
                     sd_current_price := round2 price;
                     sd_currency :=
                       get_default info "currency" (VStr (of_string "INR"));
                     sd_company_name :=
                       get_default info "longName"
                         (get_default info "shortName" (VStr symbol));
                     sd_previous_close := get info "previousClose";
                     sd_open := get info "open";
                     sd_day_high := get info "dayHigh";
                     sd_day_low := get info "dayLow";
                     sd_volume := get info "volume";
                     sd_market_cap := get info "marketCap";
                     sd_pe_ratio := get info "trailingPE";
                     sd_change := None;
                     sd_change_percent := None;
                     sd_timestamp := isoformat (at_stamp w) |} in
                match with_change data with
                | Some data =>
                    (<[cache_key := (data, at_store w)]> cache, Some data,
                     [normalized_symbol])
                | None => (cache, None, [normalized_symbol])
                end
            | _ => (cache, None, [normalized_symbol])
            end
      end
  end.

End Service.

End Stock.

(** ** The chunker: notions the properties are stated with *)

Module ChunkSpec.

Import Py Ingest.

(** A string that does not start with white space. *)
Definition headed (s : str) : Prop :=
  match s with
  | [] => True
  | c :: _ => is_space c = false
  end.

(** Some configured terminator occurs at position [p] of the text. *)
Definition term_at (t : str) (p : Z) : bool :=
  existsb (fun pat => matches_at pat t p) terminators.

(** Where the search for a terminator starts, for a window at [s]. *)
Definition search_start (cfg : Config) (s : Z) : Z :=
  Z.max s (s + chunk_size cfg - 100).

(** [p] is a terminator the search of the window at [s] can see. *)
Definition visible (cfg : Config) (t : str) (s p : Z) : Prop :=
  term_at t p = true /\ search_start cfg s <= p /\ p + 2 <= s + chunk_size cfg.

(** How the window at [s] is cut at [e]: it reaches the end of the
    text, or no terminator is visible after [s] (hard cut), or it ends
    just behind the first character of the last visible terminator. *)
Inductive cut (cfg : Config) (t : str) (s : Z) : Z -> Prop :=
  | cut_tail :
      len t <= s + chunk_size cfg -> cut cfg t s (s + chunk_size cfg)
  | cut_hard :
      s + chunk_size cfg < len t ->
      (forall p, visible cfg t s p -> p <= s) ->
      cut cfg t s (s + chunk_size cfg)
  | cut_sentence p :
      s + chunk_size cfg < len t -> s < p -> visible cfg t s p ->
      (forall q, visible cfg t s q -> q <= p) ->
      cut cfg t s (p + 1).

(** The start of the window that follows the one at [s]. *)
Definition next_start (cfg : Config) (t : str) (s : Z) : Z :=
  window_end cfg t s - chunk_overlap cfg.

(** The window at [s] has enough content to be emitted. *)
Definition substantial (cfg : Config) (t : str) (s : Z) : Prop :=
  50 < len (strip (slice t s (window_end cfg t s))).

(** The span of a chunk is the window at its start. *)
Definition is_window (cfg : Config) (t : str) (c : DocumentChunk) : Prop :=
  char_end c = window_end cfg t (char_start c)
  /\ substantial cfg t (char_start c).

(** The starts the loop can reach: inside the text, or less than an
    overlap before a text longer than a chunk. *)
Definition reachable (cfg : Config) (t : str) (s : Z) : Prop :=
  0 <= s \/ (- chunk_overlap cfg <= s /\ chunk_size cfg < len t).

Section Kinds.
Variables (cfg : Config) (t : str).

#[local] Abbreviation C := (chunk_size cfg).
#[local] Abbreviation O := (chunk_overlap cfg).
#[local] Abbreviation L := (len t).
#[local] Abbreviation E := (window_end cfg t).
#[local] Abbreviation next := (next_start cfg t).

(** The kinds of start the loop goes through, with bounds [bs] and [be]
    on the starts and ends of the chunks emitted before.
    - [steady]: from here on the starts never decrease;
    - [early]: the first window, or the window the loop comes back to
      after the start went to -1;
    - [before]: the start lies before the text, which happens only when
      the first window ends less than an overlap behind 0. *)
Definition steady (s bs be : Z) : Prop :=
  0 <= s /\ s <= next s /\ bs <= s /\ be <= E s.

Definition early (s bs be : Z) : Prop :=
  0 <= s <= C - 1 - O /\ bs <= s /\ be <= E 0
  /\ (s <= next s \/ (next s = next 0 /\ next 0 < 0)).

Definition before (s bs be : Z) : Prop :=
  s < 0 /\ C < L /\ next 0 < 0 /\ bs <= C - 1 - O /\ be <= E 0
  /\ (s = next 0 \/ (s = - O /\ 2 <= O /\ C - O < 100)).

Definition kind (s bs be : Z) : Prop :=
  steady s bs be \/ early s bs be \/ before s bs be.

End Kinds.

(** One span lies no later than another: neither its start nor its end. *)
Definition span_le (c1 c2 : DocumentChunk) : Prop :=
  char_start c1 <= char_start c2 /\ char_end c1 <= char_end c2.

(** The spans of the chunks do not go back, in the order of the list. *)
Definition monotone (chunks : list DocumentChunk) : Prop :=
  StronglySorted span_le chunks.

Definition bounded (bs be : Z) (chunks : list DocumentChunk) : Prop :=
  Forall (fun c => char_start c <= bs /\ char_end c <= be) chunks.

(** What holds of the span and the text of every chunk cut from [t]. *)
Definition well_spanned (cfg : Config) (t : str) (c : DocumentChunk) : Prop :=
  0 <= char_start c < char_end c
  /\ char_start c < len t
  /\ char_end c <= char_start c + chunk_size cfg
  /\ (char_end c <= len t \/ char_end c = char_start c + chunk_size cfg)
  /\ is_window cfg t c
  /\ text c = strip (slice t (char_start c) (char_end c)).

(** The chunk ids count up from [offset]. *)
Fixpoint counts_from (offset : Z) (chunks : list DocumentChunk) : Prop :=
  match chunks with
  | [] => True
  | c :: rest => chunk_id c = offset /\ counts_from (offset + 1) rest
  end.

(** The starts the loop arrives at, beginning from [s0]: [s0] itself,
    and whatever is arrived at from the next start when the window at
    [s0] is cut and the loop is not left. *)
Inductive visits_from (cfg : Config) (t : str) (s0 : Z) : Z -> Prop :=
  | visits_here : visits_from cfg t s0 s0
  | visits_later s :
      s0 < len t ->
      next_start cfg t s0 < len t - chunk_overlap cfg ->
      visits_from cfg t (next_start cfg t s0) s ->
      visits_from cfg t s0 s.

(** The starts of the windows [chunk_text] cuts. *)
Definition visits (cfg : Config) (t : str) (s : Z) : Prop :=
  visits_from cfg t 0 s /\ s < len t.

(** Position [i] of the text lies in the window at [s]. *)
Definition in_window (cfg : Config) (t : str) (s i : Z) : Prop :=
  0 <= s <= i /\ i < window_end cfg t s.

(** The chunks emitted by the first [fuel] rounds of the loop. *)
Definition emitted (fuel : nat) (cfg : Config) (t : str) (fname : string)
    (page offset : Z) : list DocumentChunk :=
  ls_chunks (chunk_loop fuel cfg t fname page (init_state offset)).2.

End ChunkSpec.

(** ** The pipeline: notions the properties are stated with *)

Module IngestSpec.

Import Py Ingest.

(** The chunk at position [i] has the id [i]. *)
Definition dense_ids (chunks : list DocumentChunk) : Prop :=
  forall i c, chunks !! i = Some c -> chunk_id c = Z.of_nat i.

Definition index_file (dir : string) : string := path_join dir "faiss_index.bin".
Definition metadata_file (dir : string) : string := path_join dir "metadata.pkl".
Definition summary_file (dir : string) : string :=
  path_join dir "index_summary.json".

(** The files after a write to [path] that failed: as they were when
    the path could not be opened, and with a truncated file at [path]
    when the write broke off. *)
Definition failed_at (path : string) (torn : bool) (fls : gmap string File)
    : gmap string File :=
  if torn then <[path := Truncated]> fls else fls.

(** How the write that failed ended. *)
Definition ended (torn : bool) : WriteEnd := if torn then Torn else Refused.

(** The directories after [mkdir] has gone through. *)
Definition dirs_made (disk : Disk) (fs : FileSystem) (dir : string)
    : gset string :=
  {[dir]} ∪ (mkdir_parents disk dir ∪ dirs fs).

(** What a run of [save_index] that raises leaves: [mkdir] raised, and
    no file is touched; or the directory is there and the write of the
    index, of the metadata or of the summary failed, with the files
    before it written and the files behind it untouched. *)
Inductive partly_saved (disk : Disk) (fs : FileSystem) (dir : string)
    (idx : Faiss.Index) (md : Metadata) (fs' : FileSystem) : Prop :=
  | saved_nothing :
      mkdir_ok disk dir = false ->
      fs' = {| dirs := mkdir_parents disk dir ∪ dirs fs; files := files fs |} ->
      partly_saved disk fs dir idx md fs'
  | index_failed torn :
      mkdir_ok disk dir = true ->
      write_end disk (index_file dir) = ended torn ->
      fs' = {| dirs := dirs_made disk fs dir;
               files := failed_at (index_file dir) torn (files fs) |} ->
      partly_saved disk fs dir idx md fs'
  | metadata_failed torn :
      mkdir_ok disk dir = true ->
      write_end disk (index_file dir) = Written ->
      write_end disk (metadata_file dir) = ended torn ->
      fs' = {| dirs := dirs_made disk fs dir;
               files := failed_at (metadata_file dir) torn
                          (<[index_file dir := IndexFile idx]> (files fs)) |} ->
      partly_saved disk fs dir idx md fs'
  | summary_failed torn :
      mkdir_ok disk dir = true ->
      write_end disk (index_file dir) = Written ->
      write_end disk (metadata_file dir) = Written ->
      write_end disk (summary_file dir) = ended torn ->
      fs' = {| dirs := dirs_made disk fs dir;
               files := failed_at (summary_file dir) torn
                          (<[metadata_file dir := MetadataFile md]>
                             (<[index_file dir := IndexFile idx]> (files fs))) |} ->
      partly_saved disk fs dir idx md fs'.

End IngestSpec.

(** ** The service: notions the properties are stated with *)

Module ServiceSpec.

Import Py Ingest Server IngestSpec.

(** The entries whose score is at least [t], in their order. *)
Definition at_least (t : Q) (results : list DocumentResult)
    : list DocumentResult :=
  filter (fun r => Qle_bool t (r_score r)) results.

(** A response with its result list replaced by what [f] keeps of it. *)
Definition restrict (f : list DocumentResult -> list DocumentResult)
    (resp : Response) : Response :=
  match resp with
  | Http200 r =>
      Http200 {| rs_query := rs_query r;
                 rs_results := f (rs_results r);
                 rs_num_results := len (f (rs_results r));
                 rs_detected_language := rs_detected_language r |}
  | other => other
  end.

Definition outcome_map {A B} (f : A -> B) (o : outcome A) : outcome B :=
  match o with Ok a => Ok (f a) | Raise e => Raise e | Diverge => Diverge end.

Definition with_threshold (request : RetrievalRequest) (t : option Q)
    : RetrievalRequest :=
  {| query := query request; k := k request;
     lang_hint := lang_hint request; threshold := t |}.











(** A request body the interface accepts: a non-empty query, [k] from 1
    to 50 (5 when absent), and a threshold, when given, from 0 to 1. *)
Definition acceptable (b : RequestBody) : Prop :=
  (exists q, body_query b = Some q /\ q <> [])
  /\ 1 <= default 5 (body_k b) <= 50
  /\ (forall t, body_threshold b = Some t -> (0 <= t <= 1)%Q).

(** The index directory holds what [startup_event] loads. *)
Definition loadable (hub : string -> option Model) (settings : Settings)
    (fs : FileSystem) : Prop :=
  exists m idx md,
    hub (embedding_model settings) = Some m
    /\ index_path settings ∈ dirs fs
    /\ files fs !! index_file (index_path settings) = Some (IndexFile idx)
    /\ files fs !! metadata_file (index_path settings) = Some (MetadataFile md).


End ServiceSpec.

(** ** The chunks of a page and of a corpus: further notions *)

Module ContentSpec.

Import Py Ingest ChunkSpec.

(** A string without white space at either end. *)
Definition trimmed (s : str) : Prop := headed s /\ headed (rev s).

(** The chunk was cut from the text [t] of page [page] of [fname]: it
    names them, and its text is the trimmed slice of its span, of more
    than 50 characters. *)
Definition cut_from (t : str) (fname : string) (page : Z)
    (c : DocumentChunk) : Prop :=
  filename c = fname /\ page_num c = page
  /\ text c = strip (slice t (char_start c) (char_end c))
  /\ 50 < len (text c).

(** The excerpt is made of the text as [DocumentChunk.__init__] does. *)
Definition excerpted (c : DocumentChunk) : Prop :=
  excerpt c = if 100 <? len (text c)
              then slice (text c) 0 100 ++ of_string "..." else text c.

(** No terminator occurs in the text. *)
Definition no_terminator (t : str) : bool :=
  forallb (fun i => negb (term_at t (Z.of_nat i))) (seq 0 (length t)).

(** [c2] starts behind the start of [c1] and shares at most [o]
    characters with it. *)
Definition follows (o : Z) (c1 c2 : DocumentChunk) : Prop :=
  char_start c1 < char_start c2 /\ char_end c1 - o <= char_start c2.

(** The pages [process_pdfs] chunks, each with the name of its file, in
    the order in which they are chunked. *)
Definition corpus_pages (pdf_files : list (string * PdfContent))
    : list (string * Z * str) :=
  flat_map (fun f => map (fun p => (f.1, p.1, p.2))
                       (extract_text_from_pdf f.2)) pdf_files.

(** One round more than the longest page has characters. *)
Definition page_fuel (pdf_files : list (string * PdfContent)) : nat :=
  S (fold_right Nat.max 0%nat
       (map (fun p => length p.2) (corpus_pages pdf_files))).

(** The chunks of the document [f] among [chunks]. *)
Definition chunks_of (f : string) (chunks : list DocumentChunk)
    : list DocumentChunk :=
  filter (fun c => bool_decide (filename c = f)) chunks.

(** The chunk counts of the documents of a summary, added up. *)
Definition documents_total (docs : gmap string (Z * gset Z)) : Z :=
  map_fold (fun _ entry total => entry.1 + total) 0 docs.

End ContentSpec.

(** ** The answers of the service: further notions *)

Module AnswerSpec.

Import Py Ingest Server.

(** The label is one Python accepts as an index of the list. *)
Definition indexes (chunks : list DocumentChunk) (label : Z) : bool :=
  (- len chunks <=? label) && (label <? len chunks).

(** The result the loop of [retrieve] makes of one hit: none for a
    missing hit or a score below the threshold, and else the chunk the
    label indexes, with the score of the hit. *)
Definition hit_result (chunks : list DocumentChunk) (threshold : option Q)
    (h : Faiss.hit) : option DocumentResult :=
  if h.2 =? -1 then None
  else if below h.1 threshold then None
  else (fun c => make_result c h.1) <$> py_index chunks h.2.

End AnswerSpec.

(** ** The transcription: a notion its property is stated with *)

Module SpeechSpec.

Import Py Speech.

(** Every [no_speech_prob] given lies between 0 and 1. *)
Definition probabilities_ok (segments : list Segment) : bool :=
  forallb (fun seg => match seg_no_speech_prob seg with
                      | Some p => Qle_bool 0 p && Qle_bool p 1
                      | None => true
                      end) segments.

(** The result has the key [text], and each of its segments has the
    keys [start], [end] and [text]. *)
Definition well_formed (result : WhisperResult) : bool :=
  bool_decide (is_Some (res_text result))
  && forallb (fun seg => bool_decide (is_Some (segment_entry seg)))
       (default [] (res_segments result)).

(** An upload that is read, stored under [path] and removed without a
    failure. *)
Definition delivered (path : string) (bytes : list Byte.byte) : Upload :=
  {| temp_path := Some path; content := Some bytes;
     stored := true; unlinked := true |}.

(** The failures that leave the temporary file behind: of the read, of
    the write, of the model, of the removal. *)
Definition fails_with_file (model : Whisper) (up : Upload) : Prop :=
  content up = None
  \/ stored up = false
  \/ (exists bytes, content up = Some bytes /\ model bytes = None)
  \/ unlinked up = false.

End SpeechSpec.

(** ** Concrete inputs *)

Module Examples.

Import Py Ingest Server IngestSpec.

(** The default configuration of the command line. *)
Definition cfg_default : Config := {| chunk_size := 700; chunk_overlap := 100 |}.

(** A configuration whose overlap is half the chunk size. *)
Definition cfg_narrow : Config := {| chunk_size := 10; chunk_overlap := 5 |}.

Definition cfg_30_5 : Config := {| chunk_size := 30; chunk_overlap := 5 |}.

(** Sixty letters. *)
Definition sixty : str := replicate 60 97%N.

Definition short_page : str := of_string "Short page.".

Definition three_sentences : str :=
  of_string "This is sentence one. This is sentence two. This is sentence three.".

(** A short sentence followed by a long word. *)
Definition stuck_text : str :=
  of_string "abcd. xxxxxxxxxxxxxxxxxxxxxxxxxxxxxx".

Definition cfg_100_40 : Config := {| chunk_size := 100; chunk_overlap := 40 |}.

(** A sentence of 38 letters, then 160 letters without a terminator. *)
Definition early_stop : str :=
  replicate 38 97%N ++ of_string ". " ++ replicate 160 98%N.

(** A model of dimension 3: a text is sent to the first, second or
    third unit vector as it begins with a, with b, or otherwise. *)
Definition toy_model : Model :=
  {| model_name := "toy"; embedding_dim := 3;
     encode := fun s => match s with
                        | 97%N :: _ => [1%Q; 0%Q; 0%Q]
                        | 98%N :: _ => [0%Q; 1%Q; 0%Q]
                        | _ => [0%Q; 0%Q; 1%Q]
                        end |}.

(** A model of dimension 2. *)
Definition small_model : Model :=
  {| model_name := "small"; embedding_dim := 2;
     encode := fun _ => [1%Q; 0%Q] |}.

Definition toy_hub (name : string) : option Model :=
  if bool_decide (name = "toy") then Some toy_model
  else if bool_decide (name = "small") then Some small_model
  else None.

(** The rows of the examples have norm 1 already. *)
Definition keep_row (x : list Q) : list Q := x.

Definition sixty_b : str := replicate 60 98%N.
Definition sixty_c : str := replicate 60 99%N.

(** One document of three pages. *)
Definition toy_args : Args :=
  {| arg_data_dir := Some [("a.pdf", Pages [sixty; sixty_b; sixty_c])];
     arg_output_dir := "./index";
     arg_embedding_model := Some "toy";
     arg_chunk_size := 700;
     arg_chunk_overlap := 100 |}.

Definition empty_fs : FileSystem := {| dirs := ∅; files := ∅ |}.

(** A disk on which every directory can be made, with no parent
    missing, and every write goes through. *)
Definition always : Disk :=
  {| mkdir_ok := fun _ => true;
     mkdir_parents := fun _ => ∅;
     write_end := fun _ => Written |}.

(** Every write goes through but the one of the metadata, whose file
    cannot be opened. *)
Definition metadata_fails : Disk :=
  {| mkdir_ok := fun _ => true;
     mkdir_parents := fun _ => ∅;
     write_end := fun path =>
       if bool_decide (path = "./index/metadata.pkl") then Refused
       else Written |}.

(** The write of the metadata breaks off after the file was opened. *)
Definition metadata_torn : Disk :=
  {| mkdir_ok := fun _ => true;
     mkdir_parents := fun _ => ∅;
     write_end := fun path =>
       if bool_decide (path = "./index/metadata.pkl") then Torn
       else Written |}.

(** A clock whose second reading is a second behind the first. *)
Definition today (n : nat) : string :=
  match n with
  | O => "2025-01-01T00:00:00"
  | _ => "2025-01-01T00:00:01"
  end.

(** An index directory built earlier, from another corpus. *)
Definition old_index : Faiss.Index :=
  {| Faiss.d := 3; Faiss.rows := [[0%Q; 0%Q; 1%Q]] |}.

Definition old_chunk : DocumentChunk :=
  new_chunk sixty_c "old.pdf" 1 0 0 700.

Definition old_metadata : Metadata :=
  {| md_chunks := [old_chunk]; md_embedding_model := "toy";
     md_embedding_dim := 3; md_chunk_size := 700; md_chunk_overlap := 100;
     md_created_at := "2024-01-01T00:00:00"; md_num_chunks := 1 |}.

Definition old_fs : FileSystem :=
  {| dirs := {["./index"]};
     files := {[ "./index/faiss_index.bin" := IndexFile old_index;
                 "./index/metadata.pkl" := MetadataFile old_metadata ]} |}.

(** The index directory after the ingestion of the three pages. *)
Definition built_fs : FileSystem :=
  match main keep_row toy_hub None today always 2 toy_args empty_fs with
  | Some (_, fs) => fs
  | None => empty_fs
  end.

Definition toy_settings : Settings :=
  {| embedding_model := "toy"; index_path := "./index" |}.

(** Settings that name the model of dimension 2. *)
Definition small_settings : Settings :=
  {| embedding_model := "small"; index_path := "./index" |}.

Definition no_detect (q : str) : option string := None.

(** The service after a start on the index of the three pages. *)
Definition ready_state : ServerState :=
  (startup_event toy_hub toy_settings built_fs initial_state).1.

(** The index and the metadata it has loaded. *)
Definition toy_index : Faiss.Index :=
  default old_index (st_index ready_state).

Definition toy_metadata : Metadata :=
  default old_metadata (st_metadata ready_state).

Definition query_b : RetrievalRequest :=
  {| query := of_string "b"; k := 3; lang_hint := None; threshold := None |}.

(** A body that asks for 51 results. *)
Definition body_51 : RequestBody :=
  {| body_query := Some (of_string "b"); body_k := Some 51;
     body_lang_hint := None; body_threshold := None |}.

End Examples.

(** ** Further inputs *)

Module Scenarios.

Import Py Ingest Server Examples.

(** Eight hundred letters: two windows of the default configuration. *)
Definition long_page : str := replicate 800 97%N.

(** The index directory after a run over [old_fs] whose metadata could
    not be written: the new index of three rows beside the old metadata
    of one chunk. *)
Definition mixed_fs : FileSystem :=
  match main keep_row toy_hub None today metadata_fails 2 toy_args old_fs with
  | Some (_, fs) => fs
  | None => old_fs
  end.

(** The service after a start on that directory. *)
Definition mixed_state : ServerState :=
  (startup_event toy_hub toy_settings mixed_fs initial_state).1.

Definition mixed_index : Faiss.Index :=
  default old_index (st_index mixed_state).

(** The hits of the search for [query_b] among the three rows. *)
Definition hits_b : list Faiss.hit :=
  match Faiss.search toy_index (keep_row (encode toy_model (query query_b)))
          (k query_b) with
  | Ok hits => hits
  | _ => []
  end.

(** A transcription of two segments, the second without a
    [no_speech_prob]. *)
Definition two_segments : Speech.WhisperResult :=
  {| Speech.res_text := Some (of_string " hello world ");
     Speech.res_language := Some "en";
     Speech.res_segments :=
       Some [ {| Speech.seg_start := Some 0%Q; Speech.seg_end := Some 1%Q;
                 Speech.seg_text := Some (of_string " hello");
                 Speech.seg_no_speech_prob := Some (1 # 4) |};
              {| Speech.seg_start := Some 1%Q; Speech.seg_end := Some 2%Q;
                 Speech.seg_text := Some (of_string " world ");
                 Speech.seg_no_speech_prob := None |} ] |}.

(** A result without the key [text]. *)
Definition no_text : Speech.WhisperResult :=
  {| Speech.res_text := None; Speech.res_language := Some "en";
     Speech.res_segments := None |}.

(** A model that transcribes every file as [two_segments], one that
    raises, and one that returns [no_text]. *)
Definition whisper_up : Speech.Whisper := fun _ => Some two_segments.
Definition whisper_down : Speech.Whisper := fun _ => None.
Definition whisper_odd : Speech.Whisper := fun _ => Some no_text.

(** [str.upper] and [str.lower] on ASCII text. *)
Definition ascii_upper (s : str) : str :=
  map (fun c => if (97 <=? c) && (c <=? 122) then c - 32 else c)%N s.

Definition ascii_lower (s : str) : str :=
  map (fun c => if (65 <=? c) && (c <=? 90) then c + 32 else c)%N s.

(** A rounding to hundredths, halves upwards. *)
Definition round_cents (q : Q) : Q :=
  let x := (q * 100 + (1 # 2))%Q in
  ((Qnum x / Zpos (Qden x))%Z # 100)%Q.

(** A clock whose readings all print as the same day. *)
Definition iso_day (t : Z) : string := "2025-01-01T00:00:00".

Definition reliance_info : Stock.Info :=
  {[ "currentPrice" := Stock.VNum 2500;
     "previousClose" := Stock.VNum 2400;
     "longName" := Stock.VStr (of_string "Reliance Industries") ]}.

(** A market that knows one ticker, and one that cannot be reached. *)
Definition market (symbol : str) : option Stock.Info :=
  if bool_decide (symbol = of_string "RELIANCE.NS") then Some reliance_info
  else None.

Definition no_market (symbol : str) : option Stock.Info := None.

(** A first call, and a call a minute later with the market down. *)
Definition noon : Stock.World :=
  {| Stock.at_check := 0; Stock.at_stamp := 1; Stock.at_store := 2;
     Stock.ticker_info := market |}.

Definition minute_later : Stock.World :=
  {| Stock.at_check := 60000002; Stock.at_stamp := 60000003;
     Stock.at_store := 60000004; Stock.ticker_info := no_market |}.

End Scenarios.

(** ** Facts about the string operations *)

Module PyFacts.

Import Py ChunkSpec.

Lemma len_nonneg {A} (s : list A) : 0 <= len s.
Proof. unfold len. lia. Qed.

Lemma len_app {A} (s1 s2 : list A) : len (s1 ++ s2) = len s1 + len s2.
Proof. unfold len. rewrite length_app. lia. Qed.

Lemma adjust_range L i : 0 <= L -> 0 <= adjust L i <= L.
Proof. unfold adjust. destruct (i <? 0) eqn:E; lia. Qed.

Lemma slice_len {A} (s : list A) lo hi :
  len (slice s lo hi) = Z.max 0 (adjust (len s) hi - adjust (len s) lo).
Proof.
  unfold slice.
  pose proof (len_nonneg s) as HL.
  pose proof (adjust_range (len s) lo HL) as Ha.
  pose proof (adjust_range (len s) hi HL) as Hb.
  unfold len in *. rewrite length_take, length_drop. lia.
Qed.

Lemma lstrip_len s : len (lstrip s) <= len s.
Proof.
  induction s as [|c s IH]; simpl; [lia|].
  destruct (is_space c); unfold len in *; simpl; lia.
Qed.

Lemma strip_len s : len (strip s) <= len s.
Proof.
  unfold strip, rstrip.
  pose proof (lstrip_len (rev (lstrip s))) as H1.
  pose proof (lstrip_len s) as H2.
  unfold len in *. rewrite length_rev in *. lia.
Qed.

Lemma lstrip_idem s : lstrip (lstrip s) = lstrip s.
Proof.
  induction s as [|c s IH]; simpl; [reflexivity|].
  destruct (is_space c) eqn:E; [exact IH|]. simpl. now rewrite E.
Qed.

Lemma lstrip_headed s : headed (lstrip s).
Proof.
  induction s as [|c s IH]; simpl; [exact I|].
  destruct (is_space c) eqn:E; [exact IH|exact E].
Qed.

Lemma headed_lstrip s : headed s -> lstrip s = s.
Proof. destruct s as [|c s]; simpl; [reflexivity|]. now intros ->. Qed.

Lemma lstrip_suffix s : exists p, s = p ++ lstrip s.
Proof.
  induction s as [|c s [p IH]]; simpl; [now exists []|].
  destruct (is_space c); [|now exists []].
  exists (c :: p). simpl. now f_equal.
Qed.

Lemma headed_app_l s1 s2 : headed (s1 ++ s2) -> s1 <> [] -> headed s1.
Proof. destruct s1; simpl; [congruence|auto]. Qed.

Lemma strip_idem s : strip (strip s) = strip s.
Proof.
  unfold strip, rstrip.
  set (y := lstrip s). set (z := lstrip (rev y)).
  assert (Hz : headed (rev z)).
  { destruct (lstrip_suffix (rev y)) as [p Hp]. fold z in Hp.
    assert (Hy : y = rev z ++ rev p).
    { rewrite <- rev_app_distr, <- Hp. now rewrite rev_involutive. }
    destruct (rev z) as [|c r] eqn:Er; [exact I|].
    apply (headed_app_l _ (rev p)); [|discriminate].
    rewrite <- Hy. apply lstrip_headed. }
  rewrite (headed_lstrip _ Hz), rev_involutive.
  rewrite (headed_lstrip z); [reflexivity|apply lstrip_headed].
Qed.

(** [rfind_from] returns the largest match of its range, or -1. *)
Lemma rfind_from_found sub s a n :
  0 <= a ->
  rfind_from sub s a n = -1
  \/ (a <= rfind_from sub s a n < a + Z.of_nat n
      /\ matches_at sub s (rfind_from sub s a n) = true).
Proof.
  intros Ha. induction n as [|n IH]; simpl; [now left|].
  destruct (matches_at sub s (a + Z.of_nat n)) eqn:E.
  - right. split; [lia|exact E].
  - destruct IH as [IH|[IH1 IH2]]; [now left|]. right. split; [lia|exact IH2].
Qed.

Lemma rfind_from_max sub s a n i :
  a <= i < a + Z.of_nat n -> matches_at sub s i = true ->
  i <= rfind_from sub s a n.
Proof.
  induction n as [|n IH]; simpl; intros Hi Hm; [lia|].
  destruct (matches_at sub s (a + Z.of_nat n)) eqn:E.
  - lia.
  - destruct (Z.eq_dec i (a + Z.of_nat n)) as [->|Hne]; [congruence|].
    apply IH; [lia|exact Hm].
Qed.

Lemma adjust_start_nonneg L i : 0 <= adjust_start L i.
Proof. unfold adjust_start. destruct (i <? 0) eqn:E; lia. Qed.

(** [s.rfind(sub, lo, hi)] is -1 or an occurrence inside the adjusted
    bounds. *)
Lemma rfind_found s sub lo hi :
  rfind s sub lo hi = -1
  \/ (adjust_start (len s) lo <= rfind s sub lo hi
      /\ rfind s sub lo hi + len sub <= adjust_end (len s) hi
      /\ matches_at sub s (rfind s sub lo hi) = true).
Proof.
  unfold rfind.
  destruct (rfind_from_found sub s (adjust_start (len s) lo)
              (Z.to_nat (adjust_end (len s) hi - len sub
                         - adjust_start (len s) lo + 1))
              (adjust_start_nonneg _ _)) as [H|[H1 H2]]; [now left|].
  right. repeat split; try lia. exact H2.
Qed.

(** ... and no occurrence inside the bounds lies further right. *)
Lemma rfind_max s sub lo hi i :
  adjust_start (len s) lo <= i -> i + len sub <= adjust_end (len s) hi ->
  matches_at sub s i = true -> i <= rfind s sub lo hi.
Proof.
  intros H1 H2 Hm. unfold rfind. apply rfind_from_max; [lia|exact Hm].
Qed.

Lemma rfind_ge s sub lo hi : -1 <= rfind s sub lo hi.
Proof.
  destruct (rfind_found s sub lo hi) as [H|[H _]]; [lia|].
  pose proof (adjust_start_nonneg (len s) lo). lia.
Qed.

Lemma max_of_ge x xs : x <= max_of x xs.
Proof.
  unfold max_of. revert x. induction xs as [|y ys IH]; intros x; simpl; [lia|].
  specialize (IH (Z.max x y)). lia.
Qed.

Lemma max_of_in x xs : In (max_of x xs) (x :: xs).
Proof.
  unfold max_of. revert x. induction xs as [|y ys IH]; intros x; simpl.
  - now left.
  - destruct (IH (Z.max x y)) as [H|H].
    + destruct (Z.max_spec x y) as [[_ E]|[_ E]]; rewrite E in *.
      * right. left. exact H.
      * left. exact H.
    + right. right. exact H.
Qed.

Lemma max_of_upper x xs y : In y (x :: xs) -> y <= max_of x xs.
Proof.
  unfold max_of. revert x. induction xs as [|z zs IH]; intros x; simpl.
  - intros [->|[]]. lia.
  - intros [->|[->|H]].
    + pose proof (max_of_ge (Z.max y z) zs). unfold max_of in *. lia.
    + pose proof (max_of_ge (Z.max x y) zs). unfold max_of in *. lia.
    + apply IH. now right.
Qed.

End PyFacts.

(** ** The chunker *)

Module ChunkFacts.

Import Py Ingest PyFacts ChunkSpec Examples.

(** Turn the boolean comparisons among the hypotheses into propositions. *)
Ltac of_bool :=
  repeat match goal with
  | H : (_ <? _) = true |- _ => apply Z.ltb_lt in H
  | H : (_ <? _) = false |- _ => apply Z.ltb_ge in H
  | H : (_ <=? _) = true |- _ => apply Z.leb_le in H
  | H : (_ <=? _) = false |- _ => apply Z.leb_gt in H
  | H : (_ =? _) = true |- _ => apply Z.eqb_eq in H
  | H : (_ =? _) = false |- _ => apply Z.eqb_neq in H
  end.

(** *** The search for a terminator *)

Lemma sentence_end_in t lo hi :
  In (sentence_end t lo hi) (map (fun pat => rfind t pat lo hi) terminators).
Proof. unfold sentence_end. apply max_of_in. Qed.

Lemma sentence_end_upper t lo hi pat :
  In pat terminators -> rfind t pat lo hi <= sentence_end t lo hi.
Proof.
  intros H. unfold sentence_end. apply max_of_upper.
  change (In (rfind t pat lo hi) (map (fun pat => rfind t pat lo hi) terminators)).
  apply in_map_iff. eauto.
Qed.

Lemma terminators_len pat : In pat terminators -> len pat = 2.
Proof. simpl. intros [<-|[<-|[<-|[<-|[<-|[]]]]]]; reflexivity. Qed.

Lemma sentence_end_ge t lo hi : -1 <= sentence_end t lo hi.
Proof.
  destruct (proj1 (in_map_iff _ _ _) (sentence_end_in t lo hi)) as (pat & <- & _).
  apply rfind_ge.
Qed.

(** [max(sentence_ends)] is -1 or the position of a terminator inside
    the adjusted bounds. *)
Lemma sentence_end_found t lo hi :
  sentence_end t lo hi = -1
  \/ (adjust_start (len t) lo <= sentence_end t lo hi
      /\ sentence_end t lo hi + 2 <= adjust_end (len t) hi
      /\ term_at t (sentence_end t lo hi) = true).
Proof.
  destruct (proj1 (in_map_iff _ _ _) (sentence_end_in t lo hi)) as (pat & E & Hin).
  rewrite <- E.
  destruct (rfind_found t pat lo hi) as [H|(H1 & H2 & H3)]; [now left|right].
  rewrite (terminators_len _ Hin) in H2. repeat split; try assumption.
  unfold term_at. apply existsb_exists. eauto.
Qed.

(** No terminator inside the bounds lies to the right of it. *)
Lemma sentence_end_max t lo hi p :
  adjust_start (len t) lo <= p -> p + 2 <= adjust_end (len t) hi ->
  term_at t p = true -> p <= sentence_end t lo hi.
Proof.
  intros H1 H2 H3. apply existsb_exists in H3 as (pat & Hin & Hm).
  etransitivity; [|apply (sentence_end_upper _ _ _ _ Hin)].
  apply rfind_max; [assumption| |assumption].
  now rewrite (terminators_len _ Hin).
Qed.

(** *** Lists of chunks *)

Lemma monotone_snoc chunks c :
  monotone chunks -> Forall (fun c' => span_le c' c) chunks ->
  monotone (chunks ++ [c]).
Proof.
  unfold monotone. induction chunks as [|c0 chunks IH]; simpl; intros Hm Hb.
  - constructor; constructor.
  - inversion Hm; subst. inversion Hb; subst. constructor.
    + now apply IH.
    + apply Forall_app. split; [assumption|]. now constructor.
Qed.

Lemma bounded_weaken bs be bs' be' chunks :
  bs <= bs' -> be <= be' -> bounded bs be chunks -> bounded bs' be' chunks.
Proof.
  intros H1 H2. unfold bounded. apply Forall_impl. intros c. lia.
Qed.

Lemma counts_from_snoc offset chunks c :
  counts_from offset chunks -> chunk_id c = offset + len chunks ->
  counts_from offset (chunks ++ [c]).
Proof.
  revert offset. induction chunks as [|c0 chunks IH]; simpl; intros offset Hc Hid.
  - unfold len in Hid. simpl in Hid. split; [lia|exact I].
  - destruct Hc as [H1 H2]. split; [exact H1|]. apply IH; [exact H2|].
    unfold len in *. simpl length in Hid. lia.
Qed.

Lemma counts_from_app offset chunks1 chunks2 :
  counts_from offset chunks1 -> counts_from (offset + len chunks1) chunks2 ->
  counts_from offset (chunks1 ++ chunks2).
Proof.
  revert offset. induction chunks1 as [|c chunks1 IH]; simpl; intros offset H1 H2.
  - unfold len in H2. simpl in H2. now rewrite Z.add_0_r in H2.
  - destruct H1 as [Hc H1]. split; [exact Hc|]. apply IH; [exact H1|].
    unfold len in *. simpl length in H2.
    replace (offset + 1 + Z.of_nat (length chunks1))
      with (offset + Z.of_nat (S (length chunks1))) by lia. exact H2.
Qed.

Lemma counts_from_nth offset chunks i c :
  counts_from offset chunks -> chunks !! i = Some c ->
  chunk_id c = offset + Z.of_nat i.
Proof.
  revert offset i. induction chunks as [|c0 chunks IH]; intros offset i Hc Hi.
  - discriminate.
  - destruct Hc as [H1 H2]. destruct i as [|i]; simpl in Hi.
    + injection Hi as ->. lia.
    + rewrite (IH _ _ H2 Hi). lia.
Qed.

Lemma chunk_text_emitted fuel cfg t fname page offset chunks :
  chunk_text fuel cfg t fname page offset = Some chunks ->
  chunks = emitted fuel cfg t fname page offset
  /\ (chunk_loop fuel cfg t fname page (init_state offset)).1 = true.
Proof.
  unfold chunk_text, emitted.
  destruct (chunk_loop fuel cfg t fname page (init_state offset)) as [[|] st];
    [|discriminate].
  now intros [= <-].
Qed.

Lemma visits_from_trans cfg t s0 s1 s2 :
  visits_from cfg t s0 s1 -> visits_from cfg t s1 s2 -> visits_from cfg t s0 s2.
Proof.
  induction 1 as [|s0 s H1 H2 H3 IH]; [auto|].
  intros H. eapply visits_later; eauto.
Qed.

Lemma slice_inside {A} (s : list A) lo hi :
  0 <= lo <= hi -> hi <= len s ->
  slice s lo hi = take (Z.to_nat (hi - lo)) (drop (Z.to_nat lo) s).
Proof.
  intros H1 H2. unfold slice, adjust.
  destruct (lo <? 0) eqn:X; destruct (hi <? 0) eqn:Y; of_bool; try lia.
  now rewrite !Z.min_l by lia.
Qed.

Lemma term_at_pattern t p :
  0 <= p -> term_at t p = true ->
  p + 2 <= len t
  /\ exists pat, In pat terminators /\ len pat = 2
       /\ take 2 (drop (Z.to_nat p) t) = pat.
Proof.
  intros Hp H. apply existsb_exists in H as (pat & Hin & Hm).
  unfold matches_at in Hm. apply bool_decide_eq_true in Hm.
  pose proof (terminators_len _ Hin) as Hl.
  assert (Hl' : length pat = 2%nat) by (unfold len in Hl; lia).
  rewrite Hl' in Hm. split; [|eauto].
  apply (f_equal (@length _)) in Hm.
  rewrite length_take, length_drop, Hl' in Hm. unfold len. lia.
Qed.

Section Chunker.

Variables (cfg : Config) (t : str) (fname : string) (page offset : Z).
Hypothesis Hcfg : 0 <= chunk_overlap cfg < chunk_size cfg.

#[local] Abbreviation C := (chunk_size cfg).
#[local] Abbreviation O := (chunk_overlap cfg).
#[local] Abbreviation L := (len t).
#[local] Abbreviation E := (window_end cfg t).
#[local] Abbreviation next := (next_start cfg t).
#[local] Abbreviation body := (body cfg t fname page).
#[local] Abbreviation chunk_loop fuel := (chunk_loop fuel cfg t fname page).

(** *** The end of a window *)

Lemma window_end_tail s : L <= s + C -> E s = s + C.
Proof.
  intros H. unfold window_end. destruct (s + C <? L) eqn:X; [lia|reflexivity].
Qed.

(** A window whose search starts inside the text is cut as [cut] says. *)
Lemma window_end_cut s :
  0 <= search_start cfg s -> -1 <= s \/ (exists p, visible cfg t s p) ->
  cut cfg t s (E s).
Proof.
  intros Hlo Hs. unfold window_end.
  destruct (s + C <? L) eqn:X; [|apply cut_tail; lia].
  apply Z.ltb_lt in X. fold (search_start cfg s).
  assert (Ha : adjust_start L (search_start cfg s) = search_start cfg s).
  { unfold adjust_start. destruct (search_start cfg s <? 0) eqn:Y; lia. }
  assert (Hb : adjust_end L (s + C) = s + C).
  { unfold adjust_end, search_start in *.
    destruct (L <? s + C) eqn:Y; [lia|].
    destruct (s + C <? 0) eqn:Z; lia. }
  pose proof (sentence_end_found t (search_start cfg s) (s + C)) as Hf.
  pose proof (sentence_end_max t (search_start cfg s) (s + C)) as Hm.
  rewrite Ha, Hb in *.
  set (se := sentence_end t (search_start cfg s) (s + C)) in *.
  destruct (s <? se) eqn:Y.
  - apply Z.ltb_lt in Y.
    destruct Hf as [Hf|(H1 & H2 & H3)].
    + destruct Hs as [Hs|(p & P1 & P2 & P3)]; [lia|].
      specialize (Hm p P2 P3 P1). lia.
    + apply cut_sentence; try assumption; [now repeat split|].
      intros q (Q1 & Q2 & Q3). now apply Hm.
  - apply Z.ltb_ge in Y. apply cut_hard; [assumption|].
    intros p (P1 & P2 & P3). specialize (Hm p P2 P3 P1). lia.
Qed.

(** A window before the text whose search starts before the text finds
    no terminator: its end is 0, or the hard cut when it starts at -1. *)
Lemma window_end_before s :
  - O <= s -> search_start cfg s < 0 -> C <= L ->
  E s = if s <? -1 then 0 else s + C.
Proof.
  intros Hs Hlo X. unfold window_end. pose proof Hcfg.
  destruct (s + C <? L) eqn:X'; [|of_bool; unfold search_start in *; lia].
  fold (search_start cfg s).
  assert (Hse : sentence_end t (search_start cfg s) (s + C) = -1).
  { destruct (sentence_end_found t (search_start cfg s) (s + C))
      as [Hf|(H1 & H2 & _)]; [assumption|exfalso].
    unfold adjust_start, adjust_end, search_start in *.
    destruct (Z.max s (s + C - 100) <? 0) eqn:Y;
      destruct (L <? s + C) eqn:Y2;
      destruct (s + C <? 0) eqn:Y3; of_bool; lia. }
  rewrite Hse. destruct (s <? -1) eqn:Y; reflexivity.
Qed.

(** The end of a window lies behind its start. *)
Lemma window_end_gt s : s < E s.
Proof.
  unfold window_end. destruct (s + C <? L); [|lia].
  destruct (s <? sentence_end t _ _) eqn:Y; [apply Z.ltb_lt in Y|]; lia.
Qed.

Lemma window_end_nonneg s : - O <= s -> 0 <= E s.
Proof.
  intros Hs. unfold window_end. destruct (s + C <? L); [|lia].
  pose proof (sentence_end_ge t (Z.max s (s + C - 100)) (s + C)).
  destruct (s <? sentence_end t _ _); lia.
Qed.

(** The end of a window is monotone in its start, from 0 on. *)
Lemma window_end_mono s s' : 0 <= s <= s' -> E s <= E s'.
Proof.
  intros Hs. pose proof Hcfg.
  assert (H1 : cut cfg t s (E s)) by (apply window_end_cut; unfold search_start; lia).
  assert (H2 : cut cfg t s' (E s')) by (apply window_end_cut; unfold search_start; lia).
  destruct H1 as [X1|X1 N1|p X1 P1 V1 M1]; destruct H2 as [X2|X2 N2|q X2 P2 V2 M2];
    try lia.
  - (* hard cut at [s], sentence at [s'] *)
    destruct (Z_lt_le_dec (q + 2) (s + C + 1)) as [Hq|Hq]; [|lia].
    assert (Hv : visible cfg t s q).
    { destruct V2 as (? & ? & ?). unfold visible, search_start in *.
      repeat split; [assumption|lia|lia]. }
    specialize (N1 q Hv). lia.
  - destruct V1 as (? & ? & ?). lia.
  - destruct V1 as (? & ? & ?). lia.
  - (* sentence at [s], sentence at [s'] *)
    destruct (Z_lt_le_dec p (search_start cfg s')) as [Hp|Hp].
    + destruct V2 as (? & ? & ?). lia.
    + assert (Hv : visible cfg t s' p).
      { destruct V1 as (? & ? & ?). unfold visible, search_start in *.
        repeat split; [assumption|lia|lia]. }
      specialize (M2 p Hv). lia.
Qed.

(** *** The loop and its body *)

(** An invariant of the loop body holds of every state the loop reaches. *)
Lemma chunk_loop_invariant (I : LoopState -> Prop) :
  (forall st, I st -> ls_start st < L -> I (body st)) ->
  forall fuel st, I st -> I (chunk_loop fuel st).2.
Proof.
  intros Hstep fuel. induction fuel as [|fuel IH]; intros st HI; simpl; [exact HI|].
  destruct (ls_start st <? L) eqn:X; [|exact HI]. of_bool.
  destruct (L - O <=? ls_start (body st)); [|apply IH]; now apply Hstep.
Qed.

Lemma body_start st : ls_start (body st) = next_start cfg t (ls_start st).
Proof. unfold Ingest.body, next_start. now destruct (50 <? _). Qed.

Lemma body_chunks st :
  ls_chunks (body st) = ls_chunks st
  \/ (substantial cfg t (ls_start st)
      /\ exists c, ls_chunks (body st) = ls_chunks st ++ [c]
         /\ chunk_id c = ls_chunk_id st
         /\ char_start c = ls_start st
         /\ char_end c = E (ls_start st)
         /\ filename c = fname /\ page_num c = page
         /\ text c = strip (slice t (ls_start st) (E (ls_start st)))).
Proof.
  unfold Ingest.body, substantial.
  destruct (50 <? _) eqn:X; [right|now left]. of_bool. split; [exact X|].
  eexists. split; [reflexivity|]. simpl. repeat split. apply strip_idem.
Qed.

Lemma body_chunk_id st :
  ls_chunk_id (body st) - ls_chunk_id st
  = len (ls_chunks (body st)) - len (ls_chunks st).
Proof.
  unfold Ingest.body. destruct (50 <? _); simpl; [|lia].
  rewrite len_app. unfold len. simpl. lia.
Qed.

(** The starts the loop reaches are [reachable]. *)
Lemma reachable_next s : reachable cfg t s -> reachable cfg t (next_start cfg t s).
Proof.
  unfold reachable, next_start. intros [Hs|[Hs HL]].
  - pose proof (window_end_gt s).
    destruct (Z_lt_le_dec (E s - O) 0) as [Hn|Hn]; [right|left; lia].
    split; [lia|].
    destruct (Z_lt_le_dec (s + C) L) as [X|X]; [lia|].
    rewrite (window_end_tail s X) in Hn. lia.
  - pose proof (window_end_nonneg s Hs). right. split; [lia|exact HL].
Qed.

(** The window of a reachable start ends no later than a chunk size
    behind it. *)
Lemma window_end_le s : reachable cfg t s -> E s <= s + C.
Proof.
  intros Hr. unfold window_end. destruct (s + C <? L) eqn:X; [|lia]. of_bool.
  destruct (s <? sentence_end t _ _) eqn:Y; [|lia]. of_bool.
  destruct (sentence_end_found t (Z.max s (s + C - 100)) (s + C)) as [Hf|(_ & H2 & _)].
  - destruct Hr as [Hr|[Hr _]]; lia.
  - unfold adjust_end in H2. destruct (L <? s + C) eqn:Y2; of_bool; [lia|].
    destruct (s + C <? 0) eqn:Y3; of_bool; [|lia].
    destruct Hr as [Hr|[Hr _]]; lia.
Qed.

(** Only windows that start inside the text have content. *)
Lemma substantial_start s :
  reachable cfg t s -> substantial cfg t s -> 0 <= s < L /\ s < E s.
Proof.
  intros Hr Hsub. unfold substantial in Hsub.
  pose proof (strip_len (slice t s (E s))) as H1.
  rewrite slice_len in H1.
  pose proof (window_end_le s Hr) as H2.
  pose proof (window_end_gt s) as H3.
  pose proof (len_nonneg t) as H4.
  unfold adjust in H1.
  destruct (s <? 0) eqn:Y1; destruct (E s <? 0) eqn:Y2; of_bool; try lia;
    destruct Hr as [Hr|[Hr HL]]; try lia;
    pose proof (window_end_nonneg s Hr); lia.
Qed.

(** *** The starts the loop goes through *)

(** When the first window ends less than an overlap behind 0, it ends at
    a terminator. *)
Lemma first_window_short :
  next 0 < 0 ->
  C < L /\ exists p, E 0 = p + 1 /\ 0 < p /\ visible cfg t 0 p
     /\ (forall q, visible cfg t 0 q -> q <= p).
Proof.
  unfold next_start. intros Hn.
  assert (Hc : cut cfg t 0 (E 0))
    by (apply window_end_cut; unfold search_start; lia).
  inversion Hc as [X|X N|p X P V M]; try lia.
  split; [lia|]. exists p. auto.
Qed.

Lemma steady_step s bs be :
  steady cfg t s bs be -> steady cfg t (next s) s (E s).
Proof.
  unfold steady. intros (H1 & H2 & H3 & H4).
  assert (Hm : E s <= E (next s)) by (apply window_end_mono; lia).
  unfold next_start in *. repeat split; lia.
Qed.

Lemma early_step s bs be :
  early cfg t s bs be ->
  bs <= s /\ be <= E s
  /\ (steady cfg t (next s) s (E s) \/ before cfg t (next s) s (E s)).
Proof.
  unfold early. intros (H1 & H2 & H3 & H4).
  assert (Hm : E 0 <= E s) by (apply window_end_mono; lia).
  split; [lia|]. split; [lia|].
  destruct H4 as [H4|[H4 H5]].
  - left. unfold steady.
    assert (Hm' : E s <= E (next s)) by (apply window_end_mono; lia).
    unfold next_start in *. repeat split; lia.
  - right. unfold before.
    destruct (first_window_short H5) as (HL & _).
    unfold next_start in *. repeat split; lia.
Qed.

Lemma before_reachable s bs be :
  before cfg t s bs be -> reachable cfg t s.
Proof.
  unfold before, reachable, next_start.
  intros (H1 & H2 & H3 & H4 & H5 & H6). right.
  pose proof (window_end_gt 0).
  destruct H6 as [->|[-> _]]; lia.
Qed.

Lemma before_step s bs be :
  before cfg t s bs be ->
  before cfg t (next s) bs be \/ early cfg t (next s) bs be.
Proof.
  intros Hb. pose proof (before_reachable _ _ _ Hb) as Hr.
  destruct Hb as (H1 & H2 & H3 & H4 & H5 & H6).
  destruct (first_window_short H3) as (_ & p & Ep & Pp & Vp & Mp).
  assert (HCO : C - O < 99).
  { destruct Vp as (_ & V2 & V3). unfold next_start, search_start in *. lia. }
  destruct H6 as [H6|(H6 & H7 & H8)].
  - (* the start reached from the first window *)
    destruct (Z_lt_le_dec (search_start cfg s) 0) as [Hlo|Hlo].
    + (* nothing is found *)
      assert (He : E s = if s <? -1 then 0 else s + C).
      { apply window_end_before; try assumption; [|lia].
        destruct Hr as [Hr|[Hr _]]; lia. }
      revert He. destruct (s <? -1) eqn:Y; intros He; of_bool.
      * left. unfold before, next_start in *. rewrite He.
        repeat split; lia.
      * right.
        assert (HC : C <= 100) by (unfold search_start in Hlo; lia).
        assert (Hn : next s = C - 1 - O) by (unfold next_start; lia).
        rewrite Hn. unfold early. repeat split; try lia.
        assert (Hm : E 0 <= E (C - 1 - O))
          by (apply window_end_mono; lia).
        destruct (Z.eq_dec (next (C - 1 - O)) (-1)) as [Heq|Hne];
          [right; split; lia|left].
        destruct (Z_lt_le_dec (next (C - 1 - O)) (C - 1 - O)) as [Hlt|]; [|lia].
        exfalso.
        assert (Hc : cut cfg t (C - 1 - O) (E (C - 1 - O)))
          by (apply window_end_cut; [unfold search_start; lia|lia]).
        unfold next_start in *.
        inversion Hc as [X|X N|q X Q V M]; try lia.
        assert (Hv : visible cfg t 0 q).
        { destruct V as (V1 & V2 & V3). unfold visible, search_start in *.
          repeat split; [assumption|lia|lia]. }
        specialize (Mp q Hv). lia.
    + (* the terminator of the first window is found again *)
      left.
      assert (Hv : visible cfg t s p).
      { destruct Vp as (V1 & V2 & V3). unfold visible, search_start, next_start in *.
        repeat split; [assumption|lia|lia]. }
      assert (Hc : cut cfg t s (E s)).
      { apply window_end_cut; [exact Hlo|right; eauto]. }
      assert (He : E s = E 0).
      { inversion Hc as [X|X N|q X Q V M]; try lia.
        - specialize (N p Hv). lia.
        - specialize (M p Hv).
          assert (Hv0 : visible cfg t 0 q).
          { destruct V as (V1 & V2 & V3). destruct Vp as (_ & V4 & _).
            unfold visible, search_start in *. repeat split; [assumption|lia|lia]. }
          specialize (Mp q Hv0). lia. }
      unfold before, next_start in *. rewrite He. repeat split; lia.
  - (* the start is one overlap before the text *)
    left.
    assert (He : E s = if s <? -1 then 0 else s + C).
    { apply window_end_before; try assumption; unfold search_start; lia. }
    revert He. destruct (s <? -1) eqn:Y; intros He; of_bool; [|lia].
    unfold before, next_start in *. rewrite He. repeat split; lia.
Qed.

Lemma kind_init : kind cfg t 0 0 0.
Proof.
  right. left. unfold early.
  pose proof (window_end_gt 0).
  repeat split; lia.
Qed.

(** *** What the loop body preserves *)

(** The ids of the chunks count up, whatever the configuration. *)
Lemma body_counts st :
  counts_from offset (ls_chunks st)
  /\ ls_chunk_id st = offset + len (ls_chunks st) ->
  counts_from offset (ls_chunks (body st))
  /\ ls_chunk_id (body st) = offset + len (ls_chunks (body st)).
Proof.
  intros [H1 H2]. pose proof (body_chunk_id st) as Hid.
  split; [|lia].
  destruct (body_chunks st) as [->|(_ & c & -> & Hc & _)];
    [exact H1|].
  apply counts_from_snoc; [exact H1|lia].
Qed.

(** The spans of the chunks lie in the text as [well_spanned] says. *)
Lemma body_spans st :
  reachable cfg t (ls_start st) /\ Forall (well_spanned cfg t) (ls_chunks st) ->
  reachable cfg t (ls_start (body st))
  /\ Forall (well_spanned cfg t) (ls_chunks (body st)).
Proof.
  intros [Hr Hall]. split.
  - rewrite body_start. now apply reachable_next.
  - destruct (body_chunks st)
      as [->|(Hsub & c & -> & _ & Hcs & Hce & _ & _ & Htx)]; [exact Hall|].
    apply Forall_app. split; [exact Hall|]. constructor; [|constructor].
    destruct (substantial_start _ Hr Hsub) as [Hs He].
    pose proof (window_end_le _ Hr) as Hle.
    unfold well_spanned, is_window. rewrite Hcs, Hce.
    repeat split; try lia; try assumption.
    destruct (Z_lt_le_dec (ls_start st + C) L) as [X|X]; [left; lia|right].
    now apply window_end_tail.
Qed.

(** The spans of the chunks never go back. *)
Lemma body_monotone st :
  (exists bs be, kind cfg t (ls_start st) bs be
     /\ monotone (ls_chunks st) /\ bounded bs be (ls_chunks st)) ->
  exists bs be, kind cfg t (ls_start (body st)) bs be
     /\ monotone (ls_chunks (body st)) /\ bounded bs be (ls_chunks (body st)).
Proof.
  intros (bs & be & Hk & Hm & Hb). rewrite body_start.
  set (s := ls_start st) in *.
  assert (Hemit : bs <= s -> be <= E s ->
            monotone (ls_chunks (body st))
            /\ bounded s (E s) (ls_chunks (body st))).
  { intros H1 H2.
    destruct (body_chunks st)
      as [->|(_ & c & -> & _ & Hcs & Hce & _)].
    - split; [exact Hm|]. now apply (bounded_weaken bs be).
    - fold s in Hcs, Hce. split.
      + apply monotone_snoc; [exact Hm|].
        revert Hb. unfold bounded. apply Forall_impl. intros c'.
        unfold span_le. lia.
      + apply Forall_app. split; [now apply (bounded_weaken bs be)|].
        constructor; [lia|constructor]. }
  destruct Hk as [Hk|[Hk|Hk]].
  - exists s, (E s). destruct Hk as (K1 & K2 & K3 & K4).
    destruct (Hemit K3 K4) as [M B]. split; [|now split].
    left. apply (steady_step s bs be). now repeat split.
  - destruct (early_step _ _ _ Hk) as (K3 & K4 & K).
    exists s, (E s). destruct (Hemit K3 K4) as [M B]. split; [|now split].
    destruct K as [K|K]; [now left|now right; right].
  - exists bs, be.
    assert (Hsame : ls_chunks (body st) = ls_chunks st).
    { destruct (body_chunks st) as [->|(Hsub & _)];
        [reflexivity|exfalso].
      pose proof (before_reachable _ _ _ Hk) as Hr.
      destruct (substantial_start _ Hr Hsub) as [Hs _].
      destruct Hk as (K1 & _). fold s in Hs. lia. }
    rewrite Hsame. split; [|now split].
    destruct (before_step _ _ _ Hk) as [K|K];
      [now right; right|now right; left].
Qed.

(** *** Runs that finish *)

(** The loop only ever appends chunks. *)
Lemma chunk_loop_extends fuel st :
  exists more, ls_chunks (chunk_loop fuel st).2 = ls_chunks st ++ more.
Proof.
  revert st. induction fuel as [|fuel IH]; intros st; simpl.
  - exists []. now rewrite app_nil_r.
  - assert (Hb : exists more, ls_chunks (body st) = ls_chunks st ++ more).
    { destruct (body_chunks st) as [->|(_ & c & -> & _)];
        [exists []; now rewrite app_nil_r|now exists [c]]. }
    destruct (ls_start st <? L); [|exists []; now rewrite app_nil_r].
    destruct (L - O <=? ls_start (body st)); [exact Hb|].
    destruct Hb as [m1 Hb]. destruct (IH (body st)) as [m2 ->].
    exists (m1 ++ m2). now rewrite Hb, app_assoc.
Qed.

(** Every chunk is cut at a start the loop arrives at. *)
Lemma chunk_loop_sound s0 fuel st :
  visits_from cfg t s0 (ls_start st) ->
  Forall (fun c => visits_from cfg t s0 (char_start c) /\ char_start c < L)
    (ls_chunks st) ->
  Forall (fun c => visits_from cfg t s0 (char_start c) /\ char_start c < L)
    (ls_chunks (chunk_loop fuel st).2).
Proof.
  revert st. induction fuel as [|fuel IH]; intros st Hv Hall; simpl; [exact Hall|].
  destruct (ls_start st <? L) eqn:X; [|exact Hall]. of_bool.
  assert (Hb : Forall (fun c => visits_from cfg t s0 (char_start c) /\ char_start c < L)
                 (ls_chunks (body st))).
  { destruct (body_chunks st) as [->|(_ & c & -> & _ & Hcs & _)];
      [exact Hall|].
    apply Forall_app. split; [exact Hall|].
    constructor; [|constructor]. rewrite Hcs. now split. }
  destruct (L - O <=? ls_start (body st)) eqn:Y; [exact Hb|]. of_bool.
  apply IH; [|exact Hb]. rewrite body_start in *.
  eapply visits_from_trans; [exact Hv|].
  eapply visits_later; [exact X|exact Y|apply visits_here].
Qed.

(** In a run that finishes, every window with enough content that the
    loop arrives at has its chunk. *)
Lemma chunk_loop_complete fuel st s :
  (chunk_loop fuel st).1 = true ->
  visits_from cfg t (ls_start st) s -> s < L -> substantial cfg t s ->
  exists c, In c (ls_chunks (chunk_loop fuel st).2)
    /\ char_start c = s /\ char_end c = E s.
Proof.
  revert st. induction fuel as [|fuel IH]; intros st Hfin Hv Hs Hsub; simpl in *;
    [discriminate|].
  destruct (ls_start st <? L) eqn:X; of_bool.
  - destruct (L - O <=? ls_start (body st)) eqn:Y; of_bool.
    + (* the loop is left after this window *)
      rewrite body_start in Y. simpl.
      inversion Hv as [|s' H1 H2 H3]; subst; [|lia].
      destruct (body_chunks st)
        as [Hn|(_ & c & -> & _ & Hcs & Hce & _)].
      * exfalso. revert Hn. unfold Ingest.body. unfold substantial in Hsub.
        destruct (50 <? _) eqn:Z; of_bool; [|lia]. simpl.
        intros Hn. apply (f_equal (@length _)) in Hn.
        rewrite length_app in Hn. simpl in Hn. lia.
      * exists c. split; [apply in_or_app; right; now left|now split].
    + inversion Hv as [|s' H1 H2 H3]; subst.
      * (* the window in hand *)
        destruct (chunk_loop_extends fuel (body st)) as [more ->].
        destruct (body_chunks st)
          as [Hn|(_ & c & -> & _ & Hcs & Hce & _)].
        -- exfalso. revert Hn. unfold Ingest.body. unfold substantial in Hsub.
           destruct (50 <? _) eqn:Z; of_bool; [|lia]. simpl.
           intros Hn. apply (f_equal (@length _)) in Hn.
           rewrite length_app in Hn. simpl in Hn. lia.
        -- exists c. split; [|now split].
           apply in_or_app. left. apply in_or_app. right. now left.
      * (* a later window *)
        apply IH; try assumption. now rewrite body_start.
  - (* the text is empty *)
    inversion Hv; subst; lia.
Qed.

(** In a run that finishes and whose starts never decrease, the windows
    cover the text from the current start on. *)
Lemma chunk_loop_covers fuel st i :
  (chunk_loop fuel st).1 = true ->
  0 <= ls_start st <= next (ls_start st) ->
  ls_start st <= i < L ->
  exists s, visits_from cfg t (ls_start st) s /\ s < L /\ in_window cfg t s i.
Proof.
  revert st. induction fuel as [|fuel IH]; intros st Hfin Hst Hi; simpl in *;
    [discriminate|].
  destruct (ls_start st <? L) eqn:X; of_bool; [|lia].
  destruct (Z_lt_le_dec i (E (ls_start st))) as [Hin|Hout].
  - exists (ls_start st). split; [apply visits_here|]. split; [lia|].
    unfold in_window. lia.
  - rewrite body_start in *. unfold next_start in Hfin, Hst.
    destruct (L - O <=? E (ls_start st) - O) eqn:Y; of_bool; [lia|].
    destruct (IH (body st)) as (s & Hv & Hs & Hw).
    + exact Hfin.
    + rewrite body_start.
      assert (Hm : E (ls_start st) <= E (next (ls_start st)))
        by (apply window_end_mono; [unfold next_start; lia]).
      unfold next_start in *. lia.
    + rewrite body_start. unfold next_start. lia.
    + rewrite body_start in Hv. exists s. split; [|now split].
      eapply visits_later; [exact X|unfold next_start; lia|exact Hv].
Qed.

(** *** The chunks emitted *)

Lemma emitted_spans fuel :
  Forall (well_spanned cfg t) (emitted fuel cfg t fname page offset).
Proof.
  unfold emitted.
  apply (chunk_loop_invariant
           (fun st => reachable cfg t (ls_start st)
                      /\ Forall (well_spanned cfg t) (ls_chunks st))).
  - intros st H _. now apply body_spans.
  - split; [left; simpl; lia|constructor].
Qed.

Lemma emitted_counts fuel :
  counts_from offset (emitted fuel cfg t fname page offset).
Proof.
  unfold emitted.
  apply (chunk_loop_invariant
           (fun st => counts_from offset (ls_chunks st)
                      /\ ls_chunk_id st = offset + len (ls_chunks st))).
  - intros st H _. now apply body_counts.
  - split; [exact I|]. unfold len. simpl. lia.
Qed.

Lemma emitted_monotone fuel :
  monotone (emitted fuel cfg t fname page offset).
Proof.
  unfold emitted.
  destruct (chunk_loop_invariant
           (fun st => exists bs be, kind cfg t (ls_start st) bs be
               /\ monotone (ls_chunks st) /\ bounded bs be (ls_chunks st)))
    with (fuel := fuel) (st := init_state offset) as (bs & be & _ & Hm & _);
    [| |exact Hm].
  - intros st H _. now apply body_monotone.
  - exists 0, 0. split; [now apply kind_init|]. split; constructor.
Qed.

(** C9 (amended). Every chunk the loop emits on a text of length [L] has
    [0 <= char_start < char_end] and [char_start < L]; [char_end] is the
    right edge of the window at [char_start], at most [chunk_size]
    characters behind it. For a window that ends before the end of the
    text it is below [L]; for a window that reaches the end of the text
    it is [char_start + chunk_size], which may exceed [L]. *)
Theorem chunk_span_within_window fuel :
  Forall (fun c =>
            0 <= char_start c < char_end c /\ char_start c < L
            /\ (char_end c <= L \/ char_end c = char_start c + C)
            /\ char_end c = window_end cfg t (char_start c)
            /\ char_end c <= char_start c + C
            /\ (char_start c + C < L -> char_end c < L)
            /\ (L <= char_start c + C -> char_end c = char_start c + C))
    (emitted fuel cfg t fname page offset)
  /\ (forall chunks, chunk_text fuel cfg t fname page offset = Some chunks ->
        chunks = emitted fuel cfg t fname page offset).
Proof.
  split.
  - generalize (emitted_spans fuel). apply Forall_impl.
    intros c (H1 & H2 & H3 & H4 & [Hw _] & _).
    repeat split; try lia; try assumption.
    intros Ht. rewrite Hw. now apply window_end_tail.
  - intros chunks H. now apply chunk_text_emitted in H.
Qed.

(** C6 (amended). The starts and the ends of the chunks never decrease
    in the order of emission. In a finished run the chunks are exactly
    the windows with more than 50 characters of content among those the
    loop cuts; where the first window ends at least an overlap behind
    the start of the text, these windows cover every position of it. *)
Theorem chunk_spans_monotone fuel :
  monotone (emitted fuel cfg t fname page offset)
  /\ (forall chunks, chunk_text fuel cfg t fname page offset = Some chunks ->
        chunks = emitted fuel cfg t fname page offset
        /\ (forall c, In c chunks ->
              visits cfg t (char_start c) /\ is_window cfg t c)
        /\ (forall s, visits cfg t s -> substantial cfg t s ->
              exists c, In c chunks /\ char_start c = s /\ char_end c = E s)
        /\ (O <= E 0 -> forall i, 0 <= i < L ->
              exists s, visits cfg t s /\ in_window cfg t s i)).
Proof.
  split; [now apply emitted_monotone|].
  intros chunks H. apply chunk_text_emitted in H as [-> Hfin].
  split; [reflexivity|]. split; [|split].
  - intros c Hc. split.
    + pose proof (chunk_loop_sound 0 fuel (init_state offset))
        as Hs.
      unfold visits. eapply (proj1 (Forall_forall _ _)) in Hs; [exact Hs| | |exact Hc].
      * apply visits_here.
      * constructor.
    + pose proof (emitted_spans fuel) as Hw.
      eapply (proj1 (Forall_forall _ _)) in Hw; [|exact Hc].
      now destruct Hw as (_ & _ & _ & _ & Hw & _).
  - intros s [Hv Hs] Hsub.
    now apply (chunk_loop_complete fuel (init_state offset)).
  - intros HO i Hi.
    destruct (chunk_loop_covers fuel (init_state offset) i)
      as (s & Hv & Hs & Hw); try assumption.
    + unfold init_state, next_start. cbn [ls_start]. lia.
    + exists s. split; [split; [exact Hv|exact Hs]|exact Hw].
Qed.

(** *** Termination *)

(** Where every window inside the text moves the start forward, the
    loop is left after at most one round per character. *)
Lemma chunk_loop_finishes fuel st :
  (forall s, 0 <= s < L -> s < next s) ->
  0 <= ls_start st -> Z.max 0 (L - ls_start st) < Z.of_nat fuel ->
  (chunk_loop fuel st).1 = true.
Proof.
  intros Hp. revert st. induction fuel as [|fuel IH]; intros st H0 Hf; simpl.
  - lia.
  - destruct (ls_start st <? L) eqn:X; [|reflexivity]. of_bool.
    destruct (L - O <=? _) eqn:Y; [reflexivity|]. of_bool.
    specialize (Hp (ls_start st) (conj H0 X)).
    apply IH; rewrite body_start; lia.
Qed.

(** A window of a hundred characters or more beyond the overlap always
    moves the start forward. *)
Lemma wide_window_advances s :
  O + 100 <= C -> 0 <= s -> s < next s.
Proof.
  intros Hw Hs. unfold next_start.
  assert (Hc : cut cfg t s (E s))
    by (apply window_end_cut; [unfold search_start; lia|lia]).
  inversion Hc as [X|X N|p X P V M]; try lia.
  destruct V as (_ & V & _). unfold search_start in V. lia.
Qed.

Lemma chunk_text_returns_when_wide :
  O + 100 <= C ->
  exists chunks,
    chunk_text (S (length t)) cfg t fname page offset = Some chunks.
Proof.
  intros Hw. unfold chunk_text.
  pose proof (chunk_loop_finishes (S (length t)) (init_state offset)) as H.
  destruct (chunk_loop (S (length t)) (init_state offset)) as [b st].
  simpl in H. rewrite H; [eauto| |lia|unfold len; lia].
  intros s Hs. apply wide_window_advances; lia.
Qed.

(** So does every window of a text without terminators: it is cut hard. *)
Lemma plain_window_advances s :
  (forall p, term_at t p = false) -> 0 <= s -> s < next s.
Proof.
  intros Hn Hs. unfold next_start.
  assert (Hc : cut cfg t s (E s))
    by (apply window_end_cut; [unfold search_start; lia|lia]).
  inversion Hc as [X|X N|p X P V M]; try lia.
  destruct V as (V & _). rewrite Hn in V. discriminate.
Qed.

Lemma chunk_text_returns_without_terminators :
  (forall p, term_at t p = false) ->
  exists chunks,
    chunk_text (S (length t)) cfg t fname page offset = Some chunks.
Proof.
  intros Hn. unfold chunk_text.
  pose proof (chunk_loop_finishes (S (length t)) (init_state offset)) as H.
  destruct (chunk_loop (S (length t)) (init_state offset)) as [b st].
  simpl in H. rewrite H; [eauto| |lia|unfold len; lia].
  intros s Hs. apply plain_window_advances; [exact Hn|lia].
Qed.

(** *** The edge of a window *)

(** C8 (amended). A window that starts inside the text is cut as [cut]
    says: at [start + chunk_size] when it reaches the end of the text or
    no terminator is visible behind [start], and else one character
    behind the position [p] of the last visible terminator. The slice
    then ends with the first character of that terminator and leaves
    its second character out. *)
Theorem window_edge_behind_punctuation s :
  0 <= s ->
  cut cfg t s (window_end cfg t s)
  /\ (forall p, visible cfg t s p ->
        exists pat, In pat terminators /\ slice t p (p + 2) = pat
          /\ slice t s (p + 1) ++ drop 1 pat = slice t s (p + 2)).
Proof.
  intros Hs. split.
  - apply window_end_cut; [unfold search_start; lia|lia].
  - intros p (Ht & Hlo & Hhi).
    assert (Hp : s <= p) by (unfold search_start in Hlo; lia).
    destruct (term_at_pattern t p) as (HL & pat & Hin & Hlen & Hpat);
      [lia|exact Ht|].
    exists pat. split; [exact Hin|].
    rewrite !slice_inside by lia.
    replace (Z.to_nat (p + 2 - p)) with 2%nat by lia.
    split; [exact Hpat|].
    replace (Z.to_nat (p + 2 - s)) with (Z.to_nat (p + 1 - s) + 1)%nat by lia.
    rewrite <- take_take_drop. f_equal.
    rewrite <- Hpat, drop_drop.
    replace (Z.to_nat s + Z.to_nat (p + 1 - s))%nat
      with (Z.to_nat p + 1)%nat by lia.
    rewrite <- drop_drop. symmetry. apply (take_drop_commute _ 1 1).
Qed.

End Chunker.

(** *** Instances *)

Lemma chunk_span_within_window_witness :
  0 <= chunk_overlap cfg_default < chunk_size cfg_default
  /\ Forall (fun c =>
            0 <= char_start c < char_end c /\ char_start c < len sixty
            /\ (char_end c <= len sixty
                \/ char_end c = char_start c + chunk_size cfg_default)
            /\ char_end c = window_end cfg_default sixty (char_start c)
            /\ char_end c <= char_start c + chunk_size cfg_default
            /\ (char_start c + chunk_size cfg_default < len sixty ->
                char_end c < len sixty)
            /\ (len sixty <= char_start c + chunk_size cfg_default ->
                char_end c = char_start c + chunk_size cfg_default))
       (emitted 2 cfg_default sixty "a.pdf" 1 0).
Proof.
  split; [simpl; lia|].
  apply (chunk_span_within_window cfg_default sixty "a.pdf" 1 0). simpl; lia.
Defined.

(** On sixty letters the one chunk has [char_end = 700], beyond the end
    of the text. *)
Lemma char_end_beyond_text :
  exists c, chunk_text 2 cfg_default sixty "a.pdf" 1 0 = Some [c]
    /\ char_start c = 0 /\ char_end c = 700 /\ len sixty = 60
    /\ ~ (0 <= char_start c /\ char_start c < char_end c
          /\ char_end c <= len sixty).
Proof.
  eexists. split; [vm_compute; reflexivity|]. simpl.
  repeat split; try reflexivity. unfold len. simpl. lia.
Qed.

Lemma chunk_spans_monotone_witness :
  0 <= chunk_overlap cfg_default < chunk_size cfg_default
  /\ monotone (emitted 2 cfg_default sixty "a.pdf" 1 0).
Proof.
  split; [simpl; lia|].
  apply (chunk_spans_monotone cfg_default sixty "a.pdf" 1 0). simpl; lia.
Defined.

(** A page of eleven characters yields no chunk, so that no position of
    it lies in the span of a chunk. *)
Lemma short_text_not_covered :
  chunk_text 2 cfg_default short_page "a.pdf" 1 0 = Some []
  /\ short_page <> []
  /\ ~ (forall i, 0 <= i < len short_page ->
          exists c, In c (@nil DocumentChunk)
                    /\ char_start c <= i < char_end c).
Proof.
  split; [vm_compute; reflexivity|]. split; [discriminate|].
  intros H. destruct (H 0) as (c & [] & _). unfold len. simpl. lia.
Qed.

(** C5. With chunk size 10 and overlap 5 the loop never leaves the
    window at 0 of a text that begins with a four-letter sentence: the
    window ends behind the full stop, at 5, and the next start is 0. *)
Theorem chunk_text_never_returns fuel :
  chunk_text fuel cfg_narrow stuck_text "a.pdf" 1 0 = None.
Proof.
  unfold chunk_text.
  assert (H : chunk_loop fuel cfg_narrow stuck_text "a.pdf" 1 (init_state 0)
              = (false, init_state 0)).
  { induction fuel as [|fuel IH]; [reflexivity|].
    cbn [chunk_loop].
    replace (body cfg_narrow stuck_text "a.pdf" 1 (init_state 0))
      with (init_state 0) by (vm_compute; reflexivity).
    replace (ls_start (init_state 0) <? len stuck_text) with true
      by (vm_compute; reflexivity).
    replace (len stuck_text - chunk_overlap cfg_narrow <=? ls_start (init_state 0))
      with false by (vm_compute; reflexivity).
    exact IH. }
  now rewrite H.
Qed.

Lemma window_edge_behind_punctuation_witness :
  0 <= chunk_overlap cfg_30_5 < chunk_size cfg_30_5 /\ 0 <= 0
  /\ cut cfg_30_5 three_sentences 0 (window_end cfg_30_5 three_sentences 0).
Proof.
  split; [simpl; lia|]. split; [lia|].
  apply (window_edge_behind_punctuation cfg_30_5 three_sentences); simpl; lia.
Defined.

(** The first window of the three sentences, with chunk size 30: the
    last terminator before 30 is the full stop and space at 20 and 21;
    the window ends at 21, not behind the space at 22, and its slice
    ends with the full stop. *)
Lemma window_ends_before_space :
  sentence_end three_sentences (Z.max 0 (0 + 30 - 100)) (0 + 30) = 20
  /\ matches_at (of_string ". ") three_sentences 20 = true
  /\ window_end cfg_30_5 three_sentences 0 = 21
  /\ window_end cfg_30_5 three_sentences 0 <> 20 + len (of_string ". ")
  /\ slice three_sentences 0 (window_end cfg_30_5 three_sentences 0)
     = of_string "This is sentence one.".
Proof. vm_compute. repeat split; congruence. Qed.

(** With chunk size 100 and overlap 40 the first window of [early_stop]
    ends at 39, less than an overlap behind 0: the start goes to -1,
    whose window is empty, and from there to 59. The run finishes with
    two chunks, and position 45 lies in no window that starts inside
    the text. *)
Example detour_leaves_gap :
  exists chunks,
    chunk_text 6 cfg_100_40 early_stop "a.pdf" 1 0 = Some chunks
    /\ map (fun c => (char_start c, char_end c)) chunks
       = [(59, 159); (119, 219)]
    /\ (forall s, visits cfg_100_40 early_stop s ->
          s = 0 \/ s = -1 \/ s = 59 \/ s = 119)
    /\ ~ (exists s, visits cfg_100_40 early_stop s
                    /\ in_window cfg_100_40 early_stop s 45).
Proof.
  eexists. split; [vm_compute; reflexivity|]. split; [reflexivity|].
  assert (Hv : forall s, visits cfg_100_40 early_stop s ->
                 s = 0 \/ s = -1 \/ s = 59 \/ s = 119).
  { intros s [H _].
    inversion H as [|? _ _ H1]; subst; [auto|].
    replace (next_start cfg_100_40 early_stop 0) with (-1) in H1
      by (vm_compute; reflexivity).
    inversion H1 as [|? _ _ H2]; subst; [auto|].
    replace (next_start cfg_100_40 early_stop (-1)) with 59 in H2
      by (vm_compute; reflexivity).
    inversion H2 as [|? _ _ H3]; subst; [auto|].
    replace (next_start cfg_100_40 early_stop 59) with 119 in H3
      by (vm_compute; reflexivity).
    inversion H3 as [|? _ X _]; subst; [auto|].
    vm_compute in X. discriminate. }
  split; [exact Hv|].
  intros (s & Hs & H0 & H1). apply Hv in Hs.
  destruct Hs as [E|[E|[E|E]]]; subst s; vm_compute in H1;
    try discriminate; lia.
Qed.

End ChunkFacts.

(** ** The ingestion pipeline *)

Module IngestFacts.

Import Py Ingest PyFacts ChunkSpec ChunkFacts IngestSpec Examples.

Lemma counts_from_dense chunks : counts_from 0 chunks -> dense_ids chunks.
Proof.
  intros H i c Hi. rewrite (counts_from_nth 0 chunks i c H Hi). lia.
Qed.

Lemma process_pages_counts fuel cfg fname pages : forall all_chunks offset r,
  process_pages fuel cfg fname pages all_chunks offset = Ok r ->
  counts_from 0 all_chunks -> offset = len all_chunks ->
  counts_from 0 r.1 /\ r.2 = len r.1.
Proof.
  induction pages as [|[page page_text] pages IH]; intros all_chunks offset r;
    simpl.
  - intros [= <-]. auto.
  - destruct (chunk_text fuel cfg page_text fname page offset) as [chunks|] eqn:E;
      [|discriminate].
    intros H Hc Ho. apply IH in H; [exact H| |].
    + apply counts_from_app; [exact Hc|].
      apply chunk_text_emitted in E as [-> _]. rewrite Z.add_0_l, <- Ho.
      apply emitted_counts.
    + rewrite len_app. lia.
Qed.

Lemma process_files_counts fuel cfg pdf_files : forall all_chunks offset r,
  process_files fuel cfg pdf_files all_chunks offset = Ok r ->
  counts_from 0 all_chunks -> offset = len all_chunks ->
  counts_from 0 r.1 /\ r.2 = len r.1.
Proof.
  induction pdf_files as [|[name content] pdf_files IH];
    intros all_chunks offset r; simpl.
  - intros [= <-]. auto.
  - destruct (process_pages fuel cfg name (extract_text_from_pdf content)
                all_chunks offset) as [r1| |] eqn:E; simpl; try discriminate.
    intros H Hc Ho.
    destruct (process_pages_counts _ _ _ _ _ _ _ E Hc Ho) as [H1 H2].
    now apply IH in H.
Qed.

(** The ids of the chunks of a corpus are their positions. *)
Lemma process_pdfs_dense fuel cfg data_dir chunks :
  process_pdfs fuel cfg data_dir = Ok chunks -> dense_ids chunks.
Proof.
  unfold process_pdfs. destruct data_dir as [[|f fs]|]; try discriminate.
  destruct (process_files fuel cfg (f :: fs) [] 0) as [r| |] eqn:E;
    simpl; try discriminate.
  intros [= <-]. apply counts_from_dense.
  now apply (process_files_counts _ _ _ _ _ _ E).
Qed.

Lemma path_join_inj dir a b : path_join dir a = path_join dir b -> a = b.
Proof.
  unfold path_join. intros H. apply (inj (String.app dir)) in H.
  now apply (inj (String.app "/")) in H.
Qed.

Lemma index_metadata_differ dir : index_file dir <> metadata_file dir.
Proof. intros H. apply path_join_inj in H. discriminate. Qed.

Lemma index_summary_differ dir : index_file dir <> summary_file dir.
Proof. intros H. apply path_join_inj in H. discriminate. Qed.

Lemma metadata_summary_differ dir : metadata_file dir <> summary_file dir.
Proof. intros H. apply path_join_inj in H. discriminate. Qed.

Section Pipeline.

Variable normalize_L2 : list Q -> list Q.
Variable hub : string -> option Model.
Variable env_embedding_model : option string.
Variable now : nat -> string.
Variable disk : Disk.

#[local] Abbreviation prepare := (prepare normalize_L2 hub env_embedding_model).
#[local] Abbreviation save_index := (save_index now disk).
#[local] Abbreviation main :=
  (main normalize_L2 hub env_embedding_model now disk).

Lemma add_rows dim xs idx :
  Faiss.add (Faiss.IndexFlatIP dim) xs = Ok idx ->
  Faiss.d idx = dim /\ Faiss.rows idx = xs.
Proof.
  unfold Faiss.add. destruct (forallb _ xs); [|discriminate].
  intros [= <-]. simpl. auto.
Qed.

(** What the stages before [save_index] hand over. *)
Lemma prepare_result fuel args p chunks index :
  prepare fuel args = Ok (Some (p, chunks, index)) ->
  hub (embedding_model_name p) = Some (model p)
  /\ dense_ids chunks
  /\ Faiss.d index = embedding_dim (model p)
  /\ Faiss.rows index
     = map (fun c => normalize_L2 (encode (model p) (text c))) chunks.
Proof.
  unfold Ingest.prepare, new_pipeline.
  set (name := match arg_embedding_model args with
               | Some n => n
               | None => default "paraphrase-multilingual-mpnet-base-v2"
                           env_embedding_model
               end).
  destruct (hub name) as [m|] eqn:Hm; simpl; [|discriminate].
  destruct (process_pdfs fuel _ (arg_data_dir args)) as [cs| |] eqn:Hc;
    simpl; try discriminate.
  destruct cs as [|c cs]; [discriminate|].
  destruct (build_faiss_index normalize_L2 _ _) as [idx| |] eqn:Hi;
    simpl; try discriminate.
  intros [= <- <- <-]. simpl.
  apply process_pdfs_dense in Hc.
  unfold build_faiss_index, create_embeddings in Hi. simpl in Hi.
  apply add_rows in Hi as [Hd Hr].
  repeat split; try assumption.
  rewrite Hr. simpl. f_equal. rewrite !map_map. reflexivity.
Qed.

(** [save_index] makes the directory, writes its three files in order
    and stops at the first step that fails. *)
Lemma save_index_result p fs index chunks dir fs' r :
  save_index p fs index chunks dir = (fs', r) ->
  match r with
  | Ok _ =>
      fs' = {| dirs := dirs_made disk fs dir;
               files := <[summary_file dir := SummaryFile (make_summary now p chunks)]>
                          (<[metadata_file dir := MetadataFile (make_metadata now p chunks)]>
                             (<[index_file dir := IndexFile index]> (files fs))) |}
  | _ => partly_saved disk fs dir index (make_metadata now p chunks) fs'
  end.
Proof.
  unfold Ingest.save_index, write_file.
  fold (index_file dir) (metadata_file dir) (summary_file dir).
  fold (dirs_made disk fs dir).
  destruct (mkdir_ok disk dir) eqn:Hd; simpl.
  2:{ intros [= <- <-]. now apply saved_nothing. }
  destruct (write_end disk (index_file dir)) eqn:Hi; simpl.
  - destruct (write_end disk (metadata_file dir)) eqn:Hm; simpl.
    + destruct (write_end disk (summary_file dir)) eqn:Hs; simpl;
        intros [= <- <-].
      * reflexivity.
      * now apply (summary_failed _ _ _ _ _ _ false).
      * now apply (summary_failed _ _ _ _ _ _ true).
    + intros [= <- <-]. now apply (metadata_failed _ _ _ _ _ _ false).
    + intros [= <- <-]. now apply (metadata_failed _ _ _ _ _ _ true).
  - intros [= <- <-]. now apply (index_failed _ _ _ _ _ _ false).
  - intros [= <- <-]. now apply (index_failed _ _ _ _ _ _ true).
Qed.


(** C7 (amended). A run of [main] that fails before [save_index], or
    finds no chunk, returns 1 and leaves the file system as it was. A
    run that reaches [save_index] makes the directory and writes the
    index, the metadata and the summary in this order, each at its
    final path: status 0 means that all three are written in full. A
    step that fails ends the run with status 1: when the directory
    cannot be made no file is touched, and when a write fails the files
    written before it stay in place, the file of the failed write is as
    it was or truncated, and the files behind it are untouched. *)
Theorem ingestion_failure_leaves fuel args fs status fs' :
  main fuel args fs = Some (status, fs') ->
  match prepare fuel args with
  | Ok (Some (p, chunks, index)) =>
      let dir := arg_output_dir args in
      let md := make_metadata now p chunks in
      (status = 0
       /\ mkdir_ok disk dir = true
       /\ write_end disk (index_file dir) = Written
       /\ write_end disk (metadata_file dir) = Written
       /\ write_end disk (summary_file dir) = Written
       /\ fs' = {| dirs := dirs_made disk fs dir;
                   files := <[summary_file dir := SummaryFile (make_summary now p chunks)]>
                              (<[metadata_file dir := MetadataFile md]>
                                 (<[index_file dir := IndexFile index]> (files fs))) |})
      \/ (status = 1 /\ partly_saved disk fs dir index md fs')
  | _ => status = 1 /\ fs' = fs
  end.
Proof.
  unfold Ingest.main.
  destruct (prepare fuel args) as [[[[p chunks] index]|]| |] eqn:Hp;
    try discriminate; try (intros [= <- <-]; auto).
  destruct (save_index p fs index chunks (arg_output_dir args))
    as [fs1 r] eqn:Hs.
  pose proof (save_index_result _ _ _ _ _ _ _ Hs) as Hr.
  destruct r as [[]| |]; intros [= <- <-]; auto.
  left. split; [reflexivity|].
  revert Hs. unfold Ingest.save_index, write_file.
  fold (index_file (arg_output_dir args)) (metadata_file (arg_output_dir args))
    (summary_file (arg_output_dir args)).
  destruct (mkdir_ok disk (arg_output_dir args)); simpl; [|discriminate].
  destruct (write_end disk (index_file (arg_output_dir args))); simpl;
    try discriminate.
  destruct (write_end disk (metadata_file (arg_output_dir args))); simpl;
    try discriminate.
  destruct (write_end disk (summary_file (arg_output_dir args))); simpl;
    try discriminate.
  intros _. now repeat split.
Qed.

End Pipeline.


Lemma ingestion_failure_leaves_witness :
  exists status fs',
    main keep_row toy_hub None today metadata_fails 2 toy_args old_fs
      = Some (status, fs')
    /\ match prepare keep_row toy_hub None 2 toy_args with
       | Ok (Some (p, chunks, index)) =>
           let dir := arg_output_dir toy_args in
           let md := make_metadata today p chunks in
           (status = 0
            /\ mkdir_ok metadata_fails dir = true
            /\ write_end metadata_fails (index_file dir) = Written
            /\ write_end metadata_fails (metadata_file dir) = Written
            /\ write_end metadata_fails (summary_file dir) = Written
            /\ fs' = {| dirs := dirs_made metadata_fails old_fs dir;
                        files := <[summary_file dir := SummaryFile (make_summary today p chunks)]>
                                   (<[metadata_file dir := MetadataFile md]>
                                      (<[index_file dir := IndexFile index]> (files old_fs))) |})
           \/ (status = 1 /\ partly_saved metadata_fails old_fs dir index md fs')
       | _ => status = 1 /\ fs' = old_fs
       end.
Proof.
  eexists _, _. split; [vm_compute; reflexivity|].
  apply (ingestion_failure_leaves keep_row toy_hub None today metadata_fails 2
           toy_args old_fs).
  vm_compute. reflexivity.
Defined.

End IngestFacts.

(** ** The retrieval service *)

Module ServiceFacts.

Import Py Ingest Server PyFacts ChunkFacts IngestSpec ServiceSpec Examples
  Scenarios.

Lemma below_at_least s t : negb (below s (Some t)) = Qle_bool t s.
Proof.
  unfold below. destruct (s ?= t)%Q eqn:E; simpl; symmetry.
  - apply Qle_bool_iff. apply Qeq_alt in E. rewrite E. apply Qle_refl.
  - apply not_true_iff_false. rewrite Qle_bool_iff. apply Qlt_alt in E.
    intros H. apply (Qlt_irrefl s). eapply Qlt_le_trans; eauto.
  - apply Qle_bool_iff. apply Qgt_alt in E. apply Qlt_le_weak. exact E.
Qed.

Lemma build_results_threshold md t hits : forall acc,
  build_results md (Some t) hits (at_least t acc)
  = outcome_map (at_least t) (build_results md None hits acc).
Proof.
  induction hits as [|[dist idx] hits IH]; intros acc; simpl; [reflexivity|].
  destruct (idx =? -1); [apply IH|].
  destruct (chunk_at md idx) as [c|e|]; try reflexivity.
  rewrite <- IH. 
  destruct (match (dist ?= t)%Q with Lt => true | _ => false end) eqn:E.
  - f_equal. unfold at_least. rewrite filter_app. simpl.
    rewrite <- below_at_least. unfold below. rewrite E. simpl.
    now rewrite app_nil_r.
  - f_equal. unfold at_least. rewrite filter_app. simpl.
    rewrite <- below_at_least. unfold below. rewrite E. reflexivity.
Qed.

Section Threshold.

Variable normalize_L2 : list Q -> list Q.
Variable detect : str -> option string.
Variable search : Faiss.Index -> list Q -> Z -> outcome (list Faiss.hit).

#[local] Abbreviation retrieve := (retrieve normalize_L2 detect search).

(** C2. With a threshold [t], [retrieve] answers with exactly the
    entries of the answer without threshold whose score is at least [t],
    in the same order; it makes the same calls, and the index is only
    ever searched with the [k] of the request. *)
Theorem retrieve_threshold_filters_after_search
    (st : ServerState) (request : RetrievalRequest) (t : Q) :
  let without := retrieve st (with_threshold request None) in
  let with_t := retrieve st (with_threshold request (Some t)) in
  with_t.2 = restrict (at_least t) without.2
  /\ with_t.1 = without.1
  /\ (forall k', In (CallSearch k') with_t.1 -> k' = k request).
Proof.
  unfold retrieve, Server.retrieve, with_threshold; simpl.
  destruct (st_ready st); simpl; [|intuition].
  destruct (st_model st) as [m|]; simpl; [|intuition].
  destruct (st_index st) as [idx|]; simpl; [|intuition congruence].
  destruct (search idx _ (k request)) as [hits|e|]; simpl;
    try (intuition congruence).
  pose proof (build_results_threshold (st_metadata st) t hits []) as H.
  change (at_least t []) with (@nil DocumentResult) in H. rewrite H.
  destruct (build_results (st_metadata st) None hits []); simpl;
    intuition congruence.
Qed.

End Threshold.














Section Ranking.

Variable normalize_L2 : list Q -> list Q.
Variable detect : str -> option string.
Variable search : Faiss.Index -> list Q -> Z -> outcome (list Faiss.hit).

#[local] Abbreviation retrieve := (retrieve normalize_L2 detect search).


End Ranking.





Section Service.

Variable normalize_L2 : list Q -> list Q.
Variable hub : string -> option Model.
Variable detect : str -> option string.
Variable search : Faiss.Index -> list Q -> Z -> outcome (list Faiss.hit).
Variable settings : Settings.

#[local] Abbreviation retrieve := (retrieve normalize_L2 detect search).
#[local] Abbreviation post_retrieve := (post_retrieve normalize_L2 detect search).
#[local] Abbreviation startup_event := (startup_event hub settings).

Lemma retrieve_not_422 st request : (retrieve st request).2 <> Http422.
Proof.
  unfold Server.retrieve.
  destruct (st_ready st); simpl; [|discriminate].
  destruct (st_model st); simpl; [|discriminate].
  destruct (st_index st); simpl; [|discriminate].
  destruct (search _ _ _); simpl; try discriminate.
  destruct (build_results _ _ _ _); simpl; discriminate.
Qed.

Lemma nonempty_len (q : str) : (1 <=? len q) = true <-> q <> [].
Proof.
  rewrite Z.leb_le. unfold len. destruct q; simpl; split; try lia; congruence.
Qed.

Lemma validate_acceptable b :
  match validate b with
  | Some request =>
      acceptable b /\ body_query b = Some (query request)
      /\ k request = default 5 (body_k b)
      /\ threshold request = body_threshold b
  | None => ~ acceptable b
  end.
Proof.
  unfold validate, acceptable.
  destruct (body_query b) as [q|] eqn:Hq; cbn beta iota.
  2:{ intros [(q & Hq' & _) _]. discriminate. }
  set (kk := default 5 (body_k b)).
  assert (Ht : (match body_threshold b with
                | Some t => Qle_bool 0 t && Qle_bool t 1
                | None => true
                end = true)
               <-> (forall t, body_threshold b = Some t -> (0 <= t <= 1)%Q)).
  { destruct (body_threshold b) as [t|].
    - rewrite andb_true_iff, !Qle_bool_iff. split.
      + intros H t' [= <-]. exact H.
      + intros H. now apply H.
    - split; [discriminate|reflexivity]. }
  destruct (1 <=? len q) eqn:X1; cbn [andb].
  2:{ intros [(q' & [= <-] & Hne) _]. apply nonempty_len in Hne. congruence. }
  apply nonempty_len in X1.
  destruct (1 <=? kk) eqn:X2; cbn [andb]; of_bool; [|intros (_ & H & _); lia].
  destruct (kk <=? 50) eqn:X3; cbn [andb]; of_bool; [|intros (_ & H & _); lia].
  destruct (match body_threshold b with
            | Some t => Qle_bool 0 t && Qle_bool t 1
            | None => true
            end) eqn:X4.
  - cbn [query k threshold]. split; [|auto].
    split; [eauto|]. split; [lia|]. now apply Ht.
  - intros (_ & _ & H). apply Ht in H. discriminate.
Qed.

(** C10. A body is either acceptable, and then it is handed to the
    handler with its own [k], or it is answered with a validation error
    without any call to the model or to the index, whatever the state of
    the service and the size of its index. *)
Theorem post_retrieve_validates st b :
  (acceptable b
   /\ exists request,
        validate b = Some request
        /\ 1 <= k request <= 50 /\ query request <> []
        /\ post_retrieve st b = retrieve st request
        /\ (post_retrieve st b).2 <> Http422)
  \/ (~ acceptable b /\ post_retrieve st b = ([], Http422)).
Proof.
  unfold Server.post_retrieve. pose proof (validate_acceptable b) as H.
  destruct (validate b) as [request|]; [left|right; now split].
  destruct H as (Ha & Hq & Hk & Ht). split; [exact Ha|].
  exists request. destruct Ha as ((q & Hq' & Hne) & Hk' & _).
  repeat split; try lia; try reflexivity.
  - congruence.
  - apply retrieve_not_422.
Qed.

(** C3 (amended). A service that is not ready answers every query with
    503. After [startup_event] the service is ready exactly when the
    model, the index directory, the index file and the metadata file
    could be loaded; otherwise the start fails with an exception and the
    service stays not ready. No dimension is compared: that of the index
    against that of the model shows only when the index is searched. *)
Theorem service_ready_after_load fs :
  (forall st request, st_ready st = false ->
     retrieve st request = ([], Http503))
  /\ (st_ready (startup_event fs initial_state).1 = true
      <-> loadable hub settings fs)
  /\ (st_ready (startup_event fs initial_state).1 = true ->
      (startup_event fs initial_state).2 = Ok ())
  /\ (st_ready (startup_event fs initial_state).1 = false ->
      exists e, (startup_event fs initial_state).2 = Raise e).
Proof.
  split.
  { intros st request H. unfold Server.retrieve. now rewrite H. }
  unfold Server.startup_event, load_embedding_model, load_index_and_metadata,
    loadable, index_file, metadata_file.
  destruct (hub (embedding_model settings)) as [m|] eqn:Hm; simpl.
  2:{ repeat split; try discriminate; eauto.
      intros (m & _ & _ & [=] & _). }
  destruct (bool_decide (index_path settings ∈ dirs fs)) eqn:Hd; simpl.
  2:{ apply bool_decide_eq_false in Hd. repeat split; try discriminate; eauto.
      intros (_ & _ & _ & _ & H & _). contradiction. }
  apply bool_decide_eq_true in Hd.
  destruct (files fs !! path_join (index_path settings) "faiss_index.bin")
    as [[idx|md|sm|]|] eqn:Hi; simpl;
    try (repeat split; try discriminate; eauto;
         intros (_ & _ & _ & _ & _ & [=] & _)).
  destruct (files fs !! path_join (index_path settings) "metadata.pkl")
    as [[idx'|md|sm|]|] eqn:Hmd; simpl;
    try (repeat split; try discriminate; eauto;
         intros (_ & _ & _ & _ & _ & _ & [=])).
  repeat split; try discriminate; eauto 10.
Qed.

End Service.

(** Started with the model of dimension 2 on the index of dimension 3,
    the service becomes ready; the query is then not refused with 503
    but fails in the search. *)
Lemma ready_despite_dimension_mismatch :
  exists st idx m calls,
    startup_event toy_hub small_settings built_fs initial_state = (st, Ok ())
    /\ st_ready st = true
    /\ st_index st = Some idx /\ st_model st = Some m
    /\ Faiss.d idx = 3 /\ embedding_dim m = 2
    /\ retrieve keep_row no_detect Faiss.search st query_b
       = (calls, Http500 AssertionError).
Proof.
  eexists _, _, _, _. split; [vm_compute; reflexivity|].
  repeat split; vm_compute; reflexivity.
Qed.

(** A request for 51 results is rejected although it has a query. *)
Example k_51_rejected :
  post_retrieve keep_row no_detect Faiss.search ready_state body_51
  = ([], Http422).
Proof. reflexivity. Qed.

(** A run over an index built earlier whose metadata cannot be written:
    the run ends with status 1, the new index of three rows stands
    beside the old metadata of one chunk, and a service started on the
    directory loads the two and becomes ready. *)
Lemma failed_save_leaves_mixed_index :
  exists fs' new_index st,
    Ingest.main keep_row toy_hub None today metadata_fails 2 toy_args old_fs
      = Some (1, fs')
    /\ fs' <> old_fs
    /\ files fs' !! index_file "./index" = Some (IndexFile new_index)
    /\ Faiss.ntotal new_index = 3
    /\ files fs' !! metadata_file "./index" = Some (MetadataFile old_metadata)
    /\ md_num_chunks old_metadata = 1
    /\ startup_event toy_hub toy_settings fs' initial_state = (st, Ok ())
    /\ st_ready st = true.
Proof.
  eexists _, _, _. split; [vm_compute; reflexivity|]. split.
  - intros H.
    apply (f_equal (fun fs => files fs !! index_file "./index")) in H.
    vm_compute in H. discriminate.
  - repeat split; vm_compute; reflexivity.
Qed.

(** When the write of the metadata breaks off instead, the new index
    stands beside a truncated metadata file, and a service started on
    the directory raises and stays not ready. *)
Example torn_metadata_stops_service :
  exists fs' st e,
    Ingest.main keep_row toy_hub None today metadata_torn 2 toy_args old_fs
      = Some (1, fs')
    /\ files fs' !! metadata_file "./index" = Some Truncated
    /\ startup_event toy_hub toy_settings fs' initial_state = (st, Raise e)
    /\ st_ready st = false.
Proof.
  eexists _, _, _. split; [vm_compute; reflexivity|].
  repeat split; vm_compute; reflexivity.
Qed.

End ServiceFacts.

(** ** The chunks of a page *)

Module ContentFacts.

Import Py Ingest PyFacts ChunkSpec ChunkFacts ContentSpec Examples Scenarios.

Lemma strip_trimmed s : trimmed (strip s).
Proof.
  unfold trimmed, strip, rstrip.
  set (y := lstrip s). set (z := lstrip (rev y)). split.
  - destruct (lstrip_suffix (rev y)) as [p Hp]. fold z in Hp.
    assert (Hy : y = rev z ++ rev p).
    { rewrite <- rev_app_distr, <- Hp. now rewrite rev_involutive. }
    destruct (rev z) as [|c r] eqn:Er; [exact I|].
    apply (headed_app_l _ (rev p)); [|discriminate].
    rewrite <- Hy. apply lstrip_headed.
  - rewrite rev_involutive. apply lstrip_headed.
Qed.

(** A slice is no longer than the distance of its bounds, when they lie
    in this order behind 0, and no longer than the string. *)
Lemma slice_len_le {A} (s : list A) lo hi :
  0 <= lo <= hi -> len (slice s lo hi) <= hi - lo.
Proof.
  intros H. rewrite slice_len. unfold adjust.
  pose proof (len_nonneg s).
  destruct (lo <? 0) eqn:X; destruct (hi <? 0) eqn:Y; of_bool; lia.
Qed.

Lemma slice_len_whole {A} (s : list A) lo hi : len (slice s lo hi) <= len s.
Proof.
  rewrite slice_len. pose proof (len_nonneg s) as HL.
  pose proof (adjust_range (len s) lo HL).
  pose proof (adjust_range (len s) hi HL). lia.
Qed.

Lemma slice_prefix {A} (s : list A) n :
  0 <= n <= len s -> slice s 0 n = take (Z.to_nat n) s.
Proof.
  intros H. rewrite slice_inside by lia. now rewrite Z.sub_0_r.
Qed.

(** *** Fuel *)

(** A loop that has finished finishes in the same state on more fuel. *)
Lemma chunk_loop_more_fuel cfg t fname page fuel : forall fuel' st st',
  chunk_loop fuel cfg t fname page st = (true, st') -> (fuel <= fuel')%nat ->
  chunk_loop fuel' cfg t fname page st = (true, st').
Proof.
  induction fuel as [|fuel IH]; intros fuel' st st' H Hle; simpl in H;
    [discriminate|].
  destruct fuel' as [|fuel']; [lia|]. simpl.
  destruct (ls_start st <? len t); [|exact H].
  destruct (len t - chunk_overlap cfg <=? _); [exact H|].
  apply IH; [exact H|lia].
Qed.

Lemma chunk_text_more_fuel cfg t fname page offset fuel fuel' chunks :
  chunk_text fuel cfg t fname page offset = Some chunks -> (fuel <= fuel')%nat ->
  chunk_text fuel' cfg t fname page offset = Some chunks.
Proof.
  unfold chunk_text. intros H Hle.
  destruct (chunk_loop fuel cfg t fname page (init_state offset))
    as [[|] st] eqn:E; [|discriminate].
  now rewrite (chunk_loop_more_fuel _ _ _ _ _ _ _ _ E Hle).
Qed.

(** *** Terminators *)

Lemma term_at_to_nat t p : term_at t p = term_at t (Z.of_nat (Z.to_nat p)).
Proof. unfold term_at, matches_at. simpl. now rewrite Nat2Z.id. Qed.

Lemma term_at_outside t p : (length t <= Z.to_nat p)%nat -> term_at t p = false.
Proof.
  intros H. unfold term_at, matches_at. simpl.
  rewrite drop_ge by exact H. reflexivity.
Qed.

Lemma no_terminator_spec t p : no_terminator t = true -> term_at t p = false.
Proof.
  intros H. destruct (le_lt_dec (length t) (Z.to_nat p)) as [Hp|Hp].
  - now apply term_at_outside.
  - unfold no_terminator in H. rewrite forallb_forall in H.
    specialize (H (Z.to_nat p)). rewrite <- term_at_to_nat in H.
    apply negb_true_iff, H, in_seq. lia.
Qed.

(** *** What the loop appends *)

Lemma body_appends cfg t fname page st :
  ls_chunks (body cfg t fname page st) = ls_chunks st
  \/ exists c,
       ls_chunks (body cfg t fname page st) = ls_chunks st ++ [c]
       /\ char_start c = ls_start st
       /\ char_end c = window_end cfg t (ls_start st)
       /\ cut_from t fname page c /\ trimmed (text c) /\ excerpted c.
Proof.
  unfold body. destruct (50 <? _) eqn:X; [right|now left]. of_bool.
  eexists. split; [reflexivity|]. unfold cut_from, excerpted. simpl.
  rewrite strip_idem. repeat split; try assumption. apply strip_trimmed.
  apply strip_trimmed.
Qed.

Lemma emitted_cut_from fuel cfg t fname page offset :
  Forall (fun c => cut_from t fname page c /\ trimmed (text c) /\ excerpted c)
    (emitted fuel cfg t fname page offset).
Proof.
  unfold emitted.
  apply (chunk_loop_invariant cfg t fname page
           (fun st => Forall (fun c => cut_from t fname page c
                                       /\ trimmed (text c) /\ excerpted c)
                        (ls_chunks st))); [|constructor].
  intros st H _.
  destruct (body_appends cfg t fname page st) as [->|(c & -> & _ & _ & Hc)];
    [exact H|].
  apply Forall_app. split; [exact H|]. constructor; [exact Hc|constructor].
Qed.


Lemma counts_from_ids offset chunks :
  counts_from offset chunks ->
  map chunk_id chunks
  = map (fun i => offset + Z.of_nat i) (seq 0 (length chunks)).
Proof.
  revert offset. induction chunks as [|c chunks IH]; intros offset H;
    [reflexivity|].
  destruct H as [H1 H2]. simpl. f_equal; [lia|].
  rewrite (IH _ H2), <- seq_shift, map_map.
  apply map_ext. intros i. lia.
Qed.

(** *** Runs that return *)

(** X1. Where the chunk size exceeds the overlap by 100 or more,
    [chunk_text] returns on every text, after at most one round per
    character and one more; the chunks do not depend on the fuel. *)
Theorem chunk_text_returns_on_wide_windows cfg t fname page offset :
  0 <= chunk_overlap cfg -> chunk_overlap cfg + 100 <= chunk_size cfg ->
  exists chunks, forall fuel, (length t < fuel)%nat ->
    chunk_text fuel cfg t fname page offset = Some chunks.
Proof.
  intros H0 Hw.
  destruct (chunk_text_returns_when_wide cfg t fname page offset)
    as [chunks H]; [lia|exact Hw|].
  exists chunks. intros fuel Hf.
  apply (chunk_text_more_fuel _ _ _ _ _ _ _ _ H). lia.
Qed.

Lemma chunk_text_returns_on_wide_windows_witness :
  0 <= chunk_overlap cfg_default
  /\ chunk_overlap cfg_default + 100 <= chunk_size cfg_default
  /\ exists chunks, forall fuel, (length sixty < fuel)%nat ->
       chunk_text fuel cfg_default sixty "a.pdf" 1 0 = Some chunks.
Proof.
  split; [simpl; lia|]. split; [simpl; lia|].
  apply (chunk_text_returns_on_wide_windows cfg_default sixty "a.pdf" 1 0);
    simpl; lia.
Defined.

(** X2. On a text without any of the terminators [chunk_text] returns
    whatever the overlap below the chunk size: every window is cut at
    its full size. *)
Theorem chunk_text_returns_on_plain_text cfg t fname page offset :
  0 <= chunk_overlap cfg < chunk_size cfg -> no_terminator t = true ->
  exists chunks, forall fuel, (length t < fuel)%nat ->
    chunk_text fuel cfg t fname page offset = Some chunks.
Proof.
  intros Hcfg Hn.
  destruct (chunk_text_returns_without_terminators cfg t fname page offset Hcfg)
    as [chunks H]; [intros p; now apply no_terminator_spec|].
  exists chunks. intros fuel Hf.
  apply (chunk_text_more_fuel _ _ _ _ _ _ _ _ H). lia.
Qed.

Lemma chunk_text_returns_on_plain_text_witness :
  0 <= chunk_overlap cfg_narrow < chunk_size cfg_narrow
  /\ no_terminator sixty = true
  /\ exists chunks, forall fuel, (length sixty < fuel)%nat ->
       chunk_text fuel cfg_narrow sixty "a.pdf" 1 0 = Some chunks.
Proof.
  split; [simpl; lia|]. split; [vm_compute; reflexivity|].
  apply (chunk_text_returns_on_plain_text cfg_narrow sixty "a.pdf" 1 0);
    [simpl; lia|vm_compute; reflexivity].
Defined.

(** *** The chunks returned *)

(** X3. Every chunk [chunk_text] returns names the file and the page it
    was given; its text is the slice of its span with the white space at
    both ends removed, and has more than 50 and at most [chunk_size]
    characters. *)
Theorem chunk_text_content cfg t fname page offset fuel chunks :
  0 <= chunk_overlap cfg < chunk_size cfg ->
  chunk_text fuel cfg t fname page offset = Some chunks ->
  Forall (fun c => cut_from t fname page c /\ trimmed (text c)
                   /\ len (text c) <= chunk_size cfg) chunks.
Proof.
  intros Hcfg H. apply chunk_text_emitted in H as [-> _].
  pose proof (emitted_cut_from fuel cfg t fname page offset) as H1.
  pose proof (emitted_spans cfg t fname page offset Hcfg fuel) as H2.
  rewrite Forall_forall in *. intros c Hc.
  destruct (H1 c Hc) as (Hcut & Htrim & _).
  destruct (H2 c Hc) as (Hs & _ & He & _).
  split; [exact Hcut|]. split; [exact Htrim|].
  destruct Hcut as (_ & _ & -> & _).
  eapply Z.le_trans; [apply strip_len|].
  eapply Z.le_trans; [apply slice_len_le; lia|lia].
Qed.

Lemma chunk_text_content_witness :
  0 <= chunk_overlap cfg_default < chunk_size cfg_default
  /\ exists chunks,
       chunk_text 3 cfg_default long_page "a.pdf" 1 0 = Some chunks
       /\ Forall (fun c => cut_from long_page "a.pdf" 1 c /\ trimmed (text c)
                           /\ len (text c) <= chunk_size cfg_default) chunks.
Proof.
  split; [simpl; lia|]. eexists. split; [vm_compute; reflexivity|].
  apply (chunk_text_content cfg_default long_page "a.pdf" 1 0 3);
    [simpl; lia|vm_compute; reflexivity].
Defined.

(** X4. The excerpt of a returned chunk is its text when that has at
    most 100 characters, and else the first 100 characters of the text
    followed by three full stops, 103 characters in all. *)
Theorem chunk_text_excerpt cfg t fname page offset fuel chunks :
  chunk_text fuel cfg t fname page offset = Some chunks ->
  Forall (fun c =>
            (len (text c) <= 100 -> excerpt c = text c)
            /\ (100 < len (text c) ->
                excerpt c = take 100 (text c) ++ of_string "..."
                /\ len (excerpt c) = 103)) chunks.
Proof.
  intros H. apply chunk_text_emitted in H as [-> _].
  generalize (emitted_cut_from fuel cfg t fname page offset).
  apply Forall_impl. intros c (_ & _ & He). unfold excerpted in He.
  destruct (100 <? len (text c)) eqn:X; of_bool; split; intros Hl; try lia.
  - rewrite (slice_prefix _ 100) in He by lia.
    change (Z.to_nat 100) with 100%nat in He. split; [exact He|].
    rewrite He, len_app. unfold len in *. rewrite length_take.
    change (length (of_string "...")) with 3%nat. lia.
  - exact He.
Qed.

Lemma chunk_text_excerpt_witness :
  exists chunks,
    chunk_text 3 cfg_default long_page "a.pdf" 1 0 = Some chunks
    /\ Forall (fun c =>
                 (len (text c) <= 100 -> excerpt c = text c)
                 /\ (100 < len (text c) ->
                     excerpt c = take 100 (text c) ++ of_string "..."
                     /\ len (excerpt c) = 103)) chunks.
Proof.
  eexists. split; [vm_compute; reflexivity|].
  apply (chunk_text_excerpt cfg_default long_page "a.pdf" 1 0 3).
  vm_compute. reflexivity.
Defined.

(** X5. The ids of the chunks of one call count up from [chunk_offset],
    whatever the chunk size and the overlap. *)
Theorem chunk_text_ids_from_offset cfg t fname page offset fuel chunks :
  chunk_text fuel cfg t fname page offset = Some chunks ->
  map chunk_id chunks
  = map (fun i => offset + Z.of_nat i) (seq 0 (length chunks)).
Proof.
  intros H. apply chunk_text_emitted in H as [-> _].
  apply counts_from_ids, emitted_counts.
Qed.

Lemma chunk_text_ids_from_offset_witness :
  exists chunks,
    chunk_text 3 cfg_default long_page "a.pdf" 1 7 = Some chunks
    /\ map chunk_id chunks
       = map (fun i => 7 + Z.of_nat i) (seq 0 (length chunks)).
Proof.
  eexists. split; [vm_compute; reflexivity|].
  apply (chunk_text_ids_from_offset cfg_default long_page "a.pdf" 1 7 3).
  vm_compute. reflexivity.
Defined.

(** X6. A text of at most 50 characters yields no chunk, whatever the
    configuration: what is left of a window after trimming is never
    longer than the text. On the empty text the call returns the empty
    list without entering the loop. *)
Theorem chunk_text_short cfg t fname page offset fuel :
  len t <= 50 ->
  (forall chunks,
     chunk_text fuel cfg t fname page offset = Some chunks -> chunks = [])
  /\ (t = [] -> chunk_text (S fuel) cfg t fname page offset = Some []).
Proof.
  intros Hl. split; [|now intros ->].
  intros chunks H. apply chunk_text_emitted in H as [-> _].
  pose proof (emitted_cut_from fuel cfg t fname page offset) as H.
  destruct (emitted fuel cfg t fname page offset) as [|c cs]; [reflexivity|].
  exfalso. apply Forall_inv in H as ((_ & _ & Ht & H50) & _).
  rewrite Ht in H50.
  apply (Z.lt_irrefl 50). eapply Z.lt_le_trans; [exact H50|].
  eapply Z.le_trans; [apply strip_len|].
  eapply Z.le_trans; [apply slice_len_whole|exact Hl].
Qed.

Lemma chunk_text_short_witness :
  len short_page <= 50
  /\ chunk_text 2 cfg_default short_page "a.pdf" 1 0 = Some []
  /\ (forall chunks,
        chunk_text 2 cfg_default short_page "a.pdf" 1 0 = Some chunks ->
        chunks = [])
  /\ (short_page = [] ->
      chunk_text 3 cfg_default short_page "a.pdf" 1 0 = Some []).
Proof.
  split; [vm_compute; discriminate|]. split; [vm_compute; reflexivity|].
  apply (chunk_text_short cfg_default short_page "a.pdf" 1 0 2).
  vm_compute. discriminate.
Defined.


(** X7. The span of a returned chunk is at most [chunk_size] characters
    wide and at least [chunk_size - 99]: a window is shortened only to a
    terminator that begins among its last 100 characters. *)
Theorem chunk_text_span_width cfg t fname page offset fuel chunks :
  0 <= chunk_overlap cfg < chunk_size cfg ->
  chunk_text fuel cfg t fname page offset = Some chunks ->
  Forall (fun c => chunk_size cfg - 99 <= char_end c - char_start c
                   <= chunk_size cfg) chunks.
Proof.
  intros Hcfg H. apply chunk_text_emitted in H as [-> _].
  generalize (emitted_spans cfg t fname page offset Hcfg fuel).
  apply Forall_impl. intros c (Hs & _ & He & _ & [Hw _] & _).
  split; [|lia]. rewrite Hw.
  assert (Hc : cut cfg t (char_start c) (window_end cfg t (char_start c))).
  { apply window_end_cut; [exact Hcfg|unfold search_start; lia|lia]. }
  destruct Hc as [X|X N|p X P (_ & V & _) M]; unfold search_start in *; lia.
Qed.

Lemma chunk_text_span_width_witness :
  0 <= chunk_overlap cfg_default < chunk_size cfg_default
  /\ exists chunks,
       chunk_text 3 cfg_default long_page "a.pdf" 1 0 = Some chunks
       /\ Forall (fun c => chunk_size cfg_default - 99
                           <= char_end c - char_start c
                           <= chunk_size cfg_default) chunks.
Proof.
  split; [simpl; lia|]. eexists. split; [vm_compute; reflexivity|].
  apply (chunk_text_span_width cfg_default long_page "a.pdf" 1 0 3);
    [simpl; lia|vm_compute; reflexivity].
Defined.

Lemma strongly_sorted_snoc {A} (R : A -> A -> Prop) l x :
  StronglySorted R l -> Forall (fun y => R y x) l ->
  StronglySorted R (l ++ [x]).
Proof.
  induction l as [|y l IH]; simpl; intros Hs Hall.
  - repeat constructor.
  - inversion Hs; subst. inversion Hall; subst. constructor.
    + now apply IH.
    + apply Forall_app. split; [assumption|]. now constructor.
Qed.

(** With wide windows the loop moves forward: each chunk lies behind
    the current start, up to the overlap. *)
Lemma body_advances cfg t fname page st :
  0 <= chunk_overlap cfg -> chunk_overlap cfg + 100 <= chunk_size cfg ->
  0 <= ls_start st
  /\ StronglySorted (follows (chunk_overlap cfg)) (ls_chunks st)
  /\ Forall (fun c => char_start c < ls_start st
                      /\ char_end c - chunk_overlap cfg <= ls_start st)
       (ls_chunks st) ->
  let st' := body cfg t fname page st in
  0 <= ls_start st'
  /\ StronglySorted (follows (chunk_overlap cfg)) (ls_chunks st')
  /\ Forall (fun c => char_start c < ls_start st'
                      /\ char_end c - chunk_overlap cfg <= ls_start st')
       (ls_chunks st').
Proof.
  intros H0 Hw (Hs & Hsort & Hall). cbn zeta.
  assert (Hcfg : 0 <= chunk_overlap cfg < chunk_size cfg) by lia.
  pose proof (wide_window_advances cfg t Hcfg (ls_start st) Hw Hs) as Hadv.
  rewrite (body_start cfg t fname page st).
  assert (Hold : Forall (fun c => char_start c < next_start cfg t (ls_start st)
                     /\ char_end c - chunk_overlap cfg
                        <= next_start cfg t (ls_start st)) (ls_chunks st)).
  { revert Hall. apply Forall_impl. intros c. lia. }
  split; [lia|].
  destruct (body_appends cfg t fname page st)
    as [->|(c & -> & Hcs & Hce & _)]; [now split|].
  split.
  - apply strongly_sorted_snoc; [exact Hsort|].
    revert Hall. apply Forall_impl. intros c'. unfold follows. lia.
  - apply Forall_app. split; [exact Hold|].
    constructor; [|constructor]. unfold next_start in *. lia.
Qed.

(** X8. Where the chunk size exceeds the overlap by 100 or more, each
    returned chunk starts behind the start of every chunk before it and
    shares at most [chunk_overlap] characters with it. *)
Theorem chunk_text_chunks_advance cfg t fname page offset fuel chunks :
  0 <= chunk_overlap cfg -> chunk_overlap cfg + 100 <= chunk_size cfg ->
  chunk_text fuel cfg t fname page offset = Some chunks ->
  StronglySorted (follows (chunk_overlap cfg)) chunks.
Proof.
  intros H0 Hw H. apply chunk_text_emitted in H as [-> _].
  unfold emitted.
  apply (chunk_loop_invariant cfg t fname page
           (fun st => 0 <= ls_start st
              /\ StronglySorted (follows (chunk_overlap cfg)) (ls_chunks st)
              /\ Forall (fun c => char_start c < ls_start st
                           /\ char_end c - chunk_overlap cfg <= ls_start st)
                   (ls_chunks st))).
  - intros st HI _. now apply body_advances.
  - simpl. split; [lia|]. split; constructor.
Qed.

Lemma chunk_text_chunks_advance_witness :
  0 <= chunk_overlap cfg_default
  /\ chunk_overlap cfg_default + 100 <= chunk_size cfg_default
  /\ exists chunks,
       chunk_text 3 cfg_default long_page "a.pdf" 1 0 = Some chunks
       /\ StronglySorted (follows (chunk_overlap cfg_default)) chunks.
Proof.
  split; [simpl; lia|]. split; [simpl; lia|].
  eexists. split; [vm_compute; reflexivity|].
  apply (chunk_text_chunks_advance cfg_default long_page "a.pdf" 1 0 3);
    [simpl; lia|simpl; lia|vm_compute; reflexivity].
Defined.

End ContentFacts.

(** ** The pages and the chunks of a corpus *)

Module CorpusFacts.

Import Py Ingest PyFacts ChunkSpec ChunkFacts ContentSpec IngestSpec.
Import Examples Scenarios ContentFacts.

(** *** Text extraction *)

Lemma enumerate_In {A} (xs : list A) : forall k n x,
  In (n, x) (enumerate k xs) <-> k <= n /\ xs !! Z.to_nat (n - k) = Some x.
Proof.
  induction xs as [|y xs IH]; intros k n x; simpl.
  - split; [tauto|]. intros [_ H]. discriminate.
  - rewrite IH. split.
    + intros [[= <- <-]|[H1 H2]].
      * rewrite Z.sub_diag. split; [lia|reflexivity].
      * split; [lia|].
        replace (Z.to_nat (n - k)) with (S (Z.to_nat (n - (k + 1)))) by lia.
        exact H2.
    + intros [H1 H2]. destruct (Z.eq_dec n k) as [->|Hne].
      * rewrite Z.sub_diag in H2. injection H2 as ->. now left.
      * right. split; [lia|].
        replace (Z.to_nat (n - k)) with (S (Z.to_nat (n - (k + 1)))) in H2
          by lia.
        exact H2.
Qed.

Lemma enumerate_sorted {A} (xs : list A) : forall k,
  StronglySorted (fun p q : Z * A => p.1 < q.1) (enumerate k xs).
Proof.
  induction xs as [|y xs IH]; intros k; simpl; constructor; [apply IH|].
  apply Forall_forall. intros [n x] H. apply enumerate_In in H. simpl. lia.
Qed.

Lemma strongly_sorted_filter {A} (R : A -> A -> Prop) (f : A -> bool) l :
  StronglySorted R l -> StronglySorted R (filter f l).
Proof.
  induction 1 as [|x l Hs IH Hall]; simpl; [constructor|].
  destruct (f x); [|exact IH]. constructor; [exact IH|].
  apply Forall_forall. intros y Hy. apply filter_In in Hy as [Hy _].
  exact (proj1 (Forall_forall _ _) Hall y Hy).
Qed.

(** X9. The pages [extract_text_from_pdf] returns are the pages of the
    document that have text, each with its position in the document,
    counted from 1; so the page numbers ascend, and an empty page is
    left out without the numbers of the later pages moving up. A file
    that cannot be read yields no page. *)
Theorem extract_text_page_numbers content :
  (forall n txt,
     In (n, txt) (extract_text_from_pdf content)
     <-> exists texts, content = Pages texts /\ 1 <= n
           /\ texts !! Z.to_nat (n - 1) = Some txt /\ txt <> [])
  /\ StronglySorted (fun p q => p.1 < q.1) (extract_text_from_pdf content).
Proof.
  destruct content as [|texts]; simpl.
  - split; [|constructor]. intros n txt. split; [tauto|].
    intros (texts & [=] & _).
  - split; [|apply strongly_sorted_filter, enumerate_sorted].
    intros n txt. rewrite filter_In, enumerate_In. simpl.
    rewrite negb_true_iff, bool_decide_eq_false. split.
    + intros [[H1 H2] H3]. now exists texts.
    + intros (texts' & [= <-] & H1 & H2 & H3). now repeat split.
Qed.

(** *** The loops of [process_pdfs] *)

Lemma process_files_app fuel cfg fs1 fs2 : forall acc off,
  process_files fuel cfg (fs1 ++ fs2) acc off
  = r ← process_files fuel cfg fs1 acc off;
    process_files fuel cfg fs2 r.1 r.2.
Proof.
  induction fs1 as [|[name content] fs1 IH]; intros acc off; simpl;
    [reflexivity|].
  destruct (process_pages fuel cfg name (extract_text_from_pdf content) acc off)
    as [r| |]; simpl; [apply IH|reflexivity|reflexivity].
Qed.

Lemma process_files_skip fuel cfg fs1 fs2 name content acc off :
  extract_text_from_pdf content = [] ->
  process_files fuel cfg (fs1 ++ (name, content) :: fs2) acc off
  = process_files fuel cfg (fs1 ++ fs2) acc off.
Proof.
  intros He. rewrite !process_files_app.
  destruct (process_files fuel cfg fs1 acc off) as [r| |]; simpl;
    try reflexivity.
  now rewrite He.
Qed.

(** X10. A file from which no page is extracted, be it unreadable or
    without text, changes nothing in the result of [process_pdfs]: the
    other files yield the same chunks with the same ids. Alone in its
    directory it yields the empty list. *)
Theorem process_pdfs_skips_unreadable fuel cfg before after name content :
  extract_text_from_pdf content = [] ->
  process_pdfs fuel cfg (Some (before ++ (name, content) :: after))
  = match before ++ after with
    | [] => Ok []
    | others => process_pdfs fuel cfg (Some others)
    end.
Proof.
  intros He. unfold process_pdfs.
  rewrite (process_files_skip _ _ _ _ _ _ _ _ He).
  destruct (before ++ (name, content) :: after) as [|f' fs'] eqn:E2.
  { symmetry in E2. now apply app_cons_not_nil in E2. }
  now destruct (before ++ after) as [|f fs].
Qed.

Lemma process_pdfs_skips_unreadable_witness :
  extract_text_from_pdf Unreadable = []
  /\ process_pdfs 2 cfg_default
       (Some ([("a.pdf", Pages [sixty])] ++ ("b.pdf", Unreadable)
                :: [("c.pdf", Pages [sixty_b])]))
     = match [("a.pdf", Pages [sixty])] ++ [("c.pdf", Pages [sixty_b])] with
       | [] => Ok []
       | others => process_pdfs 2 cfg_default (Some others)
       end.
Proof.
  split; [reflexivity|].
  apply (process_pdfs_skips_unreadable 2 cfg_default
           [("a.pdf", Pages [sixty])] [("c.pdf", Pages [sixty_b])]
           "b.pdf" Unreadable).
  reflexivity.
Defined.

(** *** Where the chunks of a corpus come from *)

Lemma corpus_pages_In pdf_files name pg txt :
  In (name, pg, txt) (corpus_pages pdf_files)
  <-> exists content, In (name, content) pdf_files
        /\ In (pg, txt) (extract_text_from_pdf content).
Proof.
  unfold corpus_pages. rewrite in_flat_map. split.
  - intros ([name' content] & Hf & Hp). apply in_map_iff in Hp.
    destruct Hp as ([pg' txt'] & [= <- <- <-] & Hp). now exists content.
  - intros (content & Hf & Hp). exists (name, content). split; [exact Hf|].
    apply in_map_iff. now exists (pg, txt).
Qed.

Lemma process_pages_from fuel cfg fname (P : DocumentChunk -> Prop) pages :
  forall acc off r,
  process_pages fuel cfg fname pages acc off = Ok r ->
  (forall pg txt c, In (pg, txt) pages -> cut_from txt fname pg c -> P c) ->
  Forall P acc -> Forall P r.1.
Proof.
  induction pages as [|[pg txt] pages IH]; intros acc off r; simpl.
  - now intros [= <-].
  - destruct (chunk_text fuel cfg txt fname pg off) as [chunks|] eqn:E;
      [|discriminate].
    intros H HP Hacc. apply (IH _ _ _ H).
    + intros pg' txt' c Hin. apply HP. now right.
    + apply Forall_app. split; [exact Hacc|].
      apply chunk_text_emitted in E as [-> _].
      generalize (emitted_cut_from fuel cfg txt fname pg off).
      apply Forall_impl. intros c (Hc & _). apply (HP pg txt); [now left|exact Hc].
Qed.

Lemma process_files_from fuel cfg (P : DocumentChunk -> Prop) pdf_files :
  forall acc off r,
  process_files fuel cfg pdf_files acc off = Ok r ->
  (forall name pg txt c, In (name, pg, txt) (corpus_pages pdf_files) ->
     cut_from txt name pg c -> P c) ->
  Forall P acc -> Forall P r.1.
Proof.
  induction pdf_files as [|[name content] pdf_files IH]; intros acc off r; simpl.
  - now intros [= <-].
  - destruct (process_pages fuel cfg name (extract_text_from_pdf content) acc off)
      as [r1| |] eqn:E; simpl; try discriminate.
    intros H HP Hacc. apply (IH _ _ _ H).
    + intros name' pg txt c Hin. apply HP. apply in_or_app. now right.
    + apply (process_pages_from _ _ _ _ _ _ _ _ E); [|exact Hacc].
      intros pg txt c Hin. apply HP. apply in_or_app. left.
      apply in_map_iff. now exists (pg, txt).
Qed.

(** X11. Every chunk of a corpus names a file of the directory and a
    page extracted from it, and its text is the trimmed slice of its
    span of the text of that page, of more than 50 characters. *)
Theorem process_pdfs_provenance fuel cfg pdf_files chunks :
  process_pdfs fuel cfg (Some pdf_files) = Ok chunks ->
  Forall (fun c =>
            exists txt,
              In (filename c, page_num c, txt) (corpus_pages pdf_files)
              /\ text c = strip (slice txt (char_start c) (char_end c))
              /\ 50 < len (text c)) chunks.
Proof.
  unfold process_pdfs. destruct pdf_files as [|f fs]; [discriminate|].
  destruct (process_files fuel cfg (f :: fs) [] 0) as [r| |] eqn:E;
    simpl; try discriminate.
  intros [= <-]. apply (process_files_from _ _ _ _ _ _ _ E); [|constructor].
  intros name pg txt c Hin (<- & <- & Ht & H50). now exists txt.
Qed.

Lemma process_pdfs_provenance_witness :
  exists chunks,
    process_pdfs 2 cfg_default (Some [("a.pdf", Pages [sixty; []; sixty_b])])
    = Ok chunks
    /\ Forall (fun c =>
            exists txt,
              In (filename c, page_num c, txt)
                (corpus_pages [("a.pdf", Pages [sixty; []; sixty_b])])
              /\ text c = strip (slice txt (char_start c) (char_end c))
              /\ 50 < len (text c)) chunks.
Proof.
  eexists. split; [vm_compute; reflexivity|].
  apply (process_pdfs_provenance 2 cfg_default
           [("a.pdf", Pages [sixty; []; sixty_b])]).
  vm_compute. reflexivity.
Defined.

(** *** Runs of [main] that end *)

Lemma page_fuel_bound pdf_files name pg txt :
  In (name, pg, txt) (corpus_pages pdf_files) ->
  (length txt < page_fuel pdf_files)%nat.
Proof.
  unfold page_fuel. induction (corpus_pages pdf_files) as [|p ps IH]; simpl;
    [tauto|].
  intros [->|H]; [simpl; lia|]. specialize (IH H). lia.
Qed.

Lemma process_pages_returns fuel cfg fname pages :
  0 <= chunk_overlap cfg -> chunk_overlap cfg + 100 <= chunk_size cfg ->
  (forall pg txt, In (pg, txt) pages -> (length txt < fuel)%nat) ->
  forall acc off, exists r, process_pages fuel cfg fname pages acc off = Ok r.
Proof.
  intros H0 Hw. induction pages as [|[pg txt] pages IH]; intros Hf acc off;
    simpl; [eauto|].
  destruct (chunk_text_returns_when_wide cfg txt fname pg off) as [chunks H];
    [lia|exact Hw|].
  rewrite (chunk_text_more_fuel _ _ _ _ _ _ fuel _ H).
  - apply IH. intros pg' txt' Hin. apply (Hf pg'). now right.
  - specialize (Hf pg txt (or_introl eq_refl)). lia.
Qed.

Lemma process_files_returns fuel cfg pdf_files :
  0 <= chunk_overlap cfg -> chunk_overlap cfg + 100 <= chunk_size cfg ->
  (forall name pg txt, In (name, pg, txt) (corpus_pages pdf_files) ->
     (length txt < fuel)%nat) ->
  forall acc off, exists r, process_files fuel cfg pdf_files acc off = Ok r.
Proof.
  intros H0 Hw.
  induction pdf_files as [|[name content] pdf_files IH]; intros Hf acc off;
    simpl; [eauto|].
  destruct (process_pages_returns fuel cfg name (extract_text_from_pdf content)
              H0 Hw) with (acc := acc) (off := off) as [r ->].
  - intros pg txt Hin. apply (Hf name pg). apply in_or_app. left.
    apply in_map_iff. now exists (pg, txt).
  - simpl. apply IH. intros name' pg txt Hin. apply (Hf name' pg).
    apply in_or_app. now right.
Qed.

Lemma process_pdfs_returns fuel cfg data_dir :
  0 <= chunk_overlap cfg -> chunk_overlap cfg + 100 <= chunk_size cfg ->
  (page_fuel (default [] data_dir) <= fuel)%nat ->
  process_pdfs fuel cfg data_dir <> Diverge.
Proof.
  intros H0 Hw Hf. unfold process_pdfs.
  destruct data_dir as [[|f files]|]; try discriminate.
  destruct (process_files_returns fuel cfg (f :: files) H0 Hw)
    with (acc := @nil DocumentChunk) (off := 0) as [r ->]; [|discriminate].
  intros name pg txt Hin. apply page_fuel_bound in Hin. simpl in Hf. lia.
Qed.

Section Runs.

Variable normalize_L2 : list Q -> list Q.
Variable hub : string -> option Model.
Variable env_embedding_model : option string.
Variable now : nat -> string.
Variable disk : Disk.

#[local] Abbreviation main :=
  (main normalize_L2 hub env_embedding_model now disk).

Lemma new_pipeline_config name cfg p :
  new_pipeline hub env_embedding_model name cfg = Ok p -> config p = cfg.
Proof.
  unfold new_pipeline. destruct (hub _); [|discriminate]. now intros [= <-].
Qed.

(** X12. Where the chunk size exceeds the overlap by 100 or more,
    [main] ends with a status on every directory: one round per
    character of the longest page, and one more, suffice for every
    loop of the chunker. *)
Theorem main_ends_on_wide_windows fuel args fs :
  0 <= arg_chunk_overlap args ->
  arg_chunk_overlap args + 100 <= arg_chunk_size args ->
  (page_fuel (default [] (arg_data_dir args)) <= fuel)%nat ->
  exists status fs', main fuel args fs = Some (status, fs').
Proof.
  intros H0 Hw Hf. unfold Ingest.main, prepare.
  destruct (new_pipeline hub env_embedding_model _ _) as [p| |] eqn:Hp.
  - unfold mbind, outcome_bind. cbn beta iota.
    rewrite (new_pipeline_config _ _ _ Hp).
    destruct (process_pdfs fuel _ (arg_data_dir args)) as [chunks| |] eqn:Hc;
      [|eauto|].
    + destruct chunks as [|c cs]; [eauto|].
      destruct (build_faiss_index normalize_L2 p _) as [idx| |] eqn:Hb;
        [|eauto|].
      * destruct (save_index _ _ _ _ _ _ _) as [fs' [[]| |]]; eauto.
      * unfold build_faiss_index, Faiss.add in Hb.
        destruct (forallb _ _); discriminate.
    + exfalso. revert Hc. now apply process_pdfs_returns.
  - eauto.
  - unfold new_pipeline in Hp. destruct (hub _); discriminate.
Qed.

End Runs.

Lemma main_ends_on_wide_windows_witness :
  0 <= arg_chunk_overlap toy_args
  /\ arg_chunk_overlap toy_args + 100 <= arg_chunk_size toy_args
  /\ (page_fuel (default [] (arg_data_dir toy_args)) <= 61)%nat
  /\ exists status fs',
       Ingest.main keep_row toy_hub None today always 61 toy_args empty_fs
       = Some (status, fs').
Proof.
  split; [simpl; lia|]. split; [simpl; lia|].
  split; [vm_compute; lia|].
  apply (main_ends_on_wide_windows keep_row toy_hub None today always 61
           toy_args empty_fs); [simpl; lia|simpl; lia|vm_compute; lia].
Defined.

End CorpusFacts.

(** ** The summary of an index *)

Module SummaryFacts.

Import Py Ingest PyFacts ChunkSpec ChunkFacts ContentSpec IngestSpec.
Import Examples Scenarios ContentFacts.

(** The entry of [f] after the grouping loop has run over [chunks] from
    the dictionary [docs]. *)
Lemma group_fold f chunks : forall docs : gmap string (Z * gset Z),
  fold_left
    (fun docs c =>
       let entry := default (0, ∅) (docs !! filename c) in
       <[filename c := (entry.1 + 1, {[page_num c]} ∪ entry.2)]> docs)
    chunks docs !! f
  = match chunks_of f chunks with
    | [] => docs !! f
    | mine =>
        let entry := default (0, ∅) (docs !! f) in
        Some (entry.1 + len mine, list_to_set (map page_num mine) ∪ entry.2)
    end.
Proof.
  induction chunks as [|c chunks IH]; intros docs; [reflexivity|].
  cbn [fold_left]. rewrite IH. unfold chunks_of. cbn [filter].
  destruct (bool_decide (filename c = f)) eqn:E.
  - apply bool_decide_eq_true in E. subst f. rewrite lookup_insert_eq.
    cbn [default fst snd].
    assert (Hpair : forall (a a' : Z) (b b' : gset Z),
              a = a' -> b = b' -> Some (a, b) = Some (a', b'))
      by (intros; congruence).
    destruct (filter _ chunks) as [|c' mine]; cbn zeta.
    + apply Hpair; unfold id; cbn [fst snd];
        [unfold len; simpl length; lia|].
      cbn [map]. now rewrite list_to_set_cons, list_to_set_nil, (right_id_L ∅ (∪)).
    + apply Hpair; unfold id; cbn [fst snd];
        [unfold len; simpl length; lia|].
      cbn [map]. rewrite (list_to_set_cons (page_num c)).
      now rewrite (assoc_L (∪)), (comm_L (∪) _ {[page_num c]}).
  - apply bool_decide_eq_false in E. rewrite lookup_insert_ne by exact E.
    reflexivity.
Qed.


Lemma chunks_of_nil f chunks :
  chunks_of f chunks = [] <-> ~ In f (map filename chunks).
Proof.
  unfold chunks_of. split.
  - intros H Hin. apply in_map_iff in Hin as (c & <- & Hc).
    assert (Hf : In c (filter (fun c' => bool_decide (filename c' = filename c))
                         chunks)).
    { apply filter_In. split; [exact Hc|]. now apply bool_decide_eq_true. }
    rewrite H in Hf. exact Hf.
  - intros H. destruct (filter _ chunks) as [|c mine] eqn:E; [reflexivity|].
    exfalso. apply H.
    assert (Hc : In c (filter (fun c' => bool_decide (filename c' = f)) chunks))
      by (rewrite E; now left).
    apply filter_In in Hc as [Hc Hf]. apply bool_decide_eq_true in Hf.
    apply in_map_iff. now exists c.
Qed.

(** X13. The summary lists a document exactly when some chunk names it,
    with the number of its chunks and the set of their pages. *)
Theorem summary_document_entry now p chunks f :
  sm_documents (make_summary now p chunks) !! f
  = match chunks_of f chunks with
    | [] => None
    | mine => Some (len mine, list_to_set (map page_num mine))
    end.
Proof.
  unfold make_summary, group_by_document. cbn [sm_documents].
  rewrite group_fold, lookup_empty.
  destruct (chunks_of f chunks) as [|c mine]; [reflexivity|].
  cbn [default from_option fst snd].
  now rewrite (right_id_L ∅ (∪)), Z.add_0_l.
Qed.

(** A document is listed exactly when some chunk names it. *)
Lemma group_fold_listed chunks f :
  is_Some (group_by_document chunks !! f) <-> In f (map filename chunks).
Proof.
  unfold group_by_document. rewrite group_fold, lookup_empty.
  pose proof (chunks_of_nil f chunks) as Hn.
  destruct (chunks_of f chunks) as [|c mine].
  - split; [intros [x [=]]|]. intros Hin. exfalso. now apply Hn.
  - split; [|eauto]. intros _.
    destruct (in_dec String.string_dec f (map filename chunks)) as [Hin|Hin];
      [exact Hin|].
    apply Hn in Hin. discriminate.
Qed.

Lemma documents_total_insert (docs : gmap string (Z * gset Z)) f entry :
  documents_total (<[f := entry]> docs)
  = entry.1 - (default (0, ∅) (docs !! f)).1 + documents_total docs.
Proof.
  unfold documents_total.
  assert (Hcomm : forall (m : gmap string (Z * gset Z)) (j1 j2 : string)
            (z1 z2 : Z * gset Z) (y : Z),
            j1 <> j2 -> m !! j1 = Some z1 -> m !! j2 = Some z2 ->
            z1.1 + (z2.1 + y) = z2.1 + (z1.1 + y)) by (intros; lia).
  destruct (docs !! f) as [old|] eqn:E; cbn [default from_option].
  - rewrite <- (insert_delete_eq docs).
    rewrite (map_fold_insert_L _ _ _ _ _ (Hcomm _)) by apply lookup_delete_eq.
    rewrite (map_fold_delete_L _ _ f old docs (Hcomm _) E). unfold id. lia.
  - rewrite (map_fold_insert_L _ _ _ _ _ (Hcomm _)) by exact E. simpl. lia.
Qed.

Lemma group_fold_total chunks : forall docs : gmap string (Z * gset Z),
  documents_total
    (fold_left
       (fun docs c =>
          let entry := default (0, ∅) (docs !! filename c) in
          <[filename c := (entry.1 + 1, {[page_num c]} ∪ entry.2)]> docs)
       chunks docs)
  = documents_total docs + len chunks.
Proof.
  induction chunks as [|c chunks IH]; intros docs.
  - simpl. unfold len. simpl. lia.
  - cbn [fold_left]. rewrite IH, documents_total_insert. cbn [fst].
    unfold len. simpl length. lia.
Qed.

(** X14. The number of documents of the summary is the number of
    distinct file names among the chunks, the documents listed are these
    names, and their chunk counts add up to the number of chunks. *)
Theorem summary_counts now p chunks :
  let sm := make_summary now p chunks in
  dom (sm_documents sm) = list_to_set (map filename chunks)
  /\ sm_num_documents sm
     = Z.of_nat (size (list_to_set (map filename chunks) : gset string))
  /\ documents_total (sm_documents sm) = sm_num_chunks sm.
Proof.
  cbn zeta. unfold make_summary. cbn [sm_documents sm_num_documents sm_num_chunks].
  assert (Hdom : dom (group_by_document chunks)
                 = (list_to_set (map filename chunks) : gset string)).
  { apply set_eq. intros f.
    rewrite elem_of_dom, group_fold_listed, elem_of_list_to_set.
    symmetry. apply list_elem_of_In. }
  split; [exact Hdom|]. split.
  - now rewrite <- Hdom, size_dom.
  - unfold group_by_document. rewrite group_fold_total.
    unfold documents_total. now rewrite map_fold_empty.
Qed.

End SummaryFacts.

(** ** From the ingestion to the answers *)

Module AnswerFacts.

Import Py Ingest Server Status PyFacts ChunkFacts IngestSpec ServiceSpec.
Import AnswerSpec Examples Scenarios IngestFacts ServiceFacts.

(** *** Python indexing *)

Lemma py_index_indexes {A} (xs : list A) i :
  match py_index xs i with
  | Some _ => - len xs <= i < len xs
  | None => ~ (- len xs <= i < len xs)
  end.
Proof.
  unfold py_index.
  destruct (i <? 0) eqn:X; of_bool.
  - destruct (0 <=? i + len xs) eqn:Y; destruct (i + len xs <? len xs) eqn:Z;
      of_bool; cbn [andb]; try lia.
    destruct (lookup_lt_is_Some_2 xs (Z.to_nat (i + len xs))) as [c ->];
      [unfold len in *; lia|lia].
  - destruct (0 <=? i) eqn:Y; destruct (i <? len xs) eqn:Z;
      of_bool; cbn [andb]; try lia.
    destruct (lookup_lt_is_Some_2 xs (Z.to_nat i)) as [c ->];
      [unfold len in *; lia|lia].
Qed.

Lemma indexes_spec (chunks : list DocumentChunk) i :
  indexes chunks i = true <-> - len chunks <= i < len chunks.
Proof. unfold indexes. rewrite andb_true_iff, Z.leb_le, Z.ltb_lt. tauto. Qed.

(** The loop of [retrieve] on loaded metadata: it appends the results of
    the hits in their order, and raises at the first label that is
    neither -1 nor an index of the chunks. *)
Lemma build_results_spec md thr hits : forall acc,
  build_results (Some md) thr hits acc
  = if forallb (fun h => (h.2 =? -1) || indexes (md_chunks md) h.2) hits
    then Ok (acc ++ omap (hit_result (md_chunks md) thr) hits)
    else Raise IndexError.
Proof.
  induction hits as [|[dist idx] hits IH]; intros acc.
  - simpl. now rewrite app_nil_r.
  - change (omap ?g ((dist, idx) :: hits))
      with (match g (dist, idx) with
            | Some y => y :: omap g hits
            | None => omap g hits
            end).
    cbn [build_results forallb fst snd]. unfold hit_result at 1.
    cbn [fst snd].
    destruct (idx =? -1) eqn:X; cbn [orb andb]; [apply IH|].
    unfold chunk_at.
    pose proof (py_index_indexes (md_chunks md) idx) as Hi.
    pose proof (indexes_spec (md_chunks md) idx) as Hx.
    destruct (py_index (md_chunks md) idx) as [c|];
      destruct (indexes (md_chunks md) idx);
      cbn [andb fmap option_fmap option_map].
    + destruct (below dist thr); [apply IH|].
      rewrite IH.
      destruct (forallb (fun h => (h.2 =? -1) || indexes (md_chunks md) h.2)
                  hits); [|reflexivity].
      now rewrite <- app_assoc.
    + apply Hx in Hi. discriminate.
    + exfalso. now apply Hi, Hx.
    + reflexivity.
Qed.

Section Answers.

Variable normalize_L2 : list Q -> list Q.
Variable detect : str -> option string.
Variable search : Faiss.Index -> list Q -> Z -> outcome (list Faiss.hit).

#[local] Abbreviation retrieve := (retrieve normalize_L2 detect search).

(** X16. When every label the search returns is -1 or an index of the
    chunks of the metadata, [retrieve] answers 200 with the results of
    the hits in the order of the search: the chunk a label indexes, with
    the score of the hit, the hits labelled -1 and those below the
    threshold left out; [num_results] is their number. *)
Theorem retrieve_joins_metadata st request m idx md hits :
  st_ready st = true -> st_model st = Some m ->
  st_index st = Some idx -> st_metadata st = Some md ->
  search idx (normalize_L2 (encode m (query request))) (k request) = Ok hits ->
  forallb (fun h => (h.2 =? -1) || indexes (md_chunks md) h.2) hits = true ->
  (retrieve st request).2
  = Http200
      {| rs_query := query request;
         rs_results := omap (hit_result (md_chunks md) (threshold request)) hits;
         rs_num_results :=
           len (omap (hit_result (md_chunks md) (threshold request)) hits);
         rs_detected_language := detect (query request) |}.
Proof.
  intros Hr Hm Hi Hmd Hs Hl. unfold Server.retrieve.
  rewrite Hr, Hm, Hi, Hmd. cbn [negb]. rewrite Hs, build_results_spec, Hl.
  reflexivity.
Qed.

(** X17. When the search returns a label other than -1 that is no index
    of the chunks of the metadata, [retrieve] answers 500 with the
    [IndexError] of the look-up, whatever the score of that hit and the
    threshold. *)
Theorem retrieve_stray_label_fails st request m idx md hits :
  st_ready st = true -> st_model st = Some m ->
  st_index st = Some idx -> st_metadata st = Some md ->
  search idx (normalize_L2 (encode m (query request))) (k request) = Ok hits ->
  forallb (fun h => (h.2 =? -1) || indexes (md_chunks md) h.2) hits = false ->
  (retrieve st request).2 = Http500 IndexError.
Proof.
  intros Hr Hm Hi Hmd Hs Hl. unfold Server.retrieve.
  rewrite Hr, Hm, Hi, Hmd. cbn [negb]. rewrite Hs, build_results_spec, Hl.
  reflexivity.
Qed.

End Answers.

Lemma retrieve_joins_metadata_witness :
  (retrieve keep_row no_detect Faiss.search ready_state query_b).2
  = Http200
      {| rs_query := query query_b;
         rs_results :=
           omap (hit_result (md_chunks toy_metadata) (threshold query_b)) hits_b;
         rs_num_results :=
           len (omap (hit_result (md_chunks toy_metadata) (threshold query_b))
                  hits_b);
         rs_detected_language := no_detect (query query_b) |}.
Proof.
  apply (retrieve_joins_metadata keep_row no_detect Faiss.search ready_state
           query_b toy_model toy_index toy_metadata hits_b);
    vm_compute; reflexivity.
Defined.

Lemma retrieve_stray_label_fails_witness :
  (retrieve keep_row no_detect Faiss.search mixed_state query_b).2
  = Http500 IndexError.
Proof.
  apply (retrieve_stray_label_fails keep_row no_detect Faiss.search mixed_state
           query_b toy_model mixed_index old_metadata hits_b);
    vm_compute; reflexivity.
Defined.

(** *** From [main] to a started service *)

Section RoundTrip.

Variable normalize_L2 : list Q -> list Q.
Variable hub : string -> option Model.
Variable env_embedding_model : option string.
Variable now : nat -> string.
Variable disk : Disk.

#[local] Abbreviation prepare := (prepare normalize_L2 hub env_embedding_model).
#[local] Abbreviation main :=
  (main normalize_L2 hub env_embedding_model now disk).

Lemma prepare_chunks fuel args p chunks index :
  prepare fuel args = Ok (Some (p, chunks, index)) ->
  chunks <> []
  /\ config p = {| chunk_size := arg_chunk_size args;
                   chunk_overlap := arg_chunk_overlap args |}.
Proof.
  unfold Ingest.prepare, new_pipeline.
  destruct (hub _) as [m|]; simpl; [|discriminate].
  destruct (process_pdfs fuel _ (arg_data_dir args)) as [cs| |];
    simpl; try discriminate.
  destruct cs as [|c cs]; [discriminate|].
  destruct (build_faiss_index normalize_L2 _ _) as [idx| |];
    simpl; try discriminate.
  intros [= <- <- <-]. now split.
Qed.

(** X15. After a run of [main] that ends with status 0, a service
    configured with the output directory and a model that loads starts
    and becomes ready with the very index and metadata the run wrote:
    at least one chunk, as many rows as chunks, the dimension and the
    chunking parameters of the run on record. *)
Theorem served_index_is_ingested fuel args fs fs' settings m :
  main fuel args fs = Some (0, fs') ->
  index_path settings = arg_output_dir args ->
  hub (Server.embedding_model settings) = Some m ->
  exists idx md,
    startup_event hub settings fs' initial_state
    = ({| st_index := Some idx; st_metadata := Some md;
          st_model := Some m; st_ready := true |}, Ok ())
    /\ files fs' !! index_file (arg_output_dir args) = Some (IndexFile idx)
    /\ files fs' !! metadata_file (arg_output_dir args) = Some (MetadataFile md)
    /\ 0 < len (md_chunks md)
    /\ Faiss.ntotal idx = len (md_chunks md)
    /\ Faiss.d idx = md_embedding_dim md
    /\ md_chunk_size md = arg_chunk_size args
    /\ md_chunk_overlap md = arg_chunk_overlap args.
Proof.
  unfold Ingest.main. intros H Hpath Hhub.
  destruct (prepare fuel args) as [[[[p chunks] index]|]| |] eqn:Hp;
    try discriminate.
  destruct (save_index now disk p fs index chunks (arg_output_dir args))
    as [fs1 [[]| |]] eqn:Hs; try discriminate.
  injection H as <-. apply save_index_result in Hs. subst fs1.
  destruct (prepare_chunks _ _ _ _ _ Hp) as [Hne Hcfg].
  apply prepare_result in Hp as (_ & _ & Hd & Hrows).
  exists index, (make_metadata now p chunks).
  assert (Hi : forall (fs0 : gmap string File),
            <[summary_file (arg_output_dir args) :=
                SummaryFile (make_summary now p chunks)]>
              (<[metadata_file (arg_output_dir args) :=
                   MetadataFile (make_metadata now p chunks)]>
                 (<[index_file (arg_output_dir args) := IndexFile index]> fs0))
            !! index_file (arg_output_dir args) = Some (IndexFile index)).
  { intros fs0.
    rewrite lookup_insert_ne by (apply not_eq_sym, index_summary_differ).
    rewrite lookup_insert_ne by (apply not_eq_sym, index_metadata_differ).
    apply lookup_insert_eq. }
  assert (Hm : forall (fs0 : gmap string File),
            <[summary_file (arg_output_dir args) :=
                SummaryFile (make_summary now p chunks)]>
              (<[metadata_file (arg_output_dir args) :=
                   MetadataFile (make_metadata now p chunks)]> fs0)
            !! metadata_file (arg_output_dir args)
            = Some (MetadataFile (make_metadata now p chunks))).
  { intros fs0.
    rewrite lookup_insert_ne by (apply not_eq_sym, metadata_summary_differ).
    apply lookup_insert_eq. }
  cbn [files]. split; [|split; [apply Hi|split; [apply Hm|]]].
  - unfold startup_event, load_embedding_model, load_index_and_metadata.
    rewrite Hhub, Hpath. cbn [dirs files st_index st_metadata st_model st_ready
                              initial_state].
    rewrite bool_decide_eq_true_2
      by (apply elem_of_union; left; now apply elem_of_singleton).
    cbn [negb]. fold (index_file (arg_output_dir args)).
    fold (metadata_file (arg_output_dir args)). now rewrite Hi, Hm.
  - cbn [make_metadata md_chunks md_embedding_dim md_chunk_size md_chunk_overlap].
    unfold to_dict. rewrite map_id, Hcfg. cbn [chunk_size chunk_overlap].
    repeat split; try assumption.
    + unfold len. destruct chunks; [congruence|simpl; lia].
    + unfold Faiss.ntotal, len. now rewrite Hrows, length_map.
Qed.

End RoundTrip.

Lemma served_index_is_ingested_witness :
  exists fs',
    Ingest.main keep_row toy_hub None today always 2 toy_args empty_fs
    = Some (0, fs')
    /\ index_path toy_settings = arg_output_dir toy_args
    /\ toy_hub (Server.embedding_model toy_settings) = Some toy_model
    /\ exists idx md,
         startup_event toy_hub toy_settings fs' initial_state
         = ({| st_index := Some idx; st_metadata := Some md;
               st_model := Some toy_model; st_ready := true |}, Ok ())
         /\ files fs' !! index_file (arg_output_dir toy_args)
            = Some (IndexFile idx)
         /\ files fs' !! metadata_file (arg_output_dir toy_args)
            = Some (MetadataFile md)
         /\ 0 < len (md_chunks md)
         /\ Faiss.ntotal idx = len (md_chunks md)
         /\ Faiss.d idx = md_embedding_dim md
         /\ md_chunk_size md = arg_chunk_size toy_args
         /\ md_chunk_overlap md = arg_chunk_overlap toy_args.
Proof.
  eexists. split; [vm_compute; reflexivity|].
  split; [reflexivity|]. split; [reflexivity|].
  apply (served_index_is_ingested keep_row toy_hub None today always 2
           toy_args empty_fs _ toy_settings toy_model);
    [vm_compute; reflexivity|reflexivity|reflexivity].
Defined.


(** *** The status endpoints *)

Section StatusEndpoints.

Variable hub : string -> option Model.
Variable settings : Settings.
Variables WHISPER_AVAILABLE LANGDETECT_AVAILABLE : bool.

#[local] Abbreviation get_status :=
  (get_status settings WHISPER_AVAILABLE LANGDETECT_AVAILABLE).

(** X18. After [startup_event], [/status] reports the status ready,
    with the index loaded and the number of chunks of the metadata file,
    when the start succeeded, and the status initializing, with no
    chunk, when it failed; [/] and [/health] agree with it. *)
Theorem status_after_startup fs whisper_loaded :
  let st := (startup_event hub settings fs initial_state).1 in
  let s := get_status st whisper_loaded in
  ((startup_event hub settings fs initial_state).2 = Ok () ->
     s_status s = "ready" /\ s_index_loaded s = true
     /\ exists md,
          files fs !! metadata_file (index_path settings) = Some (MetadataFile md)
          /\ s_num_chunks s = len (md_chunks md))
  /\ ((startup_event hub settings fs initial_state).2 <> Ok () ->
        s_status s = "initializing" /\ s_num_chunks s = 0)
  /\ (s_status s = "ready" <-> health st = ("healthy", true))
  /\ (s_status s = "ready" <-> In ("status", "running") (root st)).
Proof.
  cbn zeta.
  unfold startup_event, load_embedding_model, load_index_and_metadata,
    Status.get_status, health, root, metadata_file.
  destruct (hub (Server.embedding_model settings)) as [m|]; simpl.
  2:{ repeat split; try discriminate; try congruence.
      intros [[=]|[[=]|[[=]|[]]]]. }
  destruct (bool_decide (index_path settings ∈ dirs fs)); simpl.
  2:{ repeat split; try discriminate; try congruence.
      intros [[=]|[[=]|[[=]|[]]]]. }
  destruct (files fs !! path_join (index_path settings) "faiss_index.bin")
    as [[idx|md|sm|]|]; simpl;
    try (repeat split; try discriminate; try congruence;
         intros [[=]|[[=]|[[=]|[]]]]).
  destruct (files fs !! path_join (index_path settings) "metadata.pkl")
    as [[idx'|md|sm|]|]; simpl;
    try (repeat split; try discriminate; try congruence;
         intros [[=]|[[=]|[[=]|[]]]]).
  repeat split; try congruence; eauto.
Qed.

End StatusEndpoints.

End AnswerFacts.

(** ** The transcription endpoint *)

Module SpeechFacts.

Import Py Speech SpeechSpec Examples Scenarios.

#[local] Open Scope Q_scope.

Lemma sum_bounds xs : forall acc,
  Forall (fun x => 0 <= x <= 1) xs ->
  acc <= fold_left Qplus xs acc <= acc + inject_Z (len xs).
Proof.
  induction xs as [|x xs IH]; intros acc H; simpl.
  - change (inject_Z (len (@nil Q))) with 0. lra.
  - inversion H as [|? ? Hx Hxs]; subst. specialize (IH (acc + x) Hxs).
    replace (len (x :: xs)) with (1 + len xs)%Z
      by (unfold len; simpl length; lia).
    rewrite inject_Z_plus. change (inject_Z 1) with 1. lra.
Qed.

Lemma probabilities_ok_spec segments :
  probabilities_ok segments = true ->
  Forall (fun x => 0 <= x <= 1)
    (map (fun seg => default 0 (seg_no_speech_prob seg)) segments).
Proof.
  unfold probabilities_ok. rewrite forallb_forall. intros H.
  apply Forall_forall. intros x Hx. apply in_map_iff in Hx as (seg & <- & Hs).
  specialize (H seg Hs). destruct (seg_no_speech_prob seg) as [p|]; simpl.
  - apply andb_true_iff in H as [H1 H2]. now rewrite !Qle_bool_iff in *.
  - lra.
Qed.

Lemma well_formed_response result :
  well_formed result = true ->
  exists text entries,
    res_text result = Some text
    /\ mapM segment_entry (default [] (res_segments result)) = Some entries
    /\ length entries = length (default [] (res_segments result)).
Proof.
  unfold well_formed. intros H. apply andb_prop in H as [H1 H2].
  apply bool_decide_eq_true_1 in H1 as [text Ht].
  rewrite forallb_forall in H2.
  destruct (mapM segment_entry (default [] (res_segments result)))
    as [entries|] eqn:E.
  - exists text, entries. split; [exact Ht|]. split; [reflexivity|].
    symmetry. now apply length_mapM in E.
  - exfalso. apply mapM_None_1 in E.
    apply List.Exists_exists in E as (seg & Hs & Hn).
    specialize (H2 seg Hs). apply bool_decide_eq_true_1 in H2.
    rewrite Hn in H2. destruct H2 as [entry H2]. discriminate.
Qed.

Section Transcribe.

Variable WHISPER_AVAILABLE : bool.

#[local] Abbreviation transcribe_audio := (transcribe_audio WHISPER_AVAILABLE).

(** X19. A transcription that succeeds is answered with as many segments
    as the model gave: the upload was read, stored and removed, and the
    model returned a result with the keys the response is built from.
    The confidence is absent exactly when there is no segment, and else
    it lies between 0 and 1 when every [no_speech_prob] given does. *)
Theorem transcribe_confidence_range model tmp path bytes result :
  WHISPER_AVAILABLE = true ->
  model bytes = Some result ->
  well_formed result = true ->
  probabilities_ok (default [] (res_segments result)) = true ->
  exists r,
    (transcribe_audio (Some model) (delivered path bytes) tmp).2 = Http200 r
    /\ length (tr_segments r) = length (default [] (res_segments result))
    /\ match tr_confidence r with
       | None => default [] (res_segments result) = []
       | Some c => default [] (res_segments result) <> [] /\ 0 <= c <= 1
       end.
Proof.
  intros -> Hm Hw Hp. unfold Speech.transcribe_audio, delivered.
  cbn [temp_path content stored unlinked negb]. rewrite Hm.
  destruct (well_formed_response result Hw) as (text & entries & Ht & He & Hl).
  unfold response_of. rewrite Ht, He.
  eexists. split; [reflexivity|]. cbn [snd tr_segments tr_confidence].
  split; [exact Hl|].
  destruct (default [] (res_segments result)) as [|seg segs] eqn:E;
    [reflexivity|].
  split; [discriminate|]. apply probabilities_ok_spec in Hp.
  set (confidences := map (fun seg => default 0 (seg_no_speech_prob seg))
                        (seg :: segs)) in *.
  pose proof (sum_bounds confidences 0 Hp) as [Hlo Hhi].
  fold (sum confidences) in Hlo, Hhi.
  assert (Hn : 0 < inject_Z (len confidences)).
  { unfold len, confidences. simpl length.
    rewrite <- (Zlt_Qlt 0). lia. }
  assert (H1 : 0 <= sum confidences / inject_Z (len confidences))
    by (apply Qle_shift_div_l; [exact Hn|lra]).
  assert (H2 : sum confidences / inject_Z (len confidences) <= 1)
    by (apply Qle_shift_div_r; [exact Hn|lra]).
  lra.
Qed.

(** X20. The temporary file of the upload, whose name is new in the
    directory. An answer 501 means that Whisper is not available or no
    model is loaded, and no file was made. An answer 200 means that the
    upload was read, stored and removed and that the response is the one
    built from the result of the model; the directory is as before. An
    answer 500 comes from any failure inside the [try]: the directory is
    as before when no file could be made, and when the file was removed
    and the response could not be built from the result; the file is
    left behind when the read, the write, the model or the removal
    failed. *)
Theorem transcribe_temp_file whisper_model (up : Upload) (tmp : TempDir) :
  (forall path, temp_path up = Some path -> path ∉ tmp) ->
  match transcribe_audio whisper_model up tmp with
  | (tmp', Http501) =>
      tmp' = tmp /\ (WHISPER_AVAILABLE = false \/ whisper_model = None)
  | (tmp', Http200 r) =>
      tmp' = tmp
      /\ exists model path bytes result,
           WHISPER_AVAILABLE = true /\ whisper_model = Some model
           /\ up = delivered path bytes
           /\ model bytes = Some result /\ response_of result = Some r
  | (tmp', Http500) =>
      exists model,
        WHISPER_AVAILABLE = true /\ whisper_model = Some model
        /\ ((tmp' = tmp
             /\ (temp_path up = None
                 \/ exists path bytes result,
                      up = delivered path bytes
                      /\ model bytes = Some result
                      /\ response_of result = None))
            \/ (exists path,
                  temp_path up = Some path /\ tmp' = {[path]} ∪ tmp
                  /\ fails_with_file model up))
  end.
Proof.
  intros Hfresh. unfold Speech.transcribe_audio, fails_with_file.
  destruct WHISPER_AVAILABLE; [|auto].
  destruct whisper_model as [model|]; [|auto].
  destruct up as [[path|] bytes st un]; cbn [temp_path content stored unlinked].
  2:{ exists model. split; [reflexivity|]. split; [reflexivity|]. left. auto. }
  assert (Hp : path ∉ tmp) by now apply Hfresh.
  assert (Hback : ({[path]} ∪ tmp) ∖ {[path]} = tmp).
  { apply set_eq. intros x.
    rewrite elem_of_difference, elem_of_union, elem_of_singleton. split.
    - intros [[E|Hx] Hn]; [contradiction|exact Hx].
    - intros Hx. split; [now right|]. intros ->. contradiction. }
  destruct bytes as [bytes|].
  2:{ exists model. split; [reflexivity|]. split; [reflexivity|]. right.
      exists path. auto. }
  destruct st; cbn [negb].
  2:{ exists model. split; [reflexivity|]. split; [reflexivity|]. right.
      exists path. auto. }
  destruct (model bytes) as [result|] eqn:Em.
  2:{ exists model. split; [reflexivity|]. split; [reflexivity|]. right.
      exists path. split; [reflexivity|]. split; [reflexivity|].
      right. right. left. now exists bytes. }
  destruct un; cbn [negb].
  2:{ exists model. split; [reflexivity|]. split; [reflexivity|]. right.
      exists path. auto 6. }
  rewrite Hback.
  destruct (response_of result) as [r|] eqn:Er.
  - split; [reflexivity|]. now exists model, path, bytes, result.
  - exists model. split; [reflexivity|]. split; [reflexivity|]. left.
    split; [reflexivity|]. right. now exists path, bytes, result.
Qed.

End Transcribe.

Lemma transcribe_confidence_range_witness :
  true = true
  /\ whisper_up [] = Some two_segments
  /\ well_formed two_segments = true
  /\ probabilities_ok (default [] (res_segments two_segments)) = true
  /\ exists r,
       (transcribe_audio true (Some whisper_up) (delivered "t.wav" []) ∅).2
       = Http200 r
       /\ length (tr_segments r) = length (default [] (res_segments two_segments))
       /\ match tr_confidence r with
          | None => default [] (res_segments two_segments) = []
          | Some c => default [] (res_segments two_segments) <> [] /\ 0 <= c <= 1
          end.
Proof.
  split; [reflexivity|]. split; [reflexivity|].
  split; [vm_compute; reflexivity|]. split; [reflexivity|].
  apply (transcribe_confidence_range true whisper_up ∅ "t.wav" [] two_segments);
    solve [reflexivity | vm_compute; reflexivity].
Defined.

Lemma transcribe_temp_file_witness :
  (forall path, temp_path (delivered "t.wav" []) = Some path -> path ∉ (∅ : TempDir))
  /\ match transcribe_audio true (Some whisper_down) (delivered "t.wav" []) ∅ with
     | (tmp', Http501) =>
         tmp' = ∅ /\ (true = false \/ Some whisper_down = None)
     | (tmp', Http200 r) =>
         tmp' = ∅
         /\ exists model path bytes result,
              true = true /\ Some whisper_down = Some model
              /\ delivered "t.wav" [] = delivered path bytes
              /\ model bytes = Some result /\ response_of result = Some r
     | (tmp', Http500) =>
         exists model,
           true = true /\ Some whisper_down = Some model
           /\ ((tmp' = ∅
                /\ (temp_path (delivered "t.wav" []) = None
                    \/ exists path bytes result,
                         delivered "t.wav" [] = delivered path bytes
                         /\ model bytes = Some result
                         /\ response_of result = None))
               \/ (exists path,
                     temp_path (delivered "t.wav" []) = Some path
                     /\ tmp' = {[path]} ∪ ∅
                     /\ fails_with_file model (delivered "t.wav" [])))
     end.
Proof.
  assert (H : forall path, temp_path (delivered "t.wav" []) = Some path ->
                path ∉ (∅ : TempDir)).
  { intros path _. apply not_elem_of_empty. }
  split; [exact H|].
  apply (transcribe_temp_file true (Some whisper_down) (delivered "t.wav" []) ∅ H).
Defined.

(** The file of an upload is left behind when the model raises, and a
    result without the key [text] is answered with 500 after the file
    was removed. *)
Example transcribe_failures :
  transcribe_audio true (Some whisper_down) (delivered "t.wav" []) ∅
    = ({["t.wav"]}, Http500)
  /\ transcribe_audio true (Some whisper_odd) (delivered "t.wav" []) ∅
     = (∅, Http500).
Proof. split; vm_compute; reflexivity. Qed.

End SpeechFacts.

(** ** The stock price service *)

Module StockFacts.

Import Py Stock Examples Scenarios.

Lemma lookup_item_In key items v :
  lookup_item key items = Some v -> In v (map snd items).
Proof.
  induction items as [|[k v'] items IH]; simpl; [discriminate|].
  destruct (bool_decide (k = key)); [intros [= ->]; now left|auto].
Qed.

Lemma endswith_app s suffix : endswith (s ++ suffix) suffix = true.
Proof.
  unfold endswith. rewrite length_app. apply andb_true_iff. split.
  - apply bool_decide_eq_true.
    replace (length s + length suffix - length suffix)%nat with (length s)
      by lia.
    apply drop_app_length.
  - apply Nat.leb_le. lia.
Qed.

Section Service.

Variables upper lower : str -> str.
Variable round2 : Q -> Q.
Variable isoformat : Z -> string.

#[local] Abbreviation normalize_symbol := (normalize_symbol upper lower).
#[local] Abbreviation get_stock_price :=
  (get_stock_price upper lower round2 isoformat).

(** X21. A normalised symbol is the ticker of one of the three indices
    or ends with the suffix of an exchange, [.NS] or [.BO]. *)
Theorem normalize_symbol_suffixed symbol :
  In (normalize_symbol symbol) (map snd INDIAN_INDICES)
  \/ endswith (normalize_symbol symbol) (of_string ".NS") = true
  \/ endswith (normalize_symbol symbol) (of_string ".BO") = true.
Proof.
  unfold Stock.normalize_symbol.
  destruct (lookup_item _ INDIAN_INDICES) as [ticker|] eqn:E.
  - left. now apply lookup_item_In in E.
  - right.
    destruct (endswith (strip (upper symbol)) (of_string ".NS")) eqn:E1;
      [now left|].
    destruct (endswith (strip (upper symbol)) (of_string ".BO")) eqn:E2;
      cbn [orb]; [now right|].
    left. apply endswith_app.
Qed.

Lemma with_change_fields data data' :
  with_change round2 data = Some data' ->
  sd_symbol data' = sd_symbol data
  /\ sd_normalized_symbol data' = sd_normalized_symbol data.
Proof.
  unfold with_change. destruct (_ && _); [|now intros [= <-]].
  destruct (sd_previous_close data); try discriminate. now intros [= <-].
Qed.

(** The three ways a call ends: served from the cache, failed, or
    fetched and stored. *)
Lemma get_stock_price_cases (cache : Cache) w symbol :
  let key := normalize_symbol symbol in
  (exists d t, cache !! key = Some (d, t) /\ at_check w - t < cache_duration
     /\ get_stock_price cache w symbol = (cache, Some d, []))
  \/ ((forall d t, cache !! key = Some (d, t) ->
         cache_duration <= at_check w - t)
      /\ (get_stock_price cache w symbol = (cache, None, [key])
          \/ exists d,
               get_stock_price cache w symbol
               = (<[key := (d, at_store w)]> cache, Some d, [key])
               /\ sd_symbol d = symbol /\ sd_normalized_symbol d = key)).
Proof.
  cbn zeta. unfold Stock.get_stock_price.
  set (key := normalize_symbol symbol).
  destruct (cache !! key) as [[d t]|] eqn:E.
  - destruct (at_check w - t <? cache_duration) eqn:X.
    + left. exists d, t. apply Z.ltb_lt in X. auto.
    + right. apply Z.ltb_ge in X. split; [intros d' t' [= <- <-]; exact X|].
      destruct (ticker_info w key) as [info|]; [|now left].
      destruct (negb (truthy _)); [now left|].
      destruct (py_or _ _) as [|price|]; try (now left).
      destruct (with_change round2 _) as [data|] eqn:Ew; [|now left].
      right. exists data. apply with_change_fields in Ew as [H1 H2]. auto.
  - right. split; [discriminate|].
    destruct (ticker_info w key) as [info|]; [|now left].
    destruct (negb (truthy _)); [now left|].
    destruct (py_or _ _) as [|price|]; try (now left).
    destruct (with_change round2 _) as [data|] eqn:Ew; [|now left].
    right. exists data. apply with_change_fields in Ew as [H1 H2]. auto.
Qed.

(** X22. After a call that fetched a price, a call within five minutes
    for a symbol with the same normalised form is answered from the
    cache, with the very record of the first call and without asking
    the market. *)
Theorem cached_price_is_served (cache cache1 : Cache) w1 w2 symbol1 symbol2 data :
  get_stock_price cache w1 symbol1
  = (cache1, Some data, [normalize_symbol symbol1]) ->
  normalize_symbol symbol2 = normalize_symbol symbol1 ->
  at_check w2 - at_store w1 < cache_duration ->
  get_stock_price cache1 w2 symbol2 = (cache1, Some data, [])
  /\ sd_symbol data = symbol1.
Proof.
  intros H1 Hkey Hfresh.
  destruct (get_stock_price_cases cache w1 symbol1)
    as [(d & t & _ & _ & H)|[_ [H|(d & H & Hs & _)]]];
    rewrite H in H1; try discriminate.
  injection H1 as <- <-. split; [|exact Hs].
  unfold Stock.get_stock_price. rewrite Hkey, (lookup_insert_eq cache).
  now rewrite (proj2 (Z.ltb_lt _ _) Hfresh).
Qed.

(** X23. A call asks the market exactly when the cache has no entry for
    the normalised symbol that is younger than five minutes, and then
    only for that symbol. It changes no entry of another symbol and
    removes none; a call that returns [None] leaves the cache as it
    was, and a record that is returned is the entry of its symbol. *)
Theorem get_stock_price_cache (cache : Cache) w symbol :
  let key := normalize_symbol symbol in
  match get_stock_price cache w symbol with
  | (cache', r, calls) =>
      (calls = []
       <-> exists d t, cache !! key = Some (d, t)
             /\ at_check w - t < cache_duration)
      /\ (calls = [] \/ calls = [key])
      /\ (forall k, k <> key -> cache' !! k = cache !! k)
      /\ (is_Some (cache !! key) -> is_Some (cache' !! key))
      /\ match r with
         | None => cache' = cache
         | Some d => exists t, cache' !! key = Some (d, t)
         end
  end.
Proof.
  cbn zeta.
  destruct (get_stock_price_cases cache w symbol)
    as [(d & t & Hc & Hf & ->)|[Hold [->|(d & -> & _)]]].
  - repeat split; eauto.
  - repeat split; auto; try discriminate.
    intros (d & t & Hc & Hf). specialize (Hold d t Hc). lia.
  - repeat split; auto; try discriminate.
    + intros (d' & t & Hc & Hf). specialize (Hold d' t Hc). lia.
    + intros k Hk. now apply lookup_insert_ne.
    + intros _. rewrite (lookup_insert_eq cache). eauto.
    + exists (at_store w). apply (lookup_insert_eq cache).
Qed.

End Service.

Lemma cached_price_is_served_witness :
  exists cache1 data,
    Stock.get_stock_price ascii_upper ascii_lower round_cents iso_day
      ∅ noon (of_string " reliance")
    = (cache1, Some data,
       [Stock.normalize_symbol ascii_upper ascii_lower (of_string " reliance")])
    /\ Stock.normalize_symbol ascii_upper ascii_lower (of_string "RELIANCE")
       = Stock.normalize_symbol ascii_upper ascii_lower (of_string " reliance")
    /\ at_check minute_later - at_store noon < cache_duration
    /\ Stock.get_stock_price ascii_upper ascii_lower round_cents iso_day
         cache1 minute_later (of_string "RELIANCE")
       = (cache1, Some data, [])
    /\ sd_symbol data = of_string " reliance".
Proof.
  eexists _, _. split; [vm_compute; reflexivity|].
  split; [vm_compute; reflexivity|]. split; [vm_compute; reflexivity|].
  apply (cached_price_is_served ascii_upper ascii_lower round_cents iso_day
           ∅ _ noon minute_later (of_string " reliance") (of_string "RELIANCE"));
    vm_compute; reflexivity.
Defined.

End StockFacts.
